(** * png2svg: the pixel grid, its covering and the compaction of the document

    A shallow embedding of package [png2svg] (pixel grid, single-pixel
    covering, colour grouping, textual minimization, writing) and of the
    covering loop of [cmd/png2svg/main.go].

    Conventions of the embedding:
    - Go's [int] is a 64-bit signed integer: values are in [Z] and every
      arithmetic operation of the source is followed by [wrap];
    - [uint8] colour channels are [Byte.byte];
    - a [*Pixel] is [option Pixel], [None] being the nil pointer; the
      pointers of one grid are pairwise distinct, so a slice of pointers is
      a list of values updated in place;
    - a run-time panic is the [Panic] outcome;
    - what a function prints or writes is returned as a list of [event]s. *)

From Stdlib Require Import ZArith Lia.
From Stdlib.Strings Require Import Byte Ascii.
From stdpp Require Import base option list gmap strings.

Local Open Scope Z_scope.

(** ** Outcomes: normal return or panic *)

Inductive outcome (A : Type) : Type :=
| Ret (a : A)
| Panic (msg : string).
Arguments Ret {A} a.
Arguments Panic {A} msg.

#[global] Instance outcome_ret : MRet outcome := @Ret.
#[global] Instance outcome_bind : MBind outcome := fun A B k m =>
  match m with
  | Ret a => k a
  | Panic msg => Panic msg
  end.

Definition returns {A} (m : outcome A) : Prop := ∃ a, m = Ret a.

(** ** Go's [int] *)

Definition int_max : Z := 2 ^ 63 - 1.
Definition int_min : Z := - 2 ^ 63.
Definition wrap (z : Z) : Z := (z + 2 ^ 63) mod 2 ^ 64 - 2 ^ 63.
Definition add (a b : Z) : Z := wrap (a + b).
Definition sub (a b : Z) : Z := wrap (a - b).
Definition mul (a b : Z) : Z := wrap (a * b).
Definition is_int (z : Z) : Prop := int_min ≤ z ≤ int_max.

(** [for v := lo; v < hi; v++]: the values the loop variable takes.  The
    increment never wraps, since it is only applied to a value below [hi]. *)
Definition zrange (lo hi : Z) : list Z := seqZ lo (hi - lo).

(** A [for] loop over [xs] whose body may [return] a value from the
    enclosing function ([Some]) or fall through to the next iteration. *)
Fixpoint for_first {A} (xs : list Z) (body : Z → outcome (option A))
  : outcome (option A) :=
  match xs with
  | [] => Ret None
  | x :: xs' =>
      r ← body x;
      match r with
      | Some a => Ret (Some a)
      | None => for_first xs' body
      end
  end.

(** [s[i]] on a slice, and [*p] on a pointer. *)
Definition index {A} (s : list A) (i : Z) : outcome A :=
  if i <? 0 then Panic "index out of range"
  else match s !! Z.to_nat i with
       | Some a => Ret a
       | None => Panic "index out of range"
       end.

Definition deref {A} (p : option A) : outcome A :=
  match p with
  | Some a => Ret a
  | None => Panic "nil pointer dereference"
  end.

(** ** Data model *)

(** [type Pixel struct { x, y, r, g, b, a int; covered bool }]; the
    one-letter fields carry a [p] prefix. *)
Record Pixel : Type := mkPixel {
  px : Z; py : Z; pr : Z; pg : Z; pb : Z; pa : Z; covered : bool
}.

(** [type Pixels []*Pixel] *)
Abbreviation Pixels := (list (option Pixel)).

(** The external emitter (package onthefly).  A page is the envelope made by
    [NewTinySVGPixels(width, height)] together with the rectangles added to
    its svg tag so far, oldest first.  [svgTag] of the source points into
    [page]; here it is the [tag_rects] component. *)
Record Rect : Type := mkRect {
  rect_x : Z; rect_y : Z; rect_w : Z; rect_h : Z; rect_fill : Z * Z * Z
}.

Record Page : Type := mkPage {
  page_width : Z; page_height : Z; tag_rects : list Rect
}.

Definition NewTinySVGPixels (width height : Z) : Page :=
  mkPage width height [].

Definition AddRect (svgTag : Page) (rc : Rect) : Page :=
  mkPage (page_width svgTag) (page_height svgTag) (tag_rects svgTag ++ [rc]).

(** [svg.Pixel(x, y, r, g, b)]: a rectangle one wide and one high. *)
Definition Tag_Pixel (svgTag : Page) (x y r g b : Z) : Page :=
  AddRect svgTag (mkRect x y 1 1 (r, g, b)).

Record PixelImage : Type := mkPixelImage {
  pixels : Pixels; page : Page; verbose : bool; w : Z; h : Z
}.

(** Go [error] values: the ones made by [errors.New] and the ones the
    operating system hands back; the two never compare equal. *)
Inductive error : Type :=
| errors_New (text : string)
| os_error (detail : string).

(** What the program prints and writes, oldest first.  An event of [os.Create]
    or [WriteString] carries the result the operating system gave; for
    [WriteString] also the number of bytes written. *)
Inductive arg : Type := ArgInt (z : Z) | ArgStr (s : string) | ArgErr (e : error).

Inductive dest : Type := Stdout | File (filename : string).

Inductive event : Type :=
| EvPrint (s : string)
| EvPrintf (format : string) (args : list arg)
| EvStderr (format : string) (args : list arg)
| EvCreate (filename : string) (err : option error)
| EvWriteString (f : dest) (s : string) (n : nat) (err : option error)
| EvClose (filename : string).

(** ** Queries *)

(** [Done]: all pixels are covered. *)
Fixpoint Done_loop (ps : Pixels) : outcome bool :=
  match ps with
  | [] => Ret true
  | p :: ps' =>
      p ← deref p;
      if negb (covered p) then Ret false else Done_loop ps'
  end.

Definition Done (pi : PixelImage) : outcome bool := Done_loop (pixels pi).

Definition At (pi : PixelImage) (x y : Z) : outcome (Z * Z * Z) :=
  let i := add (mul y (w pi)) x in
  p ← index (pixels pi) i ≫= deref;
  Ret (pr p, pg p, pb p).

Definition Covered (pi : PixelImage) (x y : Z) : outcome bool :=
  let i := add (mul y (w pi)) x in
  p ← index (pixels pi) i ≫= deref;
  Ret (covered p).

Definition FirstUncovered (pi : PixelImage) : outcome (Z * Z) :=
  r ← for_first (zrange 0 (h pi)) (λ y,
        for_first (zrange 0 (w pi)) (λ x,
          let i := add (mul y (w pi)) x in
          p ← index (pixels pi) i ≫= deref;
          if negb (covered p) then Ret (Some (x, y)) else Ret None));
  match r with
  | Some xy => Ret xy
  | None => Panic "All pixels are covered"
  end.

(** ** Covering every remaining pixel with a 1x1 rectangle *)

Definition cover (p : Pixel) : Pixel :=
  mkPixel (px p) (py p) (pr p) (pg p) (pb p) (pa p) true.

Fixpoint CoverAllPixels_loop (ps : Pixels) (svgTag : Page) (coverCount : Z)
  : outcome (Pixels * Page * Z) :=
  match ps with
  | [] => Ret ([], svgTag, coverCount)
  | p :: ps' =>
      p ← deref p;
      if negb (covered p) then
        let svgTag := Tag_Pixel svgTag (px p) (py p) (pr p) (pg p) (pb p) in
        '(ps'', svgTag, n) ← CoverAllPixels_loop ps' svgTag (add coverCount 1);
        Ret (Some (cover p) :: ps'', svgTag, n)
      else
        '(ps'', svgTag, n) ← CoverAllPixels_loop ps' svgTag coverCount;
        Ret (Some p :: ps'', svgTag, n)
  end.

Definition CoverAllPixels (pi : PixelImage)
  : outcome (PixelImage * list event) :=
  '(ps, svgTag, coverCount) ← CoverAllPixels_loop (pixels pi) (page pi) 0;
  let out :=
    if verbose pi
    then [EvPrintf "Covered %d pixels with 1x1 rectangles.
" [ArgInt coverCount]]
    else [] in
  Ret (mkPixelImage ps svgTag (verbose pi) (w pi) (h pi), out).

(** ** Building the grid from a decoded image *)

(** [color.NRGBA]: four [uint8] channels. *)
Record NRGBA : Type := mkNRGBA { cR : byte; cG : byte; cB : byte; cA : byte }.

(** [int(c)] for a [uint8]. *)
Definition int_of_uint8 (c : byte) : Z := Z.of_N (Byte.to_N c).

(** [image.Image], as far as [NewPixelImage] looks at it: its bounds and,
    per coordinate, the colour [color.NRGBAModel.Convert(img.At(x, y))]. *)
Record Point : Type := mkPoint { pt_X : Z; pt_Y : Z }.
Record Rectangle : Type := mkRectangle { Min : Point; Max : Point }.
Record Image : Type := mkImage {
  Bounds : Rectangle;
  NRGBA_At : Z → Z → NRGBA
}.

(** [make(Pixels, n, n)]: [n] nil pointers. *)
Definition make_Pixels (n : Z) : outcome Pixels :=
  if n <? 0 then Panic "makeslice: len out of range"
  else Ret (replicate (Z.to_nat n) None).

(** [s[i] = v]. *)
Definition store {A} (s : list A) (i : Z) (v : A) : outcome (list A) :=
  if (i <? 0) || (Z.of_nat (length s) <=? i) then Panic "index out of range"
  else Ret (<[Z.to_nat i := v]> s).

Definition NewPixel (img : Image) (x y : Z) : Pixel :=
  let c := NRGBA_At img x y in
  let alpha := int_of_uint8 (cA c) in
  (* Mark transparent pixels as already being "covered" *)
  let covered := alpha =? 0 in
  mkPixel x y (int_of_uint8 (cR c)) (int_of_uint8 (cG c))
          (int_of_uint8 (cB c)) alpha covered.

Fixpoint NewPixelImage_row (img : Image) (y : Z) (xs : list Z)
    (pixels : Pixels) (i : Z) : outcome (Pixels * Z) :=
  match xs with
  | [] => Ret (pixels, i)
  | x :: xs' =>
      pixels ← store pixels i (Some (NewPixel img x y));
      NewPixelImage_row img y xs' pixels (add i 1)
  end.

Fixpoint NewPixelImage_rows (img : Image) (verbose : bool) (ys : list Z)
    (pixels : Pixels) (i : Z) (out : list event)
  : outcome (Pixels * Z * list event) :=
  match ys with
  | [] => Ret (pixels, i, out)
  | y :: ys' =>
      let out := if verbose then out ++ [EvPrint "."] else out in
      '(pixels, i) ← NewPixelImage_row img y
          (zrange (pt_X (Min (Bounds img))) (pt_X (Max (Bounds img)))) pixels i;
      NewPixelImage_rows img verbose ys' pixels i out
  end.

Definition NewPixelImage (img : Image) (verbose : bool)
  : outcome (PixelImage * list event) :=
  let width := sub (pt_X (Max (Bounds img))) (pt_X (Min (Bounds img))) in
  let height := sub (pt_Y (Max (Bounds img))) (pt_Y (Min (Bounds img))) in
  pixels ← make_Pixels (mul width height);
  let out := if verbose then [EvPrint "Converting image.Image to Pixels"]
             else [] in
  '(pixels, _, out) ← NewPixelImage_rows img verbose
      (zrange (pt_Y (Min (Bounds img))) (pt_Y (Max (Bounds img)))) pixels 0 out;
  let page := NewTinySVGPixels width height in
  let out := if verbose then out ++ [EvPrint "ok
"] else out in
  Ret (mkPixelImage pixels page verbose width height, out).

(** ** Package [strings], on byte strings

    [Replace], [Split] and [Contains] are only called with a non-empty
    pattern in this program, and [Fields] on the ASCII text of the emitter;
    that is the part modelled here. *)

Definition quote : string := String "034"%char "".

Module GoStrings.

Definition HasPrefix (s prefix : string) : bool := String.prefix prefix s.

Fixpoint Contains (s substr : string) : bool :=
  String.prefix substr s ||
  match s with
  | "" => false
  | String _ s' => Contains s' substr
  end.

(** [Replace s old new n]: the first [n] non-overlapping instances of
    [old], from the left; all of them when [n < 0].  [skip] counts the
    bytes of a matched instance still to be dropped. *)
Fixpoint Replace_from (skip : nat) (s old new : string) (n : Z) : string :=
  match s with
  | "" => ""
  | String c s' =>
      match skip with
      | S k => Replace_from k s' old new n
      | O =>
          if negb (n =? 0) && String.prefix old s
          then new +:+ Replace_from (String.length old - 1)%nat s' old new (n - 1)
          else String c (Replace_from 0 s' old new n)
      end
  end.

Definition Replace (s old new : string) (n : Z) : string :=
  match old with
  | "" => s
  | _ => Replace_from 0 s old new n
  end.

(** [Split s sep], [sep] not empty. *)
Fixpoint Split_from (skip : nat) (s sep : string) : list string :=
  match s with
  | "" => [""]
  | String c s' =>
      match skip with
      | S k => Split_from k s' sep
      | O =>
          if String.prefix sep s
          then "" :: Split_from (String.length sep - 1)%nat s' sep
          else match Split_from 0 s' sep with
               | piece :: rest => String c piece :: rest
               | [] => [String c ""]
               end
      end
  end.

Definition Split (s sep : string) : list string := Split_from 0 s sep.

(** [Fields s]: the maximal runs of non-space bytes.  [infield] tells
    whether the byte before was part of a field. *)
Fixpoint Fields_from (infield : bool) (s : string) : list string :=
  match s with
  | "" => if infield then [""] else []
  | String c s' =>
      if Ascii.is_space c then
        if infield then "" :: Fields_from false s' else Fields_from false s'
      else match Fields_from true s' with
           | field :: rest => String c field :: rest
           | [] => [String c ""]
           end
  end.

Definition Fields (s : string) : list string := Fields_from false s.

Definition Join (elems : list string) (sep : string) : string :=
  String.concat sep elems.

End GoStrings.

(** ** The document compactor *)

(** Extract the fill color from a svg rect line; the empty string if no fill
    color is found.  [elems[1]] panics when the field has no quote. *)
Fixpoint colorFromLine_fields (fields : list string) : outcome string :=
  match fields with
  | [] => Ret ""
  | field :: fields' =>
      if GoStrings.HasPrefix field "fill=" then
        let elems := GoStrings.Split field quote in
        index elems 1
      else colorFromLine_fields fields'
  end.

Definition colorFromLine (line : string) : outcome string :=
  if negb (GoStrings.Contains line (" fill=" +:+ quote)) then Ret ""
  else colorFromLine_fields (GoStrings.Fields line).

(** First loop of [groupLinesByFillColor]: the lines with a fill colour are
    erased from the slice and appended to the group of their colour. *)
Fixpoint groupLines_collect (lines : list string)
    (groupedLines : gmap string (list string))
  : outcome (list string * gmap string (list string)) :=
  match lines with
  | [] => Ret ([], groupedLines)
  | line :: lines' =>
      fillColor ← colorFromLine line;
      if decide (fillColor = "") then
        '(rest, groupedLines) ← groupLines_collect lines' groupedLines;
        Ret (line :: rest, groupedLines)
      else
        let group := default [] (groupedLines !! fillColor) in
        '(rest, groupedLines) ←
          groupLines_collect lines' (<[fillColor := group ++ [line]]> groupedLines);
        Ret ("" :: rest, groupedLines)
  end.

(** Second loop: one [<g>] element per colour.  Go does not fix the order in
    which [range] visits the keys of a map; [keys] is the order taken. *)
Definition strip_fill (key line : string) : string :=
  GoStrings.Replace line (" fill=" +:+ quote +:+ key +:+ quote) "" 1.

Fixpoint group_members (key : string) (lines : list string) (sb : string)
  : string :=
  match lines with
  | [] => sb
  | line :: lines' => group_members key lines' (sb +:+ strip_fill key line)
  end.

Fixpoint groupLines_build (keys : list string)
    (groupedLines : gmap string (list string)) (sb : string) : string :=
  match keys with
  | [] => sb
  | key :: keys' =>
      let lines := default [] (groupedLines !! key) in
      let sb := sb +:+ ("<g fill=" +:+ quote +:+ key +:+ quote +:+ ">") in
      let sb := group_members key lines sb in
      let sb := sb +:+ "</g>" in
      groupLines_build keys' groupedLines sb
  end.

(** Third loop: the contents replace the first empty line. *)
Fixpoint groupLines_insert (lines : list string) (contents : string)
    (inserted : bool) : list string :=
  match lines with
  | [] => []
  | line :: lines' =>
      if negb inserted && bool_decide (line = "")
      then contents :: groupLines_insert lines' contents true
      else line :: groupLines_insert lines' contents inserted
  end.

(** An enumeration order for the keys of a map, as the runtime picks it. *)
Definition range_order : Type := gmap string (list string) → list string.

Definition map_keys (m : gmap string (list string)) : list string :=
  (map_to_list m).*1.

Definition range_order_ok (range : range_order) : Prop :=
  ∀ m, range m ≡ₚ map_keys m.

Definition groupLinesByFillColor (range : range_order) (lines : list string)
  : outcome (list string) :=
  '(lines, groupedLines) ← groupLines_collect lines ∅;
  let contents := groupLines_build (range groupedLines) groupedLines "" in
  Ret (groupLines_insert lines contents false).

(** The rewrites of [String], in source order; each is applied to the whole
    document. *)
Definition attr0 (name : string) : string :=
  " " +:+ name +:+ "=" +:+ quote +:+ "0" +:+ quote.

Definition rewrites : list (string * string) :=
  [ ("
", "");
    (" />", "/>");
    ("  ", " ");
    (attr0 "x", "");
    (attr0 "y", "");
    (attr0 "width", "");
    (attr0 "height", "");
    ("> <", "><");
    ("#f00", "red");
    ("#ff0000", "red");
    ("#ffffff", "white");
    ("#000000", "black") ].

Definition rewrite (svgDocument : string) (r : string * string) : string :=
  GoStrings.Replace svgDocument r.1 r.2 (-1).

Definition minimize (svgDocument : string) : string :=
  foldl rewrite svgDocument rewrites.

(** What the run does not decide: the text the emitter renders for a page,
    the order of [range] over a map, and the results of the output calls
    ([None] for success, else the detail of the operating system's error). *)
Record World : Type := mkWorld {
  Page_String : Page → string;
  map_range : range_order;
  os_Create : string → option string;
  File_WriteString : dest → string → nat * option string
}.

(** [String] returns the rendered SVG document as a string. *)
Definition String_of (range : range_order) (svgDocument : string)
  : outcome string :=
  lines ← groupLinesByFillColor range (GoStrings.Split svgDocument "
");
  let svgDocument := GoStrings.Join lines "
" in
  Ret (minimize svgDocument).

Definition PixelImage_String (world : World) (pi : PixelImage)
  : outcome string :=
  String_of (map_range world) (Page_String world (page pi)).

(** ** Writing *)

Definition not_covered : error :=
  errors_New "the SVG representation does not cover all pixels".

Definition WriteSVG (world : World) (pi : PixelImage) (filename : string)
  : outcome (option error * list event) :=
  done ← Done pi;
  if negb done then Ret (Some not_covered, [])
  else
    let out := if verbose pi
               then [EvPrintf "Writing %s..." [ArgStr filename]] else [] in
    let write (f : dest) (out closing : list event) :=
      svgDocument ← PixelImage_String world pi;
      let '(n, err) := File_WriteString world f svgDocument in
      let err := os_error <$> err in
      let out := out ++ [EvWriteString f svgDocument n err] in
      match err with
      | Some e => Ret (Some e, out ++ closing)
      | None =>
          let out := if verbose pi then out ++ [EvPrint "ok
"] else out in
          Ret (None, out ++ closing)
      end in
    if decide (filename = "-") then write Stdout out []
    else
      let err := os_error <$> os_Create world filename in
      let out := out ++ [EvCreate filename err] in
      match err with
      | Some e => Ret (Some e, out)
      | None => write (File filename) out [EvClose filename]
      end.

(** ** The covering engine and the command

    [CreateBox], [Expand] and [CoverBox] belong to package [png2svg] but are
    not among the sources at hand; the loop that calls them is.  The pink
    debug colour and the palette reduction are left open. *)

(** Modelled from the spec: the [Box] type is missing.  "An inclusive
    axis-aligned rectangle (x1,y1)-(x2,y2)" whose pixels "share one reference
    color (the seed pixel's color)". *)
Record Box : Type := mkBox {
  x1 : Z; y1 : Z; x2 : Z; y2 : Z; seed : Z * Z * Z
}.

Record Flags : Type := mkFlags {
  outputFilename : string;
  colorPink : bool;
  singlePixelRectangles : bool;
  verbose_flag : bool;
  version : bool;
  quantize : bool
}.

Section CoveringEngine.

Variable pink : Z * Z * Z.
Variable quantized : Z * Z * Z → Z * Z * Z.

(** Modelled from the spec: [CreateBox] is missing.  "create a 1x1 box
    seeded at that pixel's color". *)
Definition CreateBox (pi : PixelImage) (x y : Z) : outcome Box :=
  c ← At pi x y;
  Ret (mkBox x y x y c).

(** Modelled from the spec: the match test of [Expand] is missing.  A pixel
    may join the box when it "is uncovered and has color exactly equal to
    the seed color". *)
Definition joins (pi : PixelImage) (box : Box) (x y : Z) : outcome bool :=
  c ← Covered pi x y;
  rgb ← At pi x y;
  Ret (negb c && bool_decide (rgb = seed box)).

Fixpoint all_join (pi : PixelImage) (box : Box) (cells : list (Z * Z))
  : outcome bool :=
  match cells with
  | [] => Ret true
  | (x, y) :: cells' =>
      ok ← joins pi box x y;
      if (ok : bool) then all_join pi box cells' else Ret false
  end.

(** Modelled from the spec: the rightward phase of [Expand] is missing.
    "repeatedly attempt to extend the box's right edge by one column if
    every pixel in that new column (across the box's current row range) is
    uncovered and has color exactly equal to the seed color; stop at the
    first column that fails the test or the grid boundary".  [columns]
    bounds the number of attempts by the columns of the grid. *)
Fixpoint Expand_right (columns : nat) (pi : PixelImage) (box : Box)
  : outcome Box :=
  match columns with
  | O => Ret box
  | S columns' =>
      let x := add (x2 box) 1 in
      if x <? w pi then
        ok ← all_join pi box ((λ y, (x, y)) <$> zrange (y1 box) (add (y2 box) 1));
        if (ok : bool)
        then Expand_right columns' pi
               (mkBox (x1 box) (y1 box) x (y2 box) (seed box))
        else Ret box
      else Ret box
  end.

(** Modelled from the spec: the downward phase of [Expand] is missing.
    "repeatedly attempt to extend the bottom edge by one row if every pixel
    in that new full-width row (spanning the box's now-fixed column range)
    is uncovered and color-matches; stop similarly". *)
Fixpoint Expand_down (rows : nat) (pi : PixelImage) (box : Box)
  : outcome Box :=
  match rows with
  | O => Ret box
  | S rows' =>
      let y := add (y2 box) 1 in
      if y <? h pi then
        ok ← all_join pi box ((λ x, (x, y)) <$> zrange (x1 box) (add (x2 box) 1));
        if (ok : bool)
        then Expand_down rows' pi
               (mkBox (x1 box) (y1 box) (x2 box) y (seed box))
        else Ret box
      else Ret box
  end.

(** Modelled from the spec: [Expand] is missing.  "two-phase greedy
    growth"; "Returns whether the box grew beyond its initial 1x1 size". *)
Definition Expand (pi : PixelImage) (box : Box) : outcome (Box * bool) :=
  box' ← Expand_right (Z.to_nat (w pi)) pi box;
  box' ← Expand_down (Z.to_nat (h pi)) pi box';
  Ret (box', negb (bool_decide (x2 box' = x2 box ∧ y2 box' = y2 box))).

(** Modelled from the spec: the marking loop of [CoverBox] is missing.
    "Marks every pixel inside the box covered". *)
Definition mark_covered (pixels : Pixels) (i : Z) : outcome Pixels :=
  p ← index pixels i ≫= deref;
  store pixels i (Some (cover p)).

Fixpoint CoverBox_cells (wd : Z) (cells : list (Z * Z)) (pixels : Pixels)
  : outcome Pixels :=
  match cells with
  | [] => Ret pixels
  | (x, y) :: cells' =>
      pixels ← mark_covered pixels (add (mul y wd) x);
      CoverBox_cells wd cells' pixels
  end.

Definition box_cells (box : Box) : list (Z * Z) :=
  y ← zrange (y1 box) (add (y2 box) 1);
  (λ x, (x, y)) <$> zrange (x1 box) (add (x2 box) 1).

(** Modelled from the spec: [CoverBox] is missing.  "Marks every pixel
    inside the box covered"; "Emits exactly one RenderedRectangle: bounds =
    box; fill = pink if usePinkOverride is true and the box expanded beyond
    1x1, else the (possibly quantized) source color". *)
Definition CoverBox (pi : PixelImage) (box : Box) (usePink quantize : bool)
  : outcome PixelImage :=
  pixels ← CoverBox_cells (w pi) (box_cells box) (pixels pi);
  let fill := if usePink then pink
              else if quantize then quantized (seed box) else seed box in
  let rc := mkRect (x1 box) (y1 box)
              (add (sub (x2 box) (x1 box)) 1) (add (sub (y2 box) (y1 box)) 1)
              fill in
  Ret (mkPixelImage pixels (AddRect (page pi) rc) (verbose pi) (w pi) (h pi)).

(** One turn of the covering loop of [main]. *)
Definition cover_step (flags : Flags) (pi : PixelImage) : outcome PixelImage :=
  (* Select the first uncovered pixel *)
  '(x, y) ← FirstUncovered pi;
  (* Create a box at that location *)
  box ← CreateBox pi x y;
  (* Expand the box to the right and downwards *)
  '(box, expanded) ← Expand pi box;
  (* Use the expanded box. Color pink if it is > 1x1, and colorPink is true *)
  CoverBox pi box (expanded && colorPink flags) (quantize flags).

(** [for !singlePixelRectangles && !pi.Done() { ... }]; [None] when [fuel]
    turns did not reach the end of the loop. *)
Fixpoint cover_loop (fuel : nat) (flags : Flags) (pi : PixelImage)
  : option (outcome PixelImage) :=
  match fuel with
  | O => None
  | S fuel' =>
      if singlePixelRectangles flags then Some (Ret pi)
      else match Done pi with
           | Panic msg => Some (Panic msg)
           | Ret true => Some (Ret pi)
           | Ret false =>
               match cover_step flags pi with
               | Panic msg => Some (Panic msg)
               | Ret pi' => cover_loop fuel' flags pi'
               end
           end
  end.

(** [main] from the decoded image on: the exit status, the final grid and
    what was printed and written. *)
Definition main_from (fuel : nat) (world : World) (flags : Flags)
    (img : Image) : option (outcome (Z * PixelImage * list event)) :=
  let flags :=
    if colorPink flags
    then mkFlags (outputFilename flags) true false (verbose_flag flags)
                 (version flags) (quantize flags)
    else flags in
  match NewPixelImage img (verbose_flag flags) with
  | Panic msg => Some (Panic msg)
  | Ret (pi, out) =>
      match cover_loop fuel flags pi with
      | None => None
      | Some (Panic msg) => Some (Panic msg)
      | Some (Ret pi) =>
          Some (
            '(pi, out1) ←
              (if singlePixelRectangles flags
               then CoverAllPixels pi
               else Ret (pi, []));
            '(err, out2) ← WriteSVG world pi (outputFilename flags);
            match err with
            | Some e =>
                Ret (1, pi, out ++ out1 ++ out2 ++
                            [EvStderr "error: %s
" [ArgErr e]])
            | None => Ret (0, pi, out ++ out1 ++ out2)
            end)
      end
  end.

End CoveringEngine.

(** ** Vocabulary of the properties *)

Definition allocated (ps : Pixels) : Prop := Forall is_Some ps.

Record wf (pi : PixelImage) : Prop := mk_wf {
  wf_w : 0 ≤ w pi;
  wf_h : 0 ≤ h pi;
  wf_length : Z.of_nat (length (pixels pi)) = w pi * h pi;
  wf_int : w pi * h pi ≤ int_max;
  wf_allocated : allocated (pixels pi)
}.

Definition in_grid (pi : PixelImage) (x y : Z) : Prop :=
  0 ≤ x < w pi ∧ 0 ≤ y < h pi.

Definition pixel_at (pi : PixelImage) (x y : Z) : option Pixel :=
  mjoin (pixels pi !! Z.to_nat (y * w pi + x)).

Definition uncovered (pi : PixelImage) (x y : Z) : Prop :=
  in_grid pi x y ∧ ∃ p, pixel_at pi x y = Some p ∧ covered p = false.


(** What one turn of the inner loop of [FirstUncovered] decides. *)
Definition seen (pi : PixelImage) (y x : Z) : option (Z * Z) :=
  match pixel_at pi x y with
  | Some p => if negb (covered p) then Some (x, y) else None
  | None => None
  end.

Definition row_major_first (pi : PixelImage) (x y : Z) : Prop :=
  uncovered pi x y ∧
  ∀ x' y', uncovered pi x' y' → y < y' ∨ (y = y' ∧ x ≤ x').

(** The pixels still to be covered. *)
Definition uncovered_pixels (ps : Pixels) : list Pixel :=
  filter (λ p, covered p = false) (omap id ps).

Definition count_uncovered (pi : PixelImage) : nat :=
  length (uncovered_pixels (pixels pi)).

(** What may happen to one entry of the grid: it is kept, or an uncovered
    pixel gets covered.  Nothing else is ever written to a pixel. *)
Inductive pixel_step : option Pixel → option Pixel → Prop :=
| pixel_kept o : pixel_step o o
| pixel_flipped p : covered p = false → pixel_step (Some p) (Some (cover p)).

Definition grid_step (ps ps' : Pixels) : Prop := Forall2 pixel_step ps ps'.

(** The 1x1 rectangle of a pixel. *)
Definition rect_of (p : Pixel) : Rect :=
  mkRect (px p) (py p) 1 1 (pr p, pg p, pb p).

(** Every pixel of the slice covered. *)
Definition cover_all (ps : Pixels) : Pixels :=
  (λ o : option Pixel, cover <$> o) <$> ps.

(** The page after more rectangles were added to its svg tag. *)
Definition emit (svgTag : Page) (rects : list Rect) : Page :=
  mkPage (page_width svgTag) (page_height svgTag) (tag_rects svgTag ++ rects).

(** The columns of an image, left to right. *)
Definition image_xs (img : Image) : list Z :=
  zrange (pt_X (Min (Bounds img))) (pt_X (Max (Bounds img))).

(** The coordinates of an image, row by row. *)
Definition image_cells (img : Image) : list (Z * Z) :=
  y ← zrange (pt_Y (Min (Bounds img))) (pt_Y (Max (Bounds img)));
  (λ x, (x, y)) <$> zrange (pt_X (Min (Bounds img))) (pt_X (Max (Bounds img))).

Definition opaque (img : Image) (c : Z * Z) : Prop :=
  0 < int_of_uint8 (cA (NRGBA_At img c.1 c.2)).

#[global] Instance opaque_dec img c : Decision (opaque img c) :=
  decide (0 < int_of_uint8 (cA (NRGBA_At img c.1 c.2))).

Definition opaque_count (img : Image) : nat :=
  length (filter (opaque img) (image_cells img)).

Definition grid_pixels (img : Image) : list Pixel :=
  (λ c, NewPixel img c.1 c.2) <$> image_cells img.

(** A decoded image: a well-formed rectangle whose area fits a slice. *)
Record img_ok (img : Image) : Prop := mk_img_ok {
  ok_X : pt_X (Min (Bounds img)) ≤ pt_X (Max (Bounds img));
  ok_Y : pt_Y (Min (Bounds img)) ≤ pt_Y (Max (Bounds img));
  ok_width : pt_X (Max (Bounds img)) - pt_X (Min (Bounds img)) ≤ int_max;
  ok_height : pt_Y (Max (Bounds img)) - pt_Y (Min (Bounds img)) ≤ int_max;
  ok_area : (pt_X (Max (Bounds img)) - pt_X (Min (Bounds img))) *
            (pt_Y (Max (Bounds img)) - pt_Y (Min (Bounds img))) ≤ int_max
}.

(** The operations of a [PixelImage] that the sources define, and the grid
    each leaves behind. *)
Inductive operation : Type :=
| OpDone
| OpAt (x y : Z)
| OpCovered (x y : Z)
| OpFirstUncovered
| OpCoverAllPixels
| OpString
| OpWriteSVG (filename : string).

Definition perform (world : World) (o : operation) (pi : PixelImage)
  : outcome PixelImage :=
  match o with
  | OpDone => _ ← Done pi; Ret pi
  | OpAt x y => _ ← At pi x y; Ret pi
  | OpCovered x y => _ ← Covered pi x y; Ret pi
  | OpFirstUncovered => _ ← FirstUncovered pi; Ret pi
  | OpCoverAllPixels => '(pi', _) ← CoverAllPixels pi; Ret pi'
  | OpString => _ ← PixelImage_String world pi; Ret pi
  | OpWriteSVG filename => _ ← WriteSVG world pi filename; Ret pi
  end.

Fixpoint perform_all (world : World) (ops : list operation) (pi : PixelImage)
  : outcome PixelImage :=
  match ops with
  | [] => Ret pi
  | o :: ops' => pi' ← perform world o pi; perform_all world ops' pi'
  end.

(** Where [WriteSVG] writes. *)
Definition target (filename : string) : dest :=
  if decide (filename = "-") then Stdout else File filename.

(** A box within the grid. *)
Definition box_ok (pi : PixelImage) (box : Box) : Prop :=
  0 ≤ x1 box ≤ x2 box ∧ x2 box < w pi ∧ 0 ≤ y1 box ≤ y2 box ∧ y2 box < h pi.

(** ** Vocabulary of the compactor *)

(** The fill colour [colorFromLine] finds on a line. *)
Definition fill_of (line : string) : string :=
  match colorFromLine line with
  | Ret c => c
  | Panic _ => ""
  end.

Definition filled (line : string) : Prop := fill_of line ≠ "".

(** What the first loop leaves in the place of a line. *)
Definition erase (line : string) : string :=
  if decide (fill_of line = "") then line else "".

(** The lines of one colour, in document order. *)
Definition members (lines : list string) (key : string) : list string :=
  filter (λ line, fill_of line = key) lines.

(** The fill colours of a document, each once. *)
Definition fill_colors (lines : list string) : list string :=
  remove_dups (filter (λ c, c ≠ "") (fill_of <$> lines)).

(** The fill attribute of colour [key], with its leading space. *)
Definition fill_attr (key : string) : string :=
  " fill=" +:+ quote +:+ key +:+ quote.

(** The [<g>] element of a colour. *)
Definition group_element (group : list string) (key : string) : string :=
  ("<g fill=" +:+ quote +:+ key +:+ quote +:+ ">") +:+
  String.concat "" (strip_fill key <$> group) +:+ "</g>".

(** The first instance of [old] in [pre +:+ old +:+ post] is the one after
    [pre]. *)
Definition first_instance (pre old post : string) : Prop :=
  ∀ a b, pre +:+ old +:+ post = a +:+ old +:+ b →
         (String.length pre ≤ String.length a)%nat.

(** ** Sample inputs *)

Definition opaque_red : NRGBA := mkNRGBA xff x00 x00 xff.
Definition opaque_blue : NRGBA := mkNRGBA x00 x00 xff xff.
Definition transparent : NRGBA := mkNRGBA x00 x00 x00 x00.

(** Three columns, two rows: a transparent pixel, two red ones; then two red
    ones and a blue one. *)
Definition sample_image : Image :=
  mkImage (mkRectangle (mkPoint 0 0) (mkPoint 3 2))
    (λ x y, if (x =? 0) && (y =? 0) then transparent
            else if x + y =? 3 then opaque_blue else opaque_red).

(** The grid of [sample_image], as [NewPixelImage] builds it. *)
Definition sample_grid : PixelImage :=
  mkPixelImage
    [ Some (mkPixel 0 0 0 0 0 0 true);
      Some (mkPixel 1 0 255 0 0 255 false);
      Some (mkPixel 2 0 255 0 0 255 false);
      Some (mkPixel 0 1 255 0 0 255 false);
      Some (mkPixel 1 1 255 0 0 255 false);
      Some (mkPixel 2 1 0 0 255 255 false) ]
    (NewTinySVGPixels 3 2) false 3 2.

(** An emitter text, a fixed order for [range], and output calls that
    succeed. *)
Definition sample_world : World :=
  mkWorld (λ _, "<svg>
</svg>") map_keys (λ _, None) (λ _ s, (String.length s, None)).

(** A rectangle line as the emitter writes it, and a document of three
    rectangles in two colours. *)
Definition rect_line (x y fill : string) : string :=
  "  <rect x=" +:+ quote +:+ x +:+ quote +:+
  " y=" +:+ quote +:+ y +:+ quote +:+
  " width=" +:+ quote +:+ "1" +:+ quote +:+
  " height=" +:+ quote +:+ "1" +:+ quote +:+
  " fill=" +:+ quote +:+ fill +:+ quote +:+ " />".

Definition sample_lines : list string :=
  [ "<svg>";
    rect_line "0" "0" "#00ff00";
    rect_line "1" "0" "#0000ff";
    rect_line "2" "0" "#00ff00";
    "</svg>" ].

Definition sample_document : string := GoStrings.Join sample_lines "
".

(** The other order for [range]. *)
Definition reversed_range : range_order := λ m, reverse (map_keys m).

(** The document of a single pixel of colour (240, 10, 188). *)
Definition f00abc_document : string :=
  GoStrings.Join ["<svg>"; rect_line "0" "0" "#f00abc"; "</svg>"] "
".

(** The flags of a plain run: expansion mode, output to standard output. *)
Definition sample_flags : Flags := mkFlags "-" false false false false false.

(** ** Reading the input, and the command from its arguments on *)

(** What the run does not decide about its input: whether [os.Open] opens
    the file ([None]) or fails with an error of the operating system, and
    what [png.Decode] makes of the content of the file. *)
Record Input : Type := mkInput {
  os_Open : string → option string;
  png_Decode : string → Image + error
}.

(** [ReadPNG]: the image and the error it returns, and what it prints.  The
    deferred [f.Close()] is the last event of every path on which the file
    was opened. *)
Definition ReadPNG (input : Input) (filename : string) (verbose : bool)
  : option Image * option error * list event :=
  let out := if verbose then [EvPrintf "Reading %s..." [ArgStr filename]]
             else [] in
  match os_Open input filename with
  | Some e => (None, Some (os_error e), out)
  | None =>
      match png_Decode input filename with
      | inr e => (None, Some e, out ++ [EvClose filename])
      | inl img =>
          let out := if verbose then out ++ [EvPrint "ok
"] else out in
          (Some img, None, out ++ [EvClose filename])
      end
  end.

(** [main], after [flag.Parse()]: the exit status and what was printed and
    written.  [pink] and [quantized] are passed on to the covering loop. *)
Definition main (pink : Z * Z * Z) (quantized : Z * Z * Z → Z * Z * Z)
    (fuel : nat) (input : Input) (world : World) (flags : Flags)
    (args : list string) : option (outcome (Z * list event)) :=
  if version flags then
    Some (Ret (0, [EvPrint "png2svg 1.0
"]))
  else
    match args with
    | [] =>
        Some (Ret (1, [EvStderr "An input PNG filename is required.
" []]))
    | inputFilename :: _ =>
        let '(img, err, out) :=
          ReadPNG input inputFilename (verbose_flag flags) in
        match err with
        | Some e =>
            Some (Ret (1, out ++ [EvStderr "error: %s
" [ArgErr e]]))
        | None =>
            match img with
            | None => Some (Panic "nil pointer dereference")
            | Some img =>
                match main_from pink quantized fuel world flags img with
                | None => None
                | Some (Panic msg) => Some (Panic msg)
                | Some (Ret (status, _, out')) =>
                    Some (Ret (status, out ++ out'))
                end
            end
        end
    end.

(** ** Vocabulary of the further properties *)

(** Every entry of the slice before position [i] is a covered pixel. *)
Definition covered_prefix (ps : Pixels) (i : nat) : Prop :=
  ∀ j, (j < i)%nat → ∃ p, ps !! j = Some (Some p) ∧ covered p = true.

(** The colour channels of the image at a coordinate, as [int]s. *)
Definition image_rgb (img : Image) (x y : Z) : Z * Z * Z :=
  let c := NRGBA_At img x y in
  (int_of_uint8 (cR c), int_of_uint8 (cG c), int_of_uint8 (cB c)).

Definition image_alpha (img : Image) (x y : Z) : Z :=
  int_of_uint8 (cA (NRGBA_At img x y)).

(** The page of an image converted pixel by pixel: the envelope of its
    size and, in row-major order, one 1x1 rectangle per pixel of alpha above
    0. *)
Definition image_rects (img : Image) : list Rect :=
  (λ c, mkRect c.1 c.2 1 1 (image_rgb img c.1 c.2)) <$>
    filter (opaque img) (image_cells img).

Definition image_page (img : Image) : Page :=
  emit (NewTinySVGPixels
          (pt_X (Max (Bounds img)) - pt_X (Min (Bounds img)))
          (pt_Y (Max (Bounds img)) - pt_Y (Min (Bounds img))))
       (image_rects img).

(** The events that are prints of progress. *)
Definition is_print (e : event) : bool :=
  match e with
  | EvPrint _ | EvPrintf _ _ => true
  | _ => false
  end.

(** The same grid, not verbose. *)
Definition quiet (pi : PixelImage) : PixelImage :=
  mkPixelImage (pixels pi) (page pi) false (w pi) (h pi).

(** The events that close a file. *)
Definition is_close (e : event) : bool :=
  match e with
  | EvClose _ => true
  | _ => false
  end.

(** ** Vocabulary of the text properties *)

Fixpoint string_forall (P : ascii → bool) (s : string) : bool :=
  match s with
  | "" => true
  | String c s' => P c && string_forall P s'
  end.

(** The line break, as a character and as a one-character string. *)
Definition newline_char : ascii := "010"%char.
Definition newline : string := String newline_char "".
Definition quote_char : ascii := "034"%char.

(** No byte of [s] is [c]. *)
Definition free_of (c : ascii) (s : string) : Prop :=
  string_forall (λ x, negb (bool_decide (x = c))) s = true.

(** A byte that can stand inside a value as [colorFromLine] reads it:
    neither white space nor a quote. *)
Definition token_char (c : ascii) : bool :=
  negb (Ascii.is_space c) && negb (bool_decide (c = quote_char)).

Definition token (s : string) : Prop := string_forall token_char s = true.

(** The text after a value: nothing, or something that starts with white
    space or a quote. *)
Definition token_end (rest : string) : Prop :=
  match rest with
  | "" => True
  | String c _ => token_char c = false
  end.

(** Text of ASCII bytes only, on which [GoStrings.Fields] is Go's
    [strings.Fields]. *)
Definition ascii_text (s : string) : Prop :=
  string_forall (λ c, bool_decide (nat_of_ascii c < 128)%nat) s = true.

(** No field of [pre] begins like a fill attribute. *)
Definition no_fill_field (pre : string) : Prop :=
  Forall (λ field, GoStrings.HasPrefix field "fill=" = false)
         (GoStrings.Fields pre).

(** ** Further sample inputs *)

(** Sample input and flags of a run in single-pixel mode. *)
Definition sample_input : Input :=
  mkInput (λ _, None) (λ _, inl sample_image).

Definition single_pixel_flags : Flags :=
  mkFlags "out.svg" false true true false false.

(** Three columns, three rows, every pixel transparent. *)
Definition transparent_image : Image :=
  mkImage (mkRectangle (mkPoint 0 0) (mkPoint 3 3)) (λ _ _, transparent).

(** ** Vocabulary of the rectangles of an image *)

(** Every cell of the box is an uncovered pixel of the grid. *)
Definition box_uncovered (pi : PixelImage) (box : Box) : Prop :=
  ∀ x y, x1 box ≤ x ≤ x2 box → y1 box ≤ y ≤ y2 box → uncovered pi x y.

(** The cells a rectangle spans. *)
Definition spans (rc : Rect) (x y : Z) : Prop :=
  rect_x rc ≤ x < rect_x rc + rect_w rc ∧
  rect_y rc ≤ y < rect_y rc + rect_h rc.

(** [pi] is the grid of [img], some of its pixels covered since it was
    built. *)
Definition grid_of (img : Image) (pi : PixelImage) : Prop :=
  wf pi ∧
  w pi = pt_X (Max (Bounds img)) - pt_X (Min (Bounds img)) ∧
  h pi = pt_Y (Max (Bounds img)) - pt_Y (Min (Bounds img)) ∧
  grid_step (Some <$> grid_pixels img) (pixels pi).

(** A rectangle over grid cells that are pixels of [img] of alpha above 0. *)
Definition rect_opaque (img : Image) (rc : Rect) : Prop :=
  1 ≤ rect_w rc ∧ 1 ≤ rect_h rc ∧
  ∀ x y, spans rc x y →
    (0 ≤ x < pt_X (Max (Bounds img)) - pt_X (Min (Bounds img)) ∧
     0 ≤ y < pt_Y (Max (Bounds img)) - pt_Y (Min (Bounds img))) ∧
    0 < image_alpha img (pt_X (Min (Bounds img)) + x)
                        (pt_Y (Min (Bounds img)) + y).

(** ** Vocabulary of the lines of a page *)

(** A line without the text of a quoted fill. *)
Definition plain_line (line : string) : Prop :=
  GoStrings.Contains line (" fill=" +:+ quote) = false.

(** A line of ASCII text whose first field beginning with [fill=] is the
    attribute [fill=], quote, [key], quote, for a [key] that is not empty
    and holds neither a quote nor white space; [pre] is the text before the
    attribute with its leading space, [post] the text after it. *)
Definition fill_line (line key pre post : string) : Prop :=
  line = pre +:+ fill_attr key +:+ post ∧
  ascii_text line ∧ no_fill_field pre ∧ token key ∧ key ≠ "".

(** A line as the emitter writes it: without a fill attribute, or with one
    well-formed fill attribute. *)
Definition emitted (line : string) : Prop :=
  plain_line line ∨ ∃ key pre post, fill_line line key pre post.

(** A rectangle whose fill holds a space, and one whose first fill has no
    quote. *)
Definition spaced_line : string :=
  "<rect fill=" +:+ quote +:+ "a b" +:+ quote +:+ " />".

Definition unquoted_line : string :=
  "<rect fill=red fill=" +:+ quote +:+ "blue" +:+ quote +:+ "/>".

(** * Properties *)

(** ** Arithmetic of cell indices *)

Lemma wrap_id z : is_int z → wrap z = z.
Proof.
  unfold is_int, int_min, int_max, wrap. intros Hz.
  rewrite Z.mod_small; lia.
Qed.

Lemma cell_index_int pi x y :
  wf pi → in_grid pi x y →
  0 ≤ y * w pi + x < w pi * h pi ∧ is_int (y * w pi) ∧ is_int (y * w pi + x).
Proof.
  intros [Hw Hh _ Hint _] [Hx Hy]. unfold is_int, int_min, int_max in *.
  assert (y * w pi + x < w pi * h pi) by nia.
  assert (0 ≤ y * w pi) by nia.
  repeat split; try lia; nia.
Qed.

Lemma cell_index pi x y :
  wf pi → in_grid pi x y → add (mul y (w pi)) x = y * w pi + x.
Proof.
  intros Hwf Hin. destruct (cell_index_int pi x y Hwf Hin) as (_ & H1 & H2).
  unfold add, mul. rewrite (wrap_id (y * w pi)) by done. by apply wrap_id.
Qed.

Lemma bind_Ret {A B} (a : A) (k : A → outcome B) : Ret a ≫= k = k a.
Proof. done. Qed.

Lemma pixel_at_is_Some pi x y :
  wf pi → in_grid pi x y → is_Some (pixel_at pi x y).
Proof.
  intros Hwf Hin. destruct (cell_index_int pi x y Hwf Hin) as (Hi & _).
  unfold pixel_at. destruct Hwf as [_ _ Hlen _ Hall].
  destruct (lookup_lt_is_Some_2 (pixels pi) (Z.to_nat (y * w pi + x))) as [o Ho]; [lia|].
  rewrite Ho. simpl. eapply Forall_lookup_1 in Hall; eauto.
Qed.

Lemma read_cell pi x y p :
  wf pi → in_grid pi x y → pixel_at pi x y = Some p →
  index (pixels pi) (add (mul y (w pi)) x) ≫= deref = Ret p.
Proof.
  intros Hwf Hin Hp. rewrite cell_index by done.
  destruct (cell_index_int pi x y Hwf Hin) as (Hi & _).
  unfold index, pixel_at in *.
  destruct (Z.ltb_spec (y * w pi + x) 0); [lia|].
  destruct (pixels pi !! Z.to_nat (y * w pi + x)) as [[q|]|]; simplify_eq/=; done.
Qed.

(** ** Loops with an early return *)

Lemma for_first_seqZ {A} (body : Z → outcome (option A)) (g : Z → option A) n :
  ∀ lo,
  (∀ x, lo ≤ x < lo + Z.of_nat n → body x = Ret (g x)) →
  ∃ r, for_first (seqZ lo (Z.of_nat n)) body = Ret r ∧
       match r with
       | None => ∀ x, lo ≤ x < lo + Z.of_nat n → g x = None
       | Some a => ∃ x, lo ≤ x < lo + Z.of_nat n ∧ g x = Some a ∧
                        ∀ x', lo ≤ x' < x → g x' = None
       end.
Proof.
  induction n as [|n IH]; intros lo Hbody.
  - rewrite seqZ_nil by lia. exists None. split; [done|]. intros; lia.
  - rewrite seqZ_cons by lia. simpl.
    rewrite Hbody by lia. rewrite bind_Ret.
    destruct (g lo) as [a|] eqn:Hlo.
    + exists (Some a). split; [done|]. exists lo. repeat split; [lia..|done|intros; lia].
    + replace (Z.pred (Z.of_nat (S n))) with (Z.of_nat n) by lia.
      destruct (IH (Z.succ lo)) as (r & Hr & Hspec).
      { intros x Hx. apply Hbody. lia. }
      exists r. split; [done|]. destruct r as [a|].
      * destruct Hspec as (x & Hx & Hgx & Hbefore). exists x.
        repeat split; [lia..|done|].
        intros x' Hx'. destruct (decide (x' = lo)) as [->|]; [done|].
        apply Hbefore. lia.
      * intros x Hx. destruct (decide (x = lo)) as [->|]; [done|].
        apply Hspec. lia.
Qed.

Lemma for_first_zrange {A} (body : Z → outcome (option A)) (g : Z → option A) hi :
  0 ≤ hi →
  (∀ x, 0 ≤ x < hi → body x = Ret (g x)) →
  ∃ r, for_first (zrange 0 hi) body = Ret r ∧
       match r with
       | None => ∀ x, 0 ≤ x < hi → g x = None
       | Some a => ∃ x, 0 ≤ x < hi ∧ g x = Some a ∧ ∀ x', 0 ≤ x' < x → g x' = None
       end.
Proof.
  intros Hhi Hbody. unfold zrange.
  destruct (for_first_seqZ body g (Z.to_nat hi) 0) as (r & Hr & Hspec).
  { intros x Hx. apply Hbody. lia. }
  rewrite Z2Nat.id in Hr by lia. rewrite Z.sub_0_r.
  exists r. split; [done|]. destruct r as [a|].
  - destruct Hspec as (x & Hx & ?). exists x. split; [lia|done].
  - intros x Hx. apply Hspec. lia.
Qed.

(** ** [FirstUncovered] *)

Lemma seen_Some pi x y xy :
  in_grid pi x y → seen pi y x = Some xy ↔ xy = (x, y) ∧ uncovered pi x y.
Proof.
  intros Hin. unfold seen, uncovered. split.
  - destruct (pixel_at pi x y) as [p|]; [|done].
    destruct (covered p) eqn:Hc; [done|]. intros [= <-]. eauto.
  - intros [-> [_ (p & -> & ->)]]. done.
Qed.

Lemma seen_None pi x y :
  in_grid pi x y → seen pi y x = None ↔ ¬ uncovered pi x y.
Proof.
  intros Hin. split.
  - intros Hs Hu. assert (seen pi y x = Some (x, y)) by (by apply seen_Some).
    congruence.
  - intros Hu. destruct (seen pi y x) as [xy|] eqn:Hs; [|done].
    apply seen_Some in Hs as [_ ?]; done.
Qed.

Lemma FirstUncovered_body pi x y :
  wf pi → in_grid pi x y →
  (p ← index (pixels pi) (add (mul y (w pi)) x) ≫= deref;
   if negb (covered p) then Ret (Some (x, y)) else Ret None) = Ret (seen pi y x).
Proof.
  intros Hwf Hin. destruct (pixel_at_is_Some pi x y Hwf Hin) as [p Hp].
  rewrite (read_cell pi x y p) by done. rewrite bind_Ret.
  unfold seen. rewrite Hp. by destruct (covered p).
Qed.

(** The scan of one row: its first uncovered pixel, if it has one. *)
Lemma FirstUncovered_row pi y :
  wf pi → 0 ≤ y < h pi →
  ∃ r, for_first (zrange 0 (w pi)) (λ x,
         p ← index (pixels pi) (add (mul y (w pi)) x) ≫= deref;
         if negb (covered p) then Ret (Some (x, y)) else Ret None) = Ret r ∧
       match r with
       | None => ∀ x, 0 ≤ x < w pi → ¬ uncovered pi x y
       | Some xy => ∃ x, xy = (x, y) ∧ uncovered pi x y ∧
                         ∀ x', 0 ≤ x' < x → ¬ uncovered pi x' y
       end.
Proof.
  intros Hwf Hy.
  destruct (for_first_zrange
              (λ x, p ← index (pixels pi) (add (mul y (w pi)) x) ≫= deref;
                    if negb (covered p) then Ret (Some (x, y)) else Ret None)
              (seen pi y) (w pi)) as (r & Hr & Hspec).
  { apply Hwf. }
  { intros x Hx. by apply FirstUncovered_body. }
  exists r. split; [done|]. destruct r as [xy|].
  - destruct Hspec as (x & Hx & Hs & Hbefore).
    apply seen_Some in Hs as [-> Hu]; [|done]. exists x. repeat split; try apply Hu.
    intros x' Hx'. apply seen_None; [split; lia|]. by apply Hbefore.
  - intros x Hx. apply seen_None; [done|]. by apply Hspec.
Qed.

(** The whole scan: either the row-major-first uncovered pixel, or the panic
    of the exhausted scan when no pixel is uncovered. *)
Lemma FirstUncovered_spec pi :
  wf pi →
  (∃ x y, FirstUncovered pi = Ret (x, y) ∧ row_major_first pi x y) ∨
  (FirstUncovered pi = Panic "All pixels are covered" ∧
   ∀ x y, ¬ uncovered pi x y).
Proof.
  intros Hwf. unfold FirstUncovered.
  set (row := λ y, for_first (zrange 0 (w pi)) (λ x,
         p ← index (pixels pi) (add (mul y (w pi)) x) ≫= deref;
         if negb (covered p) then Ret (Some (x, y)) else Ret None)).
  set (g := λ y, match row y with Ret r => r | Panic _ => None end).
  destruct (for_first_zrange row g (h pi)) as (r & Hr & Hspec).
  { apply Hwf. }
  { intros y Hy. destruct (FirstUncovered_row pi y Hwf Hy) as (r & Hr & _).
    unfold g. fold (row y) in Hr. by rewrite Hr. }
  rewrite Hr, bind_Ret. destruct r as [[x y]|].
  - left. exists x, y. split; [done|].
    destruct Hspec as (y0 & Hy0 & Hg & Hbefore).
    destruct (FirstUncovered_row pi y0 Hwf Hy0) as (r & Hrow & Hr0).
    fold (row y0) in Hrow. unfold g in Hg. rewrite Hrow in Hg. subst r.
    destruct Hr0 as (x0 & [= -> ->] & Hu & Hleft). split; [done|].
    intros x' y' Hu'. destruct (Z.lt_trichotomy y0 y') as [?|[<-|Hlt]]; [lia| |].
    + right. split; [done|]. destruct (Z.le_gt_cases x0 x'); [done|].
      destruct (Hleft x'); [|done]. destruct Hu' as [[? ?] _]. lia.
    + exfalso. assert (Hy' : 0 ≤ y' < y0) by (destruct Hu' as [[? ?] _]; lia).
      specialize (Hbefore y' Hy'). unfold g in Hbefore.
      destruct (FirstUncovered_row pi y') as (r & Hrow' & Hr');
        [done|destruct Hu' as [[? ?] _]; lia|].
      fold (row y') in Hrow'. rewrite Hrow' in Hbefore. subst r.
      destruct (Hr' x'); [|done]. by destruct Hu' as [[? ?] _].
  - right. split; [done|]. intros x y Hu.
    assert (Hy : 0 ≤ y < h pi) by (by destruct Hu as [[? ?] _]).
    specialize (Hspec y Hy). unfold g in Hspec.
    destruct (FirstUncovered_row pi y Hwf Hy) as (r & Hrow & Hr0).
    fold (row y) in Hrow. rewrite Hrow in Hspec. subst r.
    destruct (Hr0 x); [|done]. by destruct Hu as [[? ?] _].
Qed.
(** ** [Done] *)

Lemma uncovered_pixels_cons_Some p ps :
  uncovered_pixels (Some p :: ps) =
  if covered p then uncovered_pixels ps else p :: uncovered_pixels ps.
Proof.
  unfold uncovered_pixels. simpl. rewrite filter_cons.
  destruct (covered p); by case_decide.
Qed.

Lemma Done_loop_spec ps :
  allocated ps → Done_loop ps = Ret (bool_decide (uncovered_pixels ps = [])).
Proof.
  induction 1 as [|o ps [p ->] _ IH]; [done|].
  simpl. rewrite uncovered_pixels_cons_Some.
  destruct (covered p); simpl; [|done]. by rewrite IH.
Qed.

Lemma Done_spec pi :
  wf pi → Done pi = Ret (bool_decide (count_uncovered pi = 0%nat)).
Proof.
  intros Hwf. unfold Done, count_uncovered.
  rewrite Done_loop_spec by apply Hwf.
  f_equal. apply bool_decide_ext. split.
  - by intros ->.
  - apply length_zero_iff_nil.
Qed.

Lemma elem_of_uncovered_pixels p ps :
  p ∈ uncovered_pixels ps ↔ Some p ∈ ps ∧ covered p = false.
Proof.
  unfold uncovered_pixels. rewrite list_elem_of_filter, list_elem_of_omap.
  split.
  - intros (? & o & ? & ?). simplify_eq/=. done.
  - intros [? ?]. split; [done|]. by exists (Some p).
Qed.

(** A position of the slice is a cell of the grid. *)
Lemma cell_of_position pi i o :
  wf pi → pixels pi !! i = Some o →
  ∃ x y, in_grid pi x y ∧ Z.to_nat (y * w pi + x) = i.
Proof.
  intros [Hw Hh Hlen _ _] Hi. apply lookup_lt_Some in Hi.
  assert (0 < w pi) by nia.
  exists (Z.of_nat i `mod` w pi), (Z.of_nat i `div` w pi).
  pose proof (Z.mod_pos_bound (Z.of_nat i) (w pi) ltac:(done)).
  pose proof (Z.div_mod (Z.of_nat i) (w pi) ltac:(lia)).
  repeat split; try lia.
  - apply Z.div_pos; lia.
  - apply Z.div_lt_upper_bound; lia.
Qed.

Lemma uncovered_exists pi :
  wf pi → (∃ x y, uncovered pi x y) ↔ count_uncovered pi ≠ 0%nat.
Proof.
  intros Hwf. unfold count_uncovered. split.
  - intros (x & y & Hin & p & Hp & Hc) Hlen.
    apply length_zero_iff_nil in Hlen.
    assert (p ∈ uncovered_pixels (pixels pi)) as Hel; [|by rewrite Hlen in Hel; inversion Hel].
    apply elem_of_uncovered_pixels. split; [|done].
    unfold pixel_at in Hp.
    destruct (pixels pi !! Z.to_nat (y * w pi + x)) as [[q|]|] eqn:Hl; simplify_eq/=.
    by eapply list_elem_of_lookup_2.
  - intros Hne. destruct (uncovered_pixels (pixels pi)) as [|p l] eqn:Hl; [done|].
    assert (p ∈ uncovered_pixels (pixels pi)) as Hel by (rewrite Hl; left).
    apply elem_of_uncovered_pixels in Hel as [Hel Hc].
    apply list_elem_of_lookup_1 in Hel as [i Hi].
    destruct (cell_of_position pi i _ Hwf Hi) as (x & y & Hin & Hxy).
    exists x, y. split; [done|]. exists p. split; [|done].
    unfold pixel_at. by rewrite Hxy, Hi.
Qed.

Lemma Done_false pi :
  wf pi → Done pi = Ret false ↔ ∃ x y, uncovered pi x y.
Proof.
  intros Hwf. rewrite Done_spec, uncovered_exists by done.
  case_bool_decide; naive_solver.
Qed.

(** ** The sample grid *)

Lemma sample_grid_wf : wf sample_grid.
Proof.
  split; simpl; [lia|lia|lia|unfold int_max; lia|].
  unfold allocated. repeat constructor; eauto.
Qed.

(** ** Steps of the grid *)

Lemma cover_covered p : covered p = true → cover p = p.
Proof. destruct p. simpl. by intros ->. Qed.

Lemma grid_step_refl ps : grid_step ps ps.
Proof. apply Forall_Forall2_diag, Forall_forall. intros; constructor. Qed.

Lemma pixel_step_trans o1 o2 o3 :
  pixel_step o1 o2 → pixel_step o2 o3 → pixel_step o1 o3.
Proof.
  intros H12 H23. destruct H12 as [o|p Hp]; [done|].
  inversion H23; subst; [by constructor|done].
Qed.

Lemma grid_step_trans ps1 ps2 ps3 :
  grid_step ps1 ps2 → grid_step ps2 ps3 → grid_step ps1 ps3.
Proof.
  unfold grid_step. intros H12. revert ps3.
  induction H12 as [|o1 o2 ps1 ps2 Ho _ IH]; intros ps3 H23.
  - by inversion H23.
  - inversion H23; subst. constructor; [by eapply pixel_step_trans|by apply IH].
Qed.

Lemma grid_step_allocated ps ps' :
  grid_step ps ps' → allocated ps → allocated ps'.
Proof.
  unfold allocated. induction 1 as [|o o' ps ps' Ho _ IH]; [done|].
  intros Hall. apply Forall_cons in Hall as [Ho' Hall].
  constructor; [|by apply IH]. by destruct Ho.
Qed.

(** Seen from one pixel: every field but [covered] is kept, and [covered]
    never goes back to false. *)
Lemma pixel_step_fields o o' :
  pixel_step o o' →
  match o, o' with
  | Some p, Some p' =>
      px p' = px p ∧ py p' = py p ∧ pr p' = pr p ∧ pg p' = pg p ∧
      pb p' = pb p ∧ pa p' = pa p ∧ (covered p = true → covered p' = true)
  | None, None => True
  | _, _ => False
  end.
Proof. intros [[p|]|p Hp]; simpl; done. Qed.

Lemma uncovered_pixels_step ps ps' :
  grid_step ps ps' →
  (length (uncovered_pixels ps') ≤ length (uncovered_pixels ps))%nat.
Proof.
  induction 1 as [|o o' ps ps' Ho _ IH]; [done|].
  destruct Ho as [[p|]|p Hp].
  - rewrite !uncovered_pixels_cons_Some. destruct (covered p); simpl; lia.
  - done.
  - rewrite !uncovered_pixels_cons_Some. rewrite Hp. simpl. lia.
Qed.

Lemma uncovered_pixels_step_lt ps ps' i p p' :
  grid_step ps ps' →
  ps !! i = Some (Some p) → covered p = false →
  ps' !! i = Some (Some p') → covered p' = true →
  (length (uncovered_pixels ps') < length (uncovered_pixels ps))%nat.
Proof.
  intros Hstep. revert i.
  induction Hstep as [|o o' ps ps' Ho Hrest IH]; intros i Hi Hp Hi' Hp'; [done|].
  pose proof (uncovered_pixels_step _ _ Hrest).
  destruct i as [|i]; simplify_eq/=.
  - rewrite !uncovered_pixels_cons_Some, Hp, Hp'. simpl. lia.
  - specialize (IH i Hi Hp Hi' Hp').
    destruct Ho as [[q|]|q Hq]; rewrite ?uncovered_pixels_cons_Some, ?Hq;
      try destruct (covered q); simpl; try done; lia.
Qed.

(** ** [CoverAllPixels] *)

Lemma emit_nil svgTag : emit svgTag [] = svgTag.
Proof. destruct svgTag. unfold emit. simpl. by rewrite app_nil_r. Qed.

Lemma CoverAllPixels_loop_spec (ps : Pixels) :
  allocated ps → ∀ svgTag n,
  ∃ n', CoverAllPixels_loop ps svgTag n =
        Ret (cover_all ps, emit svgTag (rect_of <$> uncovered_pixels ps), n').
Proof.
  induction 1 as [|o ps [p ->] _ IH]; intros svgTag n.
  - exists n. simpl. by rewrite emit_nil.
  - simpl. rewrite uncovered_pixels_cons_Some.
    destruct (covered p) eqn:Hc; simpl.
    + destruct (IH svgTag n) as [n' ->]. exists n'. simpl.
      by rewrite cover_covered.
    + destruct (IH (Tag_Pixel svgTag (px p) (py p) (pr p) (pg p) (pb p))
                   (add n 1)) as [n' ->].
      exists n'. simpl. do 3 f_equal.
      unfold emit, Tag_Pixel, AddRect, rect_of. simpl. by rewrite <- app_assoc.
Qed.

Lemma fmap_cover_step (ps : Pixels) : grid_step ps (cover_all ps).
Proof.
  unfold grid_step, cover_all. apply Forall2_fmap_r, Forall_Forall2_diag, Forall_forall.
  intros [p|] _; simpl; [|constructor].
  destruct (covered p) eqn:Hc; [rewrite cover_covered by done|]; by constructor.
Qed.

Lemma uncovered_pixels_fmap_cover (ps : Pixels) : uncovered_pixels (cover_all ps) = [].
Proof.
  induction ps as [|[p|] ps IH]; simpl; [done| |done].
  by rewrite uncovered_pixels_cons_Some.
Qed.
(** ** [NewPixelImage] *)

Lemma store_next {A} (pre : list A) (v d : A) (rest : list A) i :
  i = Z.of_nat (length pre) →
  store (pre ++ d :: rest) i v = Ret ((pre ++ [v]) ++ rest).
Proof.
  intros ->. unfold store. rewrite length_app. simpl.
  destruct (Z.ltb_spec (Z.of_nat (length pre)) 0); [lia|].
  destruct (Z.leb_spec (Z.of_nat (length pre + S (length rest))) (Z.of_nat (length pre)));
    [lia|].
  simpl. rewrite Nat2Z.id. f_equal.
  rewrite insert_app_r_alt, Nat.sub_diag by done. simpl. by rewrite <- app_assoc.
Qed.

Lemma NewPixelImage_row_spec img y xs :
  ∀ (pre : Pixels) m i,
  i = Z.of_nat (length pre) →
  (length xs ≤ m)%nat →
  i + Z.of_nat (length xs) ≤ int_max →
  NewPixelImage_row img y xs (pre ++ replicate m None) i =
  Ret (pre ++ (Some <$> ((λ x, NewPixel img x y) <$> xs))
           ++ replicate (m - length xs) None,
       i + Z.of_nat (length xs)).
Proof.
  induction xs as [|x xs IH]; intros pre m i Hi Hm Hmax; simpl in *.
  - by rewrite Nat.sub_0_r, Z.add_0_r.
  - destruct m as [|m]; [lia|]. simpl.
    rewrite store_next by done. rewrite bind_Ret.
    assert (add i 1 = i + 1) as ->.
    { apply wrap_id. unfold is_int, int_min, int_max in *. lia. }
    rewrite IH; [|rewrite length_app; simpl; lia|lia|lia].
    rewrite <- app_assoc. simpl. do 2 f_equal. lia.
Qed.

Lemma NewPixelImage_rows_spec img v ys :
  ∀ (pre : Pixels) m i out,
  i = Z.of_nat (length pre) →
  (length ys * length (image_xs img) ≤ m)%nat →
  i + Z.of_nat (length ys * length (image_xs img)) ≤ int_max →
  ∃ out',
  NewPixelImage_rows img v ys (pre ++ replicate m None) i out =
  Ret (pre ++ (Some <$> (y ← ys; (λ x, NewPixel img x y) <$> image_xs img))
           ++ replicate (m - length ys * length (image_xs img)) None,
       i + Z.of_nat (length ys * length (image_xs img)), out').
Proof.
  induction ys as [|y ys IH]; intros pre m i out Hi Hm Hmax; simpl in *.
  - exists out. by rewrite Nat.sub_0_r, Z.add_0_r.
  - fold (image_xs img). fold (image_xs img) in Hm, Hmax.
    rewrite (NewPixelImage_row_spec img y (image_xs img) pre m i) by lia.
    rewrite bind_Ret. simpl. rewrite app_assoc.
    set (pre' := pre ++ (Some <$> ((λ x, NewPixel img x y) <$> image_xs img))).
    assert (Hlen' : i + Z.of_nat (length (image_xs img)) = Z.of_nat (length pre')).
    { unfold pre'. rewrite length_app, !length_fmap. lia. }
    destruct (IH pre' (m - length (image_xs img))%nat
                (i + Z.of_nat (length (image_xs img)))
                (if v then out ++ [EvPrint "."] else out)) as [out' Hrows];
      [done|lia|lia|].
    rewrite Hrows. exists out'.
    unfold pre'. rewrite fmap_app, <- !app_assoc.
    repeat (f_equal; try lia).
Qed.

Lemma length_zrange lo hi : length (zrange lo hi) = Z.to_nat (hi - lo).
Proof. apply length_seqZ. Qed.

Lemma length_image_cells img :
  length (image_cells img) =
  (Z.to_nat (pt_Y (Max (Bounds img)) - pt_Y (Min (Bounds img))) *
   Z.to_nat (pt_X (Max (Bounds img)) - pt_X (Min (Bounds img))))%nat.
Proof.
  unfold image_cells. rewrite <- !length_zrange. fold (image_xs img).
  generalize (zrange (pt_Y (Min (Bounds img))) (pt_Y (Max (Bounds img)))).
  intros ys. induction ys as [|y ys IH]; [done|].
  rewrite bind_cons, length_app, length_fmap, IH. done.
Qed.

Lemma grid_pixels_rows img :
  grid_pixels img =
  (y ← zrange (pt_Y (Min (Bounds img))) (pt_Y (Max (Bounds img)));
   (λ x, NewPixel img x y) <$> image_xs img).
Proof.
  unfold grid_pixels, image_cells. fold (image_xs img).
  generalize (zrange (pt_Y (Min (Bounds img))) (pt_Y (Max (Bounds img)))).
  intros ys. induction ys as [|y ys IH]; [done|].
  rewrite !bind_cons, fmap_app, IH. f_equal. rewrite <- list_fmap_compose. done.
Qed.

(** On a decoded image the grid is built without a panic: one pixel per
    coordinate, row by row, on a page of the size of the image. *)
Lemma NewPixelImage_spec img v :
  img_ok img →
  let width := pt_X (Max (Bounds img)) - pt_X (Min (Bounds img)) in
  let height := pt_Y (Max (Bounds img)) - pt_Y (Min (Bounds img)) in
  ∃ out, NewPixelImage img v =
         Ret (mkPixelImage (Some <$> grid_pixels img)
                (NewTinySVGPixels width height) v width height, out).
Proof.
  intros [HX HY Hw Hh Harea] width height. unfold NewPixelImage.
  assert (sub (pt_X (Max (Bounds img))) (pt_X (Min (Bounds img))) = width) as ->.
  { apply wrap_id. unfold is_int, int_min, int_max in *. lia. }
  assert (sub (pt_Y (Max (Bounds img))) (pt_Y (Min (Bounds img))) = height) as ->.
  { apply wrap_id. unfold is_int, int_min, int_max in *. lia. }
  assert (0 ≤ width * height) by (subst width height; nia).
  assert (mul width height = width * height) as ->.
  { apply wrap_id. unfold is_int, int_min, int_max in *. fold width height in Harea. lia. }
  unfold make_Pixels. destruct (Z.ltb_spec (width * height) 0); [lia|].
  rewrite bind_Ret.
  set (ys := zrange (pt_Y (Min (Bounds img))) (pt_Y (Max (Bounds img)))).
  assert (Hcells : (length ys * length (image_xs img))%nat
                   = Z.to_nat (width * height)).
  { unfold ys, image_xs. rewrite !length_zrange. fold width height.
    rewrite Z2Nat.inj_mul by lia. lia. }
  destruct (NewPixelImage_rows_spec img v ys [] (Z.to_nat (width * height)) 0
              (if v then [EvPrint "Converting image.Image to Pixels"] else []))
    as [out Hrows]; [done|lia|fold width height in Harea; lia|].
  simpl in Hrows. rewrite Hrows, bind_Ret. simpl.
  rewrite Hcells, Nat.sub_diag, app_nil_r. simpl.
  rewrite grid_pixels_rows. fold ys. eauto.
Qed.

Lemma NewPixelImage_wf img v pi out :
  img_ok img → NewPixelImage img v = Ret (pi, out) → wf pi.
Proof.
  intros Hok Hnew. destruct (NewPixelImage_spec img v Hok) as [out' Hspec].
  rewrite Hspec in Hnew. injection Hnew as <- _.
  destruct Hok as [HX HY Hw Hh Harea].
  split; simpl; try lia.
  - rewrite length_fmap. unfold grid_pixels. rewrite length_fmap, length_image_cells.
    rewrite Nat2Z.inj_mul, !Z2Nat.id by lia. lia.
  - unfold allocated. apply Forall_fmap, Forall_forall. intros; simpl; eauto.
Qed.

(** On a fresh grid the uncovered pixels are the opaque ones. *)
Lemma NewPixel_covered img x y :
  covered (NewPixel img x y) = false ↔ opaque img (x, y).
Proof.
  unfold NewPixel, opaque, int_of_uint8. simpl.
  destruct (Z.eqb_spec (Z.of_N (to_N (cA (NRGBA_At img x y)))) 0); split; lia || done.
Qed.

Lemma uncovered_grid_pixels img :
  uncovered_pixels (Some <$> grid_pixels img) =
  (λ c, NewPixel img c.1 c.2) <$> filter (opaque img) (image_cells img).
Proof.
  unfold grid_pixels. generalize (image_cells img) as cells.
  induction cells as [|[x y] cells IH]; [done|].
  rewrite !fmap_cons, uncovered_pixels_cons_Some, filter_cons, IH.
  change (NewPixel img (x, y).1 (x, y).2) with (NewPixel img x y).
  pose proof (NewPixel_covered img x y) as Hiff.
  destruct (covered (NewPixel img x y));
    destruct (decide (opaque img (x, y))) as [Ho|Ho]; try done.
  - apply Hiff in Ho. done.
  - exfalso. apply Ho, Hiff. done.
Qed.
(** ** [CoverAllPixels], as a whole *)

Lemma CoverAllPixels_spec pi :
  allocated (pixels pi) →
  ∃ out, CoverAllPixels pi =
         Ret (mkPixelImage (cover_all (pixels pi))
                (emit (page pi) (rect_of <$> uncovered_pixels (pixels pi)))
                (verbose pi) (w pi) (h pi), out).
Proof.
  intros Hall. unfold CoverAllPixels.
  destruct (CoverAllPixels_loop_spec (pixels pi) Hall (page pi) 0) as [n ->].
  rewrite bind_Ret. eauto.
Qed.

Lemma cover_all_allocated (ps : Pixels) : allocated ps → allocated (cover_all ps).
Proof. apply grid_step_allocated, fmap_cover_step. Qed.

Lemma elem_of_cover_all p (ps : Pixels) : Some p ∈ cover_all ps → covered p = true.
Proof.
  unfold cover_all. rewrite list_elem_of_fmap. intros ([q|] & Hq & _); by simplify_eq/=.
Qed.

Lemma CoverAllPixels_loop_allocated (ps : Pixels) :
  ∀ svgTag n, returns (CoverAllPixels_loop ps svgTag n) → allocated ps.
Proof.
  induction ps as [|[p|] ps IH]; intros svgTag n [r Hr];
    [constructor| |done].
  constructor; [eauto|]. simpl in Hr.
  destruct (covered p); simpl in Hr.
  - destruct (CoverAllPixels_loop ps svgTag n) as [r'|] eqn:Hl; [|done].
    eapply IH. by eexists.
  - destruct (CoverAllPixels_loop ps _ (add n 1)) as [r'|] eqn:Hl; [|done].
    eapply IH. by eexists.
Qed.

Lemma perform_step world o pi pi' :
  perform world o pi = Ret pi' → grid_step (pixels pi) (pixels pi').
Proof.
  destruct o; simpl.
  - destruct (Done pi); [|done]. intros [= <-]. apply grid_step_refl.
  - destruct (At pi x y); [|done]. intros [= <-]. apply grid_step_refl.
  - destruct (Covered pi x y); [|done]. intros [= <-]. apply grid_step_refl.
  - destruct (FirstUncovered pi); [|done]. intros [= <-]. apply grid_step_refl.
  - destruct (CoverAllPixels pi) as [[pi1 out]|] eqn:Hcover; [|done].
    simpl. intros [= <-].
    assert (allocated (pixels pi)) as Hall.
    { apply (CoverAllPixels_loop_allocated _ (page pi) 0).
      unfold CoverAllPixels in Hcover.
      destruct (CoverAllPixels_loop (pixels pi) (page pi) 0); [by eexists|done]. }
    destruct (CoverAllPixels_spec pi Hall) as [out' Hspec].
    rewrite Hspec in Hcover. injection Hcover as <- _. apply fmap_cover_step.
  - destruct (PixelImage_String world pi); [|done]. intros [= <-]. apply grid_step_refl.
  - destruct (WriteSVG world pi filename); [|done]. intros [= <-]. apply grid_step_refl.
Qed.

Lemma perform_all_step world ops :
  ∀ pi pi', perform_all world ops pi = Ret pi' → grid_step (pixels pi) (pixels pi').
Proof.
  induction ops as [|o ops IH]; intros pi pi'; simpl.
  - intros [= <-]. apply grid_step_refl.
  - destruct (perform world o pi) as [pi1|] eqn:Ho; [|done]. simpl. intros Hrest.
    eapply grid_step_trans; [by eapply perform_step|by apply IH].
Qed.
(** ** Single-pixel mode of the command *)

Lemma main_from_single_pixel pink quantized fuel world flags img pi out0 r :
  singlePixelRectangles flags = true → colorPink flags = false →
  NewPixelImage img (verbose_flag flags) = Ret (pi, out0) →
  main_from pink quantized (S fuel) world flags img = Some (Ret r) →
  ∃ out', CoverAllPixels pi = Ret (r.1.2, out').
Proof.
  intros Hsingle Hpink Hnew. unfold main_from.
  rewrite Hpink, Hnew. simpl. rewrite Hsingle.
  destruct (CoverAllPixels pi) as [[pi' out']|]; [|done]. simpl.
  destruct (WriteSVG world pi' (outputFilename flags)) as [[[e|] out'']|]; simpl;
    intros [= <-]; eauto.
Qed.

Lemma sample_image_ok : img_ok sample_image.
Proof. split; simpl; unfold int_max; lia. Qed.

(** ** Byte strings *)

Lemma string_app_nil_l (b : string) : "" +:+ b = b.
Proof. done. Qed.

Lemma string_app_cons x (a b : string) : String x a +:+ b = String x (a +:+ b).
Proof. done. Qed.

Lemma string_app_assoc (a b c : string) : (a +:+ b) +:+ c = a +:+ (b +:+ c).
Proof.
  induction a as [|x a IH]; [done|]. by rewrite !string_app_cons, IH.
Qed.

Lemma string_app_nil_r (a : string) : a +:+ "" = a.
Proof. induction a as [|x a IH]; [done|]. by rewrite string_app_cons, IH. Qed.

Lemma string_app_length (a b : string) :
  String.length (a +:+ b) = (String.length a + String.length b)%nat.
Proof.
  induction a as [|x a IH]; [done|]. rewrite string_app_cons. simpl. by rewrite IH.
Qed.

Lemma prefix_app (a b : string) : String.prefix a (a +:+ b) = true.
Proof.
  induction a as [|x a IH]; [by destruct b|].
  rewrite string_app_cons. simpl. destruct (ascii_dec x x); [done|congruence].
Qed.

Lemma prefix_inv (a s : string) :
  String.prefix a s = true → ∃ b, s = a +:+ b.
Proof.
  revert s. induction a as [|x a IH]; intros s Hp.
  - by exists s.
  - destruct s as [|y s]; [done|]. simpl in Hp.
    destruct (ascii_dec x y) as [->|]; [|done].
    destruct (IH s Hp) as [b ->]. by exists b.
Qed.

(** ** [strings.Replace] *)

Lemma Replace_from_none s old new : GoStrings.Replace_from 0 s old new 0 = s.
Proof. induction s as [|c s IH]; simpl; [done|]. by rewrite IH. Qed.

Lemma Replace_from_skip a s old new n :
  GoStrings.Replace_from (String.length a) (a +:+ s) old new n =
  GoStrings.Replace_from 0 s old new n.
Proof.
  induction a as [|c a IH]; [by destruct s|]. rewrite string_app_cons. done.
Qed.

(** Replacing once replaces the first instance. *)
Lemma Replace_first pre old new post :
  old ≠ "" → first_instance pre old post →
  GoStrings.Replace (pre +:+ old +:+ post) old new 1 = pre +:+ new +:+ post.
Proof.
  intros Hold Hfirst. unfold GoStrings.Replace.
  destruct old as [|c old]; [done|]. clear Hold.
  induction pre as [|x pre IH].
  - rewrite !string_app_nil_l, string_app_cons. cbn [GoStrings.Replace_from].
    rewrite <- string_app_cons, prefix_app. simpl.
    rewrite Nat.sub_0_r.
    by rewrite Replace_from_skip, Replace_from_none.
  - rewrite !(string_app_cons x). cbn [GoStrings.Replace_from].
    destruct (String.prefix (String c old)
                (String x (pre +:+ String c old +:+ post))) eqn:Hp.
    { apply prefix_inv in Hp as [b Hb].
      specialize (Hfirst "" b). rewrite !(string_app_cons x) in Hfirst.
      specialize (Hfirst Hb). simpl in Hfirst. lia. }
    simpl. f_equal. apply IH.
    intros a b Hab. specialize (Hfirst (String x a) b).
    rewrite !(string_app_cons x), Hab in Hfirst.
    specialize (Hfirst eq_refl). simpl in Hfirst. lia.
Qed.

(** ** The colour groups *)

Lemma groupLines_collect_spec lines :
  Forall (λ line, returns (colorFromLine line)) lines →
  ∀ m0, ∃ m,
    groupLines_collect lines m0 = Ret (erase <$> lines, m) ∧
    ∀ key, m !! key =
           match members (filter filled lines) key with
           | [] => m0 !! key
           | group => Some (default [] (m0 !! key) ++ group)
           end.
Proof.
  induction 1 as [|line lines [c Hc] _ IH]; intros m0.
  - exists m0. split; [done|]. intros key. done.
  - simpl. rewrite Hc, bind_Ret.
    assert (fill_of line = c) as Hfill by (unfold fill_of; by rewrite Hc).
    unfold erase at 1. rewrite Hfill.
    destruct (decide (c = "")) as [->|Hne].
    + destruct (IH m0) as (m & -> & Hm). exists m. split; [done|].
      intros key. rewrite Hm. unfold filled.
      rewrite filter_cons_False; [done|]. rewrite Hfill. by intros ?.
    + destruct (IH (<[c := default [] (m0 !! c) ++ [line]]> m0)) as (m & -> & Hm).
      exists m. split; [done|]. intros key. rewrite Hm.
      rewrite (filter_cons_True filled); [|unfold filled; by rewrite Hfill].
      unfold members at 2. rewrite filter_cons. fold (members (filter filled lines) key).
      destruct (decide (key = c)) as [->|Hkey].
      * rewrite decide_True by done. rewrite lookup_insert_eq. simpl.
        destruct (members (filter filled lines) c); [done|].
        by rewrite <- app_assoc.
      * rewrite decide_False by congruence. by rewrite lookup_insert_ne.
Qed.

Lemma members_filled lines key :
  key ≠ "" → members (filter filled lines) key = members lines key.
Proof.
  intros Hkey. unfold members.
  induction lines as [|line lines IH]; [done|].
  rewrite (filter_cons filled). destruct (decide (filled line)) as [Hf|Hf].
  - rewrite !filter_cons, IH. done.
  - rewrite (filter_cons_False _ line lines); [done|].
    intros Heq. apply Hf. unfold filled. congruence.
Qed.

Lemma members_empty_key lines : members (filter filled lines) "" = [].
Proof.
  unfold members. induction lines as [|line lines IH]; [done|].
  rewrite (filter_cons filled). destruct (decide (filled line)) as [Hf|Hf]; [|done].
  by rewrite filter_cons_False.
Qed.

Lemma elem_of_fill_colors lines key :
  key ∈ fill_colors lines ↔ key ≠ "" ∧ members lines key ≠ [].
Proof.
  unfold fill_colors, members.
  rewrite elem_of_remove_dups, list_elem_of_filter, list_elem_of_fmap. split.
  - intros (Hne & line & -> & Hin). split; [done|].
    intros Hnil. assert (line ∈ filter (λ l, fill_of l = fill_of line) lines) as Hl.
    { by apply list_elem_of_filter. }
    rewrite Hnil in Hl. by apply elem_of_nil in Hl.
  - intros [Hne Hmem]. split; [done|].
    destruct (filter (λ line, fill_of line = key) lines) as [|line l] eqn:Hf; [done|].
    assert (line ∈ filter (λ line, fill_of line = key) lines) as Hl
      by (rewrite Hf; left).
    apply list_elem_of_filter in Hl as [<- Hl]. by exists line.
Qed.

(** After the first loop the map holds, for each fill colour of the
    document, the lines of that colour in document order. *)
Lemma groupLines_collect_groups lines :
  Forall (λ line, returns (colorFromLine line)) lines →
  ∃ m, groupLines_collect lines ∅ = Ret (erase <$> lines, m) ∧
       map_keys m ≡ₚ fill_colors lines ∧
       ∀ key, key ∈ map_keys m → m !! key = Some (members lines key).
Proof.
  intros Hret. destruct (groupLines_collect_spec lines Hret ∅) as (m & Hm & Hlook).
  exists m. split; [done|].
  assert (Hkeys : ∀ key, key ∈ map_keys m ↔ key ≠ "" ∧ members lines key ≠ []).
  { intros key. unfold map_keys. rewrite list_elem_of_fmap. split.
    - intros ([k group] & -> & Hin). apply elem_of_map_to_list in Hin.
      rewrite Hlook in Hin. simpl.
      destruct (decide (k = "")) as [->|Hk].
      { by rewrite members_empty_key, lookup_empty in Hin. }
      rewrite members_filled in Hin by done. split; [done|].
      intros Hnil. by rewrite Hnil, lookup_empty in Hin.
    - intros [Hne Hmem]. exists (key, members lines key). split; [done|].
      apply elem_of_map_to_list. rewrite Hlook, members_filled by done.
      destruct (members lines key); [done|]. by rewrite lookup_empty. }
  split.
  - apply NoDup_Permutation.
    + apply NoDup_fst_map_to_list.
    + apply NoDup_remove_dups.
    + intros key. by rewrite Hkeys, elem_of_fill_colors.
  - intros key Hkey. apply Hkeys in Hkey as [Hne Hmem].
    rewrite Hlook, members_filled by done.
    destruct (members lines key); [done|]. by rewrite lookup_empty.
Qed.
(** The lines of the colours [keys], colour by colour, are the lines whose
    colour is among [keys], each once. *)
Lemma filter_disjoint_app {A} (P Q : A → Prop)
    `{∀ x, Decision (P x)} `{∀ x, Decision (Q x)} (l : list A) :
  (∀ x, P x → Q x → False) →
  filter P l ++ filter Q l ≡ₚ filter (λ x, P x ∨ Q x) l.
Proof.
  intros Hdis. induction l as [|x l IH]; [done|].
  rewrite !filter_cons.
  destruct (decide (P x)) as [HP|HP]; destruct (decide (Q x)) as [HQ|HQ].
  - by destruct (Hdis x).
  - rewrite decide_True by auto. simpl. by f_equiv.
  - rewrite decide_True by auto. rewrite <- Permutation_middle. by f_equiv.
  - rewrite decide_False by tauto. done.
Qed.

Lemma members_concat lines keys :
  NoDup keys →
  concat (members lines <$> keys) ≡ₚ filter (λ line, fill_of line ∈ keys) lines.
Proof.
  induction 1 as [|key keys Hnotin _ IH]; simpl.
  - induction lines as [|line lines IHl]; [done|].
    rewrite filter_cons_False; [done|]. apply not_elem_of_nil.
  - rewrite IH. unfold members. rewrite filter_disjoint_app.
    + apply reflexive_eq, list_filter_iff. intros line.
      rewrite elem_of_cons. done.
    + intros line <- Hin. done.
Qed.

Lemma filter_iff_elem {A} (P Q : A → Prop)
    `{∀ x, Decision (P x)} `{∀ x, Decision (Q x)} (l : list A) :
  (∀ x, x ∈ l → (P x ↔ Q x)) → filter P l = filter Q l.
Proof.
  induction l as [|x l IH]; intros Hiff; [done|].
  rewrite !filter_cons, IH by (intros y Hy; apply Hiff; by right).
  pose proof (Hiff x ltac:(left)) as Hx.
  destruct (decide (P x)) as [HP|HP]; destruct (decide (Q x)) as [HQ|HQ];
    tauto.
Qed.

Lemma members_of_fill_colors lines keys :
  keys ≡ₚ fill_colors lines →
  concat (members lines <$> keys) ≡ₚ filter filled lines.
Proof.
  intros Hkeys. rewrite members_concat.
  - apply reflexive_eq, filter_iff_elem. intros line Hline.
    rewrite Hkeys, elem_of_fill_colors. unfold filled, members. split.
    + by intros [? _].
    + intros Hf. split; [done|]. intros Hnil.
      assert (line ∈ filter (λ l, fill_of l = fill_of line) lines) as Hin
        by (by apply list_elem_of_filter).
      rewrite Hnil in Hin. by apply elem_of_nil in Hin.
  - rewrite Hkeys. apply NoDup_remove_dups.
Qed.

(** ** The text of the groups *)

Lemma concat_cons (x : string) (xs : list string) :
  String.concat "" (x :: xs) = x +:+ String.concat "" xs.
Proof.
  destruct xs as [|y xs]; simpl; [by rewrite string_app_nil_r|done].
Qed.

Lemma group_members_spec key lines :
  ∀ sb, group_members key lines sb =
        sb +:+ String.concat "" (strip_fill key <$> lines).
Proof.
  induction lines as [|line lines IH]; intros sb.
  - simpl. by rewrite string_app_nil_r.
  - cbn [group_members]. rewrite IH, fmap_cons, concat_cons.
    by rewrite string_app_assoc.
Qed.

Lemma groupLines_build_spec (m : gmap string (list string)) keys :
  ∀ sb, groupLines_build keys m sb =
        sb +:+ String.concat ""
                 ((λ key, group_element (default [] (m !! key)) key) <$> keys).
Proof.
  induction keys as [|key keys IH]; intros sb.
  - simpl. by rewrite string_app_nil_r.
  - cbn [groupLines_build]. rewrite IH, group_members_spec, fmap_cons, concat_cons.
    unfold group_element. by rewrite !string_app_assoc.
Qed.

(** ** Putting the groups back *)

Lemma groupLines_insert_done lines contents :
  groupLines_insert lines contents true = lines.
Proof. induction lines as [|line lines IH]; simpl; [done|]. by rewrite IH. Qed.

Lemma groupLines_insert_length lines contents inserted :
  length (groupLines_insert lines contents inserted) = length lines.
Proof.
  revert inserted. induction lines as [|line lines IH]; intros b; simpl; [done|].
  destruct (negb b && bool_decide (line = "")); simpl; by rewrite IH.
Qed.

(** The contents take the place of the first empty line, and only that. *)
Lemma groupLines_insert_spec lines contents :
  (¬ "" ∈ lines ∧ groupLines_insert lines contents false = lines) ∨
  (∃ i, lines !! i = Some "" ∧
        (∀ j, (j < i)%nat → lines !! j ≠ Some "") ∧
        groupLines_insert lines contents false = <[i := contents]> lines).
Proof.
  induction lines as [|line lines IH]; simpl.
  - left. split; [apply not_elem_of_nil|done].
  - case_bool_decide as Hline; simpl.
    + subst line. right. exists 0%nat. split; [done|]. split; [lia|].
      simpl. by rewrite groupLines_insert_done.
    + destruct IH as [[Hnot ->]|(i & Hi & Hbefore & ->)].
      * left. split; [|done]. rewrite not_elem_of_cons. split; [congruence|done].
      * right. exists (S i). split; [done|]. split; [|done].
        intros [|j] Hj; simpl; [congruence|]. apply Hbefore. lia.
Qed.
(** ** [groupLinesByFillColor], as a whole *)

Lemma map_keys_ok : range_order_ok map_keys.
Proof. by intros m. Qed.

Lemma reversed_range_ok : range_order_ok reversed_range.
Proof. intros m. apply reverse_Permutation. Qed.

Lemma groupLinesByFillColor_unfold range lines :
  groupLinesByFillColor range lines =
  '(erased, m) ← groupLines_collect lines ∅;
  Ret (groupLines_insert erased
         (String.concat ""
            ((λ key, group_element (default [] (m !! key)) key) <$> range m))
         false).
Proof.
  unfold groupLinesByFillColor.
  destruct (groupLines_collect lines ∅) as [[erased m]|]; [|done]. simpl.
  by rewrite groupLines_build_spec, string_app_nil_l.
Qed.

Lemma groupLinesByFillColor_spec range lines :
  range_order_ok range →
  Forall (λ line, returns (colorFromLine line)) lines →
  ∃ keys, keys ≡ₚ fill_colors lines ∧
    groupLinesByFillColor range lines =
    Ret (groupLines_insert (erase <$> lines)
           (String.concat ""
              ((λ key, group_element (members lines key) key) <$> keys))
           false).
Proof.
  intros Hrange Hret.
  destruct (groupLines_collect_groups lines Hret) as (m & Hm & Hkeys & Hgroups).
  exists (range m). split; [by rewrite (Hrange m)|].
  rewrite groupLinesByFillColor_unfold, Hm, bind_Ret. simpl. do 3 f_equal.
  apply list_fmap_ext. intros i key Hkey.
  rewrite Hgroups; [done|]. rewrite <- (Hrange m). by eapply list_elem_of_lookup_2.
Qed.

Lemma erase_unfilled (lines : list string) :
  filter filled lines = [] → erase <$> lines = lines.
Proof.
  induction lines as [|line lines IH]; [done|].
  rewrite filter_cons. destruct (decide (filled line)) as [Hf|Hf]; [done|].
  intros Hnil. rewrite fmap_cons, IH by done. f_equal.
  unfold erase, filled in *. destruct (decide (fill_of line = "")); tauto.
Qed.

Lemma erase_filled (lines : list string) line :
  line ∈ lines → filled line → "" ∈ erase <$> lines.
Proof.
  intros Hin Hf. apply list_elem_of_fmap. exists line. split; [|done].
  unfold erase, filled in *. by rewrite decide_False.
Qed.
Lemma fill_attr_not_empty key : fill_attr key ≠ "".
Proof. unfold fill_attr. intros H. discriminate H. Qed.

Lemma sample_lines_return :
  Forall (λ line, returns (colorFromLine line)) sample_lines.
Proof. repeat constructor; eexists; vm_compute; reflexivity. Qed.

(** ** The covering engine *)

Lemma At_in_grid pi x y p :
  wf pi → in_grid pi x y → pixel_at pi x y = Some p →
  At pi x y = Ret (pr p, pg p, pb p).
Proof. intros. unfold At. by rewrite (read_cell pi x y p). Qed.

Lemma Covered_in_grid pi x y p :
  wf pi → in_grid pi x y → pixel_at pi x y = Some p →
  Covered pi x y = Ret (covered p).
Proof. intros. unfold Covered. by rewrite (read_cell pi x y p). Qed.

Lemma joins_returns pi box x y :
  wf pi → in_grid pi x y → returns (joins pi box x y).
Proof.
  intros Hwf Hin. destruct (pixel_at_is_Some pi x y Hwf Hin) as [p Hp].
  unfold joins. rewrite (Covered_in_grid pi x y p), (At_in_grid pi x y p) by done.
  by eexists.
Qed.

Lemma all_join_returns pi box cells :
  wf pi → Forall (λ c, in_grid pi c.1 c.2) cells → returns (all_join pi box cells).
Proof.
  intros Hwf. induction 1 as [|[x y] cells Hin _ IH]; simpl; [by eexists|].
  destruct (joins_returns pi box x y Hwf Hin) as [b ->]. rewrite bind_Ret.
  destruct b; [done|by eexists].
Qed.

Lemma width_int pi : wf pi → 0 < h pi → w pi ≤ int_max.
Proof. intros [Hw Hh _ Hint _] Hpos. nia. Qed.

Lemma height_int pi : wf pi → 0 < w pi → h pi ≤ int_max.
Proof. intros [Hw Hh _ Hint _] Hpos. nia. Qed.

Lemma add_1 z : 0 ≤ z < int_max → add z 1 = z + 1.
Proof.
  intros Hz. apply wrap_id. unfold is_int, int_min, int_max in *. lia.
Qed.

Lemma Expand_right_spec columns pi :
  wf pi → ∀ box, box_ok pi box →
  ∃ box', Expand_right columns pi box = Ret box' ∧ box_ok pi box' ∧
          x1 box' = x1 box ∧ y1 box' = y1 box ∧ y2 box' = y2 box ∧
          seed box' = seed box.
Proof.
  intros Hwf. induction columns as [|columns IH]; intros box Hbox; simpl.
  { by exists box. }
  pose proof (width_int pi Hwf) as Hint. unfold box_ok in Hbox.
  rewrite add_1 by lia.
  destruct (Z.ltb_spec (x2 box + 1) (w pi)) as [Hlt|Hge]; [|by exists box].
  destruct (all_join_returns pi box
              ((λ y, (x2 box + 1, y)) <$> zrange (y1 box) (add (y2 box) 1)))
    as [ok Hok]; [done| |].
  { apply Forall_fmap, Forall_forall. intros y Hy. simpl.
    pose proof (height_int pi Hwf). rewrite add_1 in Hy by lia.
    apply elem_of_seqZ in Hy. unfold in_grid. lia. }
  rewrite Hok, bind_Ret. destruct ok; [|by exists box].
  destruct (IH (mkBox (x1 box) (y1 box) (x2 box + 1) (y2 box) (seed box)))
    as (box' & Hret & Hok' & Ha & Hb & Hc & Hd); [unfold box_ok; simpl; lia|].
  exists box'. simpl in *. tauto.
Qed.

Lemma Expand_down_spec rows pi :
  wf pi → ∀ box, box_ok pi box →
  ∃ box', Expand_down rows pi box = Ret box' ∧ box_ok pi box' ∧
          x1 box' = x1 box ∧ y1 box' = y1 box ∧ x2 box' = x2 box ∧
          seed box' = seed box.
Proof.
  intros Hwf. induction rows as [|rows IH]; intros box Hbox; simpl.
  { by exists box. }
  pose proof (height_int pi Hwf) as Hint. unfold box_ok in Hbox.
  rewrite add_1 by lia.
  destruct (Z.ltb_spec (y2 box + 1) (h pi)) as [Hlt|Hge]; [|by exists box].
  destruct (all_join_returns pi box
              ((λ x, (x, y2 box + 1)) <$> zrange (x1 box) (add (x2 box) 1)))
    as [ok Hok]; [done| |].
  { apply Forall_fmap, Forall_forall. intros x Hx. simpl.
    pose proof (width_int pi Hwf). rewrite add_1 in Hx by lia.
    apply elem_of_seqZ in Hx. unfold in_grid. lia. }
  rewrite Hok, bind_Ret. destruct ok; [|by exists box].
  destruct (IH (mkBox (x1 box) (y1 box) (x2 box) (y2 box + 1) (seed box)))
    as (box' & Hret & Hok' & Ha & Hb & Hc & Hd); [unfold box_ok; simpl; lia|].
  exists box'. simpl in *. tauto.
Qed.

Lemma Expand_spec pi box :
  wf pi → box_ok pi box →
  ∃ box' expanded, Expand pi box = Ret (box', expanded) ∧ box_ok pi box' ∧
                   x1 box' = x1 box ∧ y1 box' = y1 box.
Proof.
  intros Hwf Hbox. unfold Expand.
  destruct (Expand_right_spec (Z.to_nat (w pi)) pi Hwf box Hbox)
    as (box1 & -> & Hbox1 & Hx1 & Hy1 & _).
  rewrite bind_Ret.
  destruct (Expand_down_spec (Z.to_nat (h pi)) pi Hwf box1 Hbox1)
    as (box2 & -> & Hbox2 & Hx2 & Hy2 & _).
  rewrite bind_Ret. eexists _, _. split; [done|]. split; [done|].
  split; congruence.
Qed.
Lemma mark_covered_spec (ps : Pixels) i p :
  0 ≤ i → ps !! Z.to_nat i = Some (Some p) →
  mark_covered ps i = Ret (<[Z.to_nat i := Some (cover p)]> ps).
Proof.
  intros Hi Hp. unfold mark_covered, index, store.
  destruct (Z.ltb_spec i 0); [lia|]. rewrite Hp. simpl.
  apply lookup_lt_Some in Hp.
  destruct (Z.leb_spec (Z.of_nat (length ps)) i); [lia|]. done.
Qed.

Lemma insert_cover_step (ps : Pixels) i p :
  ps !! i = Some (Some p) → grid_step ps (<[i := Some (cover p)]> ps).
Proof.
  intros Hp. unfold grid_step.
  rewrite <- (list_insert_id ps i (Some p)) at 1 by done.
  apply Forall2_insert; [apply grid_step_refl|].
  destruct (covered p) eqn:Hc; [rewrite cover_covered by done|]; by constructor.
Qed.

Lemma grid_step_covered (ps ps' : Pixels) i p :
  grid_step ps ps' → ps !! i = Some (Some p) → covered p = true →
  ∃ p', ps' !! i = Some (Some p') ∧ covered p' = true.
Proof.
  intros Hstep Hp Hc.
  destruct (Forall2_lookup_l _ _ _ _ _ Hstep Hp) as (o' & Hi' & Hpx).
  inversion Hpx; subst; [by exists p|congruence].
Qed.

Lemma wf_step pi ps' svgTag :
  wf pi → grid_step (pixels pi) ps' →
  wf (mkPixelImage ps' svgTag (verbose pi) (w pi) (h pi)).
Proof.
  intros [Hw Hh Hlen Hint Hall] Hstep. split; simpl; try done.
  - by rewrite <- (Forall2_length _ _ _ Hstep).
  - by eapply grid_step_allocated.
Qed.

Lemma CoverBox_cells_spec cells :
  ∀ pi, wf pi → Forall (λ c, in_grid pi c.1 c.2) cells →
  ∃ ps', CoverBox_cells (w pi) cells (pixels pi) = Ret ps' ∧
         grid_step (pixels pi) ps' ∧
         ∀ c, c ∈ cells →
              ∃ p', ps' !! Z.to_nat (c.2 * w pi + c.1) = Some (Some p') ∧
                    covered p' = true.
Proof.
  induction cells as [|[x y] cells IH]; intros pi Hwf Hcells; simpl.
  { exists (pixels pi). split; [done|]. split; [apply grid_step_refl|].
    intros c Hc. by apply elem_of_nil in Hc. }
  apply Forall_cons in Hcells as [Hin Hcells]. simpl in Hin.
  destruct (pixel_at_is_Some pi x y Hwf Hin) as [p Hp].
  destruct (cell_index_int pi x y Hwf Hin) as (Hi & _).
  assert (pixels pi !! Z.to_nat (y * w pi + x) = Some (Some p)) as Hlook.
  { unfold pixel_at in Hp.
    by destruct (pixels pi !! Z.to_nat (y * w pi + x)) as [[q|]|]; simplify_eq/=. }
  rewrite cell_index by done.
  rewrite (mark_covered_spec _ _ p) by (done || lia). rewrite bind_Ret.
  set (ps1 := <[Z.to_nat (y * w pi + x) := Some (cover p)]> (pixels pi)).
  assert (grid_step (pixels pi) ps1) as Hstep1 by by apply insert_cover_step.
  destruct (IH (mkPixelImage ps1 (page pi) (verbose pi) (w pi) (h pi)))
    as (ps' & Hret & Hstep & Hcov); [by apply wf_step|done|].
  simpl in *. exists ps'. split; [done|].
  split; [by eapply grid_step_trans|].
  intros c Hc. apply elem_of_cons in Hc as [->|Hc]; [|by apply Hcov].
  simpl. apply (grid_step_covered ps1 ps' _ (cover p)); [done| |done].
  unfold ps1. apply list_lookup_insert_eq. by eapply lookup_lt_Some.
Qed.

Lemma elem_of_box_cells box x y :
  0 ≤ x2 box < int_max → 0 ≤ y2 box < int_max →
  (x, y) ∈ box_cells box ↔ x1 box ≤ x ≤ x2 box ∧ y1 box ≤ y ≤ y2 box.
Proof.
  intros Hx Hy. unfold box_cells. rewrite !add_1 by done.
  rewrite list_elem_of_bind. unfold zrange. split.
  - intros (y' & Hin & Hy'). apply elem_of_seqZ in Hy'.
    apply list_elem_of_fmap in Hin as (x' & [= -> ->] & Hx'%elem_of_seqZ). lia.
  - intros [Hx' Hy']. exists y. split.
    + apply list_elem_of_fmap. exists x. split; [done|]. apply elem_of_seqZ. lia.
    + apply elem_of_seqZ. lia.
Qed.

(** One turn of the covering loop covers the pixel it started from. *)
Lemma cover_step_spec pink quantized flags pi :
  wf pi → Done pi = Ret false →
  ∃ pi', cover_step pink quantized flags pi = Ret pi' ∧ wf pi' ∧
         grid_step (pixels pi) (pixels pi') ∧
         (count_uncovered pi' < count_uncovered pi)%nat.
Proof.
  intros Hwf Hdone. apply Done_false in Hdone as (x0 & y0 & Hu0); [|done].
  destruct (FirstUncovered_spec pi Hwf)
    as [(x & y & Hfirst & [Hin (p & Hp & Hc)] & _)|[_ Hnone]];
    [|by destruct (Hnone x0 y0)].
  unfold cover_step. rewrite Hfirst, bind_Ret. simpl.
  unfold CreateBox. rewrite (At_in_grid pi x y p) by done. rewrite !bind_Ret.
  destruct (Expand_spec pi (mkBox x y x y (pr p, pg p, pb p)) Hwf)
    as (box & expanded & -> & Hbox & Hx1 & Hy1).
  { unfold box_ok, in_grid in *. simpl. lia. }
  rewrite bind_Ret. simpl in *. unfold CoverBox.
  unfold box_ok in Hbox.
  pose proof (width_int pi Hwf ltac:(lia)). pose proof (height_int pi Hwf ltac:(lia)).
  destruct (CoverBox_cells_spec (box_cells box) pi Hwf) as (ps' & -> & Hstep & Hcov).
  { apply Forall_forall. intros [x' y'] Hcell. simpl.
    apply elem_of_box_cells in Hcell; [|lia..]. unfold in_grid. lia. }
  rewrite bind_Ret. eexists. split; [done|].
  split; [by apply wf_step|]. split; [done|].
  destruct (Hcov (x, y)) as (p' & Hp' & Hc'); [apply elem_of_box_cells; lia|].
  unfold count_uncovered. simpl in *.
  eapply (uncovered_pixels_step_lt _ _ (Z.to_nat (y * w pi + x)) p p'); try done.
  unfold pixel_at in Hp.
  by destruct (pixels pi !! Z.to_nat (y * w pi + x)) as [[q|]|]; simplify_eq/=.
Qed.

Lemma cover_loop_unfold pink quantized fuel flags pi :
  cover_loop pink quantized (S fuel) flags pi =
  if singlePixelRectangles flags then Some (Ret pi)
  else match Done pi with
       | Panic msg => Some (Panic msg)
       | Ret true => Some (Ret pi)
       | Ret false =>
           match cover_step pink quantized flags pi with
           | Panic msg => Some (Panic msg)
           | Ret pi' => cover_loop pink quantized fuel flags pi'
           end
       end.
Proof. done. Qed.

(** The covering loop ends within as many turns as there are uncovered
    pixels, with every pixel covered. *)
Lemma cover_loop_spec pink quantized flags n :
  singlePixelRectangles flags = false →
  ∀ pi, wf pi → (count_uncovered pi ≤ n)%nat →
  ∃ pi', cover_loop pink quantized (S n) flags pi = Some (Ret pi') ∧
         wf pi' ∧ Done pi' = Ret true ∧ grid_step (pixels pi) (pixels pi').
Proof.
  intros Hmode. induction n as [|n IH]; intros pi Hwf Hcount;
    rewrite cover_loop_unfold, Hmode, (Done_spec pi Hwf).
  - rewrite bool_decide_eq_true_2 by lia. exists pi.
    split; [done|]. split; [done|]. split; [|apply grid_step_refl].
    rewrite Done_spec by done. by rewrite bool_decide_eq_true_2 by lia.
  - case_bool_decide as Hzero.
    + exists pi. split; [done|]. split; [done|]. split; [|apply grid_step_refl].
      rewrite Done_spec by done. by rewrite bool_decide_eq_true_2.
    + destruct (cover_step_spec pink quantized flags pi Hwf)
        as (pi1 & -> & Hwf1 & Hstep1 & Hless).
      { rewrite Done_spec by done. by rewrite bool_decide_eq_false_2. }
      destruct (IH pi1 Hwf1) as (pi' & Hloop & Hwf' & Hdone & Hstep); [lia|].
      exists pi'. split; [done|]. split; [done|]. split; [done|].
      by eapply grid_step_trans.
Qed.

(** * The claims *)

Example sample_grid_built : NewPixelImage sample_image false = Ret (sample_grid, []).
Proof. vm_compute. reflexivity. Qed.

(** C2: on a grid with an uncovered pixel, [FirstUncovered] returns the
    coordinate of an uncovered pixel that comes first in row-major order:
    every uncovered pixel is on a later row, or on the same row and not to
    the left. *)
Theorem FirstUncovered_row_major_first (pi : PixelImage) :
  wf pi → (∃ x y, uncovered pi x y) →
  ∃ x y, FirstUncovered pi = Ret (x, y) ∧ uncovered pi x y ∧
         ∀ x' y', uncovered pi x' y' → y < y' ∨ (y = y' ∧ x ≤ x').
Proof.
  intros Hwf (x0 & y0 & Hu).
  destruct (FirstUncovered_spec pi Hwf) as [(x & y & Hret & Hfirst & Hmin)|[_ Hnone]].
  - by exists x, y.
  - by destruct (Hnone x0 y0).
Qed.

Lemma FirstUncovered_row_major_first_witness :
  ∃ x y, FirstUncovered sample_grid = Ret (x, y) ∧ uncovered sample_grid x y ∧
         ∀ x' y', uncovered sample_grid x' y' → y < y' ∨ (y = y' ∧ x ≤ x').
Proof.
  apply (FirstUncovered_row_major_first sample_grid).
  - exact sample_grid_wf.
  - exists 1, 0. split; [split; simpl; lia|].
    exists (mkPixel 1 0 255 0 0 255 false). split; reflexivity.
Defined.

(** C9: whenever [Done] reports an uncovered pixel, as it has when the
    covering loop calls [FirstUncovered], the scan returns a coordinate and
    does not reach its panic. *)
Theorem FirstUncovered_returns_when_not_Done (pi : PixelImage) :
  wf pi → Done pi = Ret false →
  ∃ x y, FirstUncovered pi = Ret (x, y) ∧ uncovered pi x y.
Proof.
  intros Hwf Hdone. apply Done_false in Hdone as (x0 & y0 & Hu); [|done].
  destruct (FirstUncovered_spec pi Hwf) as [(x & y & Hret & Hfirst & _)|[_ Hnone]].
  - by exists x, y.
  - by destruct (Hnone x0 y0).
Qed.

Lemma FirstUncovered_returns_when_not_Done_witness :
  ∃ x y, FirstUncovered sample_grid = Ret (x, y) ∧ uncovered sample_grid x y.
Proof.
  apply (FirstUncovered_returns_when_not_Done sample_grid).
  - exact sample_grid_wf.
  - reflexivity.
Defined.

(** C5: after [CoverAllPixels] every pixel is covered, and the rectangles
    added are exactly the 1x1 rectangles of the pixels that were uncovered
    before, one each, at the pixel's coordinate and in its colour.  On the
    grid just built from an image, as in single-pixel mode where the covering
    loop does not run, their number is the number of pixels of the image with
    alpha above 0. *)
Theorem CoverAllPixels_one_rectangle_per_uncovered_pixel (pi : PixelImage) :
  allocated (pixels pi) →
  ∃ pi' out,
    CoverAllPixels pi = Ret (pi', out) ∧
    Done pi' = Ret true ∧
    (∀ p, Some p ∈ pixels pi' → covered p = true) ∧
    tag_rects (page pi') =
      tag_rects (page pi) ++ (rect_of <$> uncovered_pixels (pixels pi)) ∧
    ∀ img flags out0,
      img_ok img →
      NewPixelImage img (verbose_flag flags) = Ret (pi, out0) →
      tag_rects (page pi') = (rect_of <$> uncovered_pixels (pixels pi)) ∧
      length (tag_rects (page pi')) = opaque_count img ∧
      ∀ pink quantized fuel world status pi_end out_end,
        singlePixelRectangles flags = true → colorPink flags = false →
        main_from pink quantized (S fuel) world flags img
          = Some (Ret (status, pi_end, out_end)) →
        pi_end = pi'.
Proof.
  intros Hall. destruct (CoverAllPixels_spec pi Hall) as [out Hcover].
  eexists _, out. split; [exact Hcover|]. simpl.
  split; [|split; [|split]].
  - unfold Done. simpl. rewrite Done_loop_spec by by apply cover_all_allocated.
    by rewrite uncovered_pixels_fmap_cover.
  - intros p. apply elem_of_cover_all.
  - done.
  - intros img flags out0 Hok Hnew.
    destruct (NewPixelImage_spec img (verbose_flag flags) Hok) as [out1 Hspec].
    assert (tag_rects (page pi) = []) as Hfresh.
    { rewrite Hspec in Hnew. by injection Hnew as <- _. }
    rewrite Hfresh. simpl. split; [done|]. split.
    + rewrite Hspec in Hnew. injection Hnew as <- _. simpl.
      rewrite length_fmap, uncovered_grid_pixels, length_fmap. done.
    + intros pink quantized fuel world status pi_end out_end Hsingle Hpink Hmain.
      destruct (main_from_single_pixel _ _ _ _ _ _ _ _ _ Hsingle Hpink Hnew Hmain)
        as [out' Hcover'].
      rewrite Hcover in Hcover'. simpl in Hcover'. by injection Hcover' as ->.
Qed.

Lemma CoverAllPixels_one_rectangle_per_uncovered_pixel_witness :
  (img_ok sample_image ∧
   NewPixelImage sample_image false = Ret (sample_grid, [])) ∧
  ∃ pi' out,
    CoverAllPixels sample_grid = Ret (pi', out) ∧
    Done pi' = Ret true ∧
    (∀ p, Some p ∈ pixels pi' → covered p = true) ∧
    tag_rects (page pi') =
      tag_rects (page sample_grid) ++
      (rect_of <$> uncovered_pixels (pixels sample_grid)) ∧
    ∀ img flags out0,
      img_ok img →
      NewPixelImage img (verbose_flag flags) = Ret (sample_grid, out0) →
      tag_rects (page pi') = (rect_of <$> uncovered_pixels (pixels sample_grid)) ∧
      length (tag_rects (page pi')) = opaque_count img ∧
      ∀ pink quantized fuel world status pi_end out_end,
        singlePixelRectangles flags = true → colorPink flags = false →
        main_from pink quantized (S fuel) world flags img
          = Some (Ret (status, pi_end, out_end)) →
        pi_end = pi'.
Proof.
  split; [split; [exact sample_image_ok|reflexivity]|].
  apply (CoverAllPixels_one_rectangle_per_uncovered_pixel sample_grid).
  unfold allocated. simpl. repeat constructor; eauto.
Defined.

(** C8: whatever operations are performed on a grid, in whatever order, each
    of its pixels is afterwards either what it was or, if it was uncovered,
    the same pixel covered: [x], [y], [r], [g], [b] and [a] never change and
    [covered] never goes from true to false. *)
Theorem covered_is_monotone (world : World) (ops : list operation)
    (pi pi' : PixelImage) :
  perform_all world ops pi = Ret pi' →
  length (pixels pi') = length (pixels pi) ∧
  ∀ i p, pixels pi !! i = Some (Some p) →
    ∃ p', pixels pi' !! i = Some (Some p') ∧
          (p' = p ∨ covered p = false ∧ p' = cover p) ∧
          px p' = px p ∧ py p' = py p ∧ pr p' = pr p ∧ pg p' = pg p ∧
          pb p' = pb p ∧ pa p' = pa p ∧
          (covered p = true → covered p' = true).
Proof.
  intros Hrun. apply perform_all_step in Hrun. split.
  - symmetry. by eapply Forall2_length.
  - intros i p Hi.
    destruct (Forall2_lookup_l _ _ _ _ _ Hrun Hi) as (o' & Hi' & Hstep).
    inversion Hstep; subst.
    + exists p. repeat split; auto.
    + exists (cover p). repeat split; auto.
Qed.

Lemma covered_is_monotone_witness :
  ∃ pi',
  perform_all sample_world [OpFirstUncovered; OpCoverAllPixels; OpDone] sample_grid
    = Ret pi' ∧
  length (pixels pi') = length (pixels sample_grid) ∧
  ∀ i p, pixels sample_grid !! i = Some (Some p) →
    ∃ p', pixels pi' !! i = Some (Some p') ∧
          (p' = p ∨ covered p = false ∧ p' = cover p) ∧
          px p' = px p ∧ py p' = py p ∧ pr p' = pr p ∧ pg p' = pg p ∧
          pb p' = pb p ∧ pa p' = pa p ∧
          (covered p = true → covered p' = true).
Proof.
  eexists. split; [reflexivity|].
  apply (covered_is_monotone sample_world
           [OpFirstUncovered; OpCoverAllPixels; OpDone] sample_grid).
  reflexivity.
Defined.

(** The paths of [WriteSVG], by what [Done] returned. *)
Lemma WriteSVG_by_Done (world : World) (pi : PixelImage)
    (filename : string) :
  allocated (pixels pi) →
  (Done pi = Ret false →
   WriteSVG world pi filename = Ret (Some not_covered, [])) ∧
  (Done pi = Ret true → ∀ doc, PixelImage_String world pi = Ret doc →
   ∃ err out,
     WriteSVG world pi filename = Ret (err, out) ∧
     (err = None ↔
        (filename = "-" ∨ os_Create world filename = None) ∧
        (File_WriteString world (target filename) doc).2 = None) ∧
     (err = None → ∃ n, EvWriteString (target filename) doc n None ∈ out)) ∧
  (∀ err out, WriteSVG world pi filename = Ret (err, out) →
     (err = Some not_covered ↔ Done pi = Ret false) ∧
     (err = None → Done pi = Ret true) ∧
     (∀ f s n e, EvWriteString f s n e ∈ out →
        Done pi = Ret true ∧ PixelImage_String world pi = Ret s)).
Proof.
  intros Hall. unfold WriteSVG, target.
  assert (∃ b, Done pi = Ret b) as [b Hdone].
  { unfold Done. rewrite Done_loop_spec by done. eauto. }
  rewrite Hdone, bind_Ret. destruct b; simpl.
  2: { split; [done|]. split; [done|].
       intros err out [= <- <-]. split; [done|]. split; [done|].
       intros f s n e Hin. by apply elem_of_nil in Hin. }
  split; [done|].
  destruct (PixelImage_String world pi) as [doc0|msg]; simpl.
  2: { split; [done|]. intros err out.
       destruct (decide (filename = "-")) as [Heq|Hne]; simpl; [done|].
       destruct (os_Create world filename) as [ce|]; simpl; [|done].
       intros [= <- <-]. split; [done|]. split; [done|].
       intros f s n e Hin. destruct (verbose pi); simpl in Hin;
         rewrite ?elem_of_cons, elem_of_nil in Hin; intuition discriminate. }
  destruct (decide (filename = "-")) as [->|Hname]; simpl.
  - destruct (File_WriteString world Stdout doc0) as [n [e|]] eqn:Hw; simpl.
    all: split;
      [ intros _ doc [= <-]; rewrite Hw; simpl; eexists _, _;
        split; [done|]; split; [intuition discriminate|]
      | intros err out [= <- <-]; split; [done|]; split; [done|];
        intros f s n' e' Hin; split; [done|];
        destruct (verbose pi); simpl in Hin;
        rewrite ?elem_of_cons, elem_of_nil in Hin;
        decompose [or] Hin; by simplify_eq ].
    + done.
    + intros _. exists n. destruct (verbose pi); simpl;
        rewrite ?elem_of_cons; auto.
  - destruct (os_Create world filename) as [e|] eqn:Hc; simpl.
    { split.
      - intros _ doc [= <-]. eexists _, _. split; [done|].
        split; [intuition discriminate|done].
      - intros err out [= <- <-]. split; [done|]. split; [done|].
        intros f s n' e' Hin. destruct (verbose pi); simpl in Hin;
          rewrite ?elem_of_cons, elem_of_nil in Hin;
          decompose [or] Hin; by simplify_eq. }
    destruct (File_WriteString world (File filename) doc0) as [n [e|]] eqn:Hw; simpl.
    all: split;
      [ intros _ doc [= <-]; rewrite Hw; simpl; eexists _, _;
        split; [done|]; split; [intuition discriminate|]
      | intros err out [= <- <-]; split; [done|]; split; [done|];
        intros f s n' e' Hin; split; [done|];
        destruct (verbose pi); simpl in Hin;
        rewrite ?elem_of_cons, elem_of_nil in Hin;
        decompose [or] Hin; by simplify_eq ].
    + done.
    + intros _. exists n. destruct (verbose pi); simpl;
        rewrite ?elem_of_cons; auto.
Qed.

(** C10, as stated, fails: on the sample document of two fill colours the
    two orders in which [range] may visit the two colour groups give two
    different documents. *)
Lemma String_differs_with_range_order :
  range_order_ok map_keys ∧ range_order_ok reversed_range ∧
  String_of map_keys sample_document ≠ String_of reversed_range sample_document.
Proof.
  split; [exact map_keys_ok|]. split; [exact reversed_range_ok|].
  vm_compute. discriminate.
Qed.

(** C10, amended: the rendered document is determined by the text of the
    page and the order in which [range] visits the colour groups.  Two
    invocations either panic alike on a line without a quoted fill, or build
    their documents from the same lines and the same [<g>] elements, taken in
    two orders that are permutations of each other; the documents are
    identical when the orders agree, as they must when there is at most one
    fill colour. *)
Theorem String_determined_up_to_group_order
    (range1 range2 : range_order) (svgDocument : string) :
  range_order_ok range1 → range_order_ok range2 →
  (∃ msg, String_of range1 svgDocument = Panic msg ∧
          String_of range2 svgDocument = Panic msg) ∨
  (∃ erased m,
     groupLines_collect (GoStrings.Split svgDocument "
") ∅ = Ret (erased, m) ∧
     range1 m ≡ₚ range2 m ∧
     (∀ range,
        String_of range svgDocument =
        Ret (minimize (GoStrings.Join
               (groupLines_insert erased
                  (String.concat ""
                     ((λ key, group_element (default [] (m !! key)) key)
                        <$> range m))
                  false) "
"))) ∧
     (range1 m = range2 m →
      String_of range1 svgDocument = String_of range2 svgDocument) ∧
     ((length (map_keys m) ≤ 1)%nat →
      String_of range1 svgDocument = String_of range2 svgDocument)).
Proof.
  intros Hok1 Hok2.
  assert (Hunfold : ∀ range, String_of range svgDocument =
    '(erased, m) ← groupLines_collect (GoStrings.Split svgDocument "
") ∅;
    Ret (minimize (GoStrings.Join
           (groupLines_insert erased
              (String.concat ""
                 ((λ key, group_element (default [] (m !! key)) key) <$> range m))
              false) "
"))).
  { intros range. unfold String_of. rewrite groupLinesByFillColor_unfold.
    by destruct (groupLines_collect _ ∅) as [[erased m]|]. }
  destruct (groupLines_collect (GoStrings.Split svgDocument "
") ∅) as [[erased m]|msg] eqn:Hcollect.
  - right. exists erased, m. split; [done|].
    split; [by rewrite (Hok1 m), (Hok2 m)|].
    split; [intros range; by rewrite Hunfold|].
    assert (Hsame : range1 m = range2 m →
                    String_of range1 svgDocument = String_of range2 svgDocument).
    { intros Heq. rewrite !Hunfold. simpl. by rewrite Heq. }
    split; [done|]. intros Hlen. apply Hsame.
    pose proof (Hok1 m) as H1. pose proof (Hok2 m) as H2.
    destruct (map_keys m) as [|key [|key' keys]]; simpl in Hlen; [| |lia].
    + apply Permutation_nil_r in H1, H2. congruence.
    + apply Permutation_singleton_r in H1, H2. congruence.
  - left. exists msg. by rewrite !Hunfold.
Qed.

Lemma String_determined_up_to_group_order_witness :
  (∃ msg, String_of map_keys sample_document = Panic msg ∧
          String_of reversed_range sample_document = Panic msg) ∨
  (∃ erased m,
     groupLines_collect (GoStrings.Split sample_document "
") ∅ = Ret (erased, m) ∧
     map_keys m ≡ₚ reversed_range m ∧
     (∀ range,
        String_of range sample_document =
        Ret (minimize (GoStrings.Join
               (groupLines_insert erased
                  (String.concat ""
                     ((λ key, group_element (default [] (m !! key)) key)
                        <$> range m))
                  false) "
"))) ∧
     (map_keys m = reversed_range m →
      String_of map_keys sample_document = String_of reversed_range sample_document) ∧
     ((length (map_keys m) ≤ 1)%nat →
      String_of map_keys sample_document = String_of reversed_range sample_document)).
Proof.
  apply (String_determined_up_to_group_order map_keys reversed_range sample_document).
  - exact map_keys_ok.
  - exact reversed_range_ok.
Defined.

(** C1, evaluated where it fails (a defect of the code): the rewrite of
    [#f00] into [red] also hits the six-digit colours that begin with
    [#f00].  The document of one pixel of colour (240, 10, 188) carries the
    fill [#f00abc]; the document [String] returns carries [redabc], which is
    not that colour. *)
Theorem String_rewrites_the_prefix_of_a_colour (range : range_order) :
  range_order_ok range →
  colorFromLine (rect_line "0" "0" "#f00abc") = Ret "#f00abc" ∧
  rewrite "#f00abc" ("#f00", "red") = "redabc" ∧
  String_of range f00abc_document =
    Ret ("<svg><g fill=" +:+ quote +:+ "redabc" +:+ quote +:+ ">" +:+
         "<rect width=" +:+ quote +:+ "1" +:+ quote +:+
         " height=" +:+ quote +:+ "1" +:+ quote +:+ "/></g></svg>").
Proof.
  intros Hok. split; [by vm_compute|]. split; [by vm_compute|].
  unfold String_of. rewrite groupLinesByFillColor_unfold.
  destruct (groupLines_collect (GoStrings.Split f00abc_document "
") ∅) as [[erased m]|msg] eqn:Hcollect; vm_compute in Hcollect; [|done].
  injection Hcollect as <- <-.
  pose proof (Hok (<["#f00abc" := [rect_line "0" "0" "#f00abc"]]> ∅)) as Hkeys.
  change (map_keys _) with ["#f00abc"] in Hkeys.
  apply Permutation_singleton_r in Hkeys.
  rewrite bind_Ret. cbn beta iota.
  change (range _) with (range (<["#f00abc" := [rect_line "0" "0" "#f00abc"]]> ∅)).
  rewrite Hkeys. by vm_compute.
Qed.

Lemma String_rewrites_the_prefix_of_a_colour_witness :
  colorFromLine (rect_line "0" "0" "#f00abc") = Ret "#f00abc" ∧
  rewrite "#f00abc" ("#f00", "red") = "redabc" ∧
  String_of map_keys f00abc_document =
    Ret ("<svg><g fill=" +:+ quote +:+ "redabc" +:+ quote +:+ ">" +:+
         "<rect width=" +:+ quote +:+ "1" +:+ quote +:+
         " height=" +:+ quote +:+ "1" +:+ quote +:+ "/></g></svg>").
Proof.
  apply (String_rewrites_the_prefix_of_a_colour map_keys). exact map_keys_ok.
Defined.

(** C7: the covering loop terminates on every decoded image.  A turn taken on
    a grid that is not done returns and leaves strictly fewer uncovered
    pixels; so the loop started on the grid of the image ends within as many
    turns as the image has opaque pixels, with [Done] true, and the command
    goes on to write. *)
Theorem cover_loop_terminates (pink : Z * Z * Z)
    (quantized : Z * Z * Z → Z * Z * Z) (flags : Flags) (img : Image) :
  img_ok img → singlePixelRectangles flags = false →
  (∀ pi, wf pi → Done pi = Ret false →
     ∃ pi', cover_step pink quantized flags pi = Ret pi' ∧ wf pi' ∧
            (count_uncovered pi' < count_uncovered pi)%nat) ∧
  ∃ pi out,
    NewPixelImage img (verbose_flag flags) = Ret (pi, out) ∧
    count_uncovered pi = opaque_count img ∧
    (∃ pi_end,
       cover_loop pink quantized (S (opaque_count img)) flags pi
         = Some (Ret pi_end) ∧
       Done pi_end = Ret true) ∧
    ∀ world, ∃ r,
      main_from pink quantized (S (opaque_count img)) world flags img = Some r.
Proof.
  intros Hok Hmode. split.
  { intros pi Hwf Hdone.
    destruct (cover_step_spec pink quantized flags pi Hwf Hdone)
      as (pi' & Hret & Hwf' & _ & Hless).
    by exists pi'. }
  destruct (NewPixelImage_spec img (verbose_flag flags) Hok) as [out Hnew].
  eexists _, out. split; [exact Hnew|].
  pose proof (NewPixelImage_wf _ _ _ _ Hok Hnew) as Hwf.
  match type of Hwf with wf ?g => set (pi := g) in * end.
  assert (count_uncovered pi = opaque_count img) as Hcount.
  { unfold count_uncovered, pi, opaque_count. simpl.
    by rewrite uncovered_grid_pixels, length_fmap. }
  split; [done|].
  assert (Hloop : ∀ flags', singlePixelRectangles flags' = false →
    ∃ pi_end, cover_loop pink quantized (S (opaque_count img)) flags' pi
                = Some (Ret pi_end) ∧ Done pi_end = Ret true).
  { intros flags' Hmode'.
    destruct (cover_loop_spec pink quantized flags' (opaque_count img) Hmode' pi Hwf)
      as (pi_end & Hend & _ & Hdone & _); [lia|].
    by exists pi_end. }
  split; [by apply Hloop|].
  intros world. unfold main_from.
  destruct (colorPink flags) eqn:Hpink.
  - cbn [verbose_flag singlePixelRectangles outputFilename]. rewrite Hnew.
    fold pi.
    destruct (Hloop (mkFlags (outputFilename flags) true false
                       (verbose_flag flags) (version flags) (quantize flags)))
      as (pi_end & -> & _); [done|].
    by eexists.
  - rewrite Hnew. fold pi. destruct (Hloop flags Hmode) as (pi_end & -> & _).
    by eexists.
Qed.

Lemma cover_loop_terminates_witness :
  ∃ pi out,
    NewPixelImage sample_image (verbose_flag sample_flags) = Ret (pi, out) ∧
    count_uncovered pi = opaque_count sample_image ∧
    (∃ pi_end,
       cover_loop (255, 0, 255) id (S (opaque_count sample_image)) sample_flags pi
         = Some (Ret pi_end) ∧
       Done pi_end = Ret true) ∧
    ∀ world, ∃ r,
      main_from (255, 0, 255) id (S (opaque_count sample_image)) world
        sample_flags sample_image = Some r.
Proof.
  refine (proj2 (cover_loop_terminates (255, 0, 255) id sample_flags
                   sample_image _ _)).
  - exact sample_image_ok.
  - reflexivity.
Defined.

(** * Further properties of the code *)
Lemma lookup_bind_rows {A B} (f : A → list B) (n : nat) (ys : list A) :
  (∀ y, length (f y) = n) →
  ∀ j i, (i < n)%nat →
  (ys ≫= f) !! (j * n + i)%nat = ys !! j ≫= λ y, f y !! i.
Proof.
  intros Hlen. induction ys as [|y ys IH]; intros j i Hi.
  - done.
  - rewrite bind_cons. destruct j as [|j]; simpl.
    + rewrite lookup_app_l by (rewrite Hlen; lia). done.
    + rewrite lookup_app_r by (rewrite Hlen; lia).
      rewrite Hlen. replace (n + j * n + i - n)%nat with (j * n + i)%nat by lia.
      by apply IH.
Qed.

Lemma lookup_zrange lo hi i :
  0 ≤ i < hi - lo → zrange lo hi !! Z.to_nat i = Some (lo + i).
Proof.
  intros Hi. unfold zrange. rewrite lookup_seqZ. split; [f_equal; lia|lia].
Qed.

Lemma grid_pixels_lookup img x y :
  let width := pt_X (Max (Bounds img)) - pt_X (Min (Bounds img)) in
  let height := pt_Y (Max (Bounds img)) - pt_Y (Min (Bounds img)) in
  0 ≤ x < width → 0 ≤ y < height →
  grid_pixels img !! Z.to_nat (y * width + x) =
  Some (NewPixel img (pt_X (Min (Bounds img)) + x) (pt_Y (Min (Bounds img)) + y)).
Proof.
  intros width height Hx Hy. rewrite grid_pixels_rows.
  replace (Z.to_nat (y * width + x))
    with (Z.to_nat y * Z.to_nat width + Z.to_nat x)%nat by nia.
  rewrite (lookup_bind_rows _ (Z.to_nat width)).
  - rewrite lookup_zrange by (fold height; lia). simpl.
    rewrite list_lookup_fmap. unfold image_xs.
    rewrite lookup_zrange by (fold width; lia). done.
  - intros y0. rewrite length_fmap. unfold image_xs. by rewrite length_zrange.
  - lia.
Qed.

(** X1: the grid [NewPixelImage] builds is the image, row by row.  The
    entry of column [x] and row [y] holds the pixel of the image at
    [Bounds.Min] shifted by [(x, y)], under the coordinates the image gives
    it; [At] returns its red, green and blue, and [Covered] tells whether its
    alpha is 0. *)
Theorem At_reads_the_image (img : Image) (v : bool) (pi : PixelImage)
    (out : list event) (x y : Z) :
  img_ok img → NewPixelImage img v = Ret (pi, out) →
  0 ≤ x < w pi → 0 ≤ y < h pi →
  let ix := pt_X (Min (Bounds img)) + x in
  let iy := pt_Y (Min (Bounds img)) + y in
  w pi = pt_X (Max (Bounds img)) - pt_X (Min (Bounds img)) ∧
  h pi = pt_Y (Max (Bounds img)) - pt_Y (Min (Bounds img)) ∧
  (∃ p, pixel_at pi x y = Some p ∧ px p = ix ∧ py p = iy ∧ pa p = image_alpha img ix iy) ∧
  At pi x y = Ret (image_rgb img ix iy) ∧
  Covered pi x y = Ret (image_alpha img ix iy =? 0).
Proof.
  intros Hok Hnew Hx Hy ix iy.
  pose proof (NewPixelImage_wf _ _ _ _ Hok Hnew) as Hwf.
  destruct (NewPixelImage_spec img v Hok) as [out' Hspec].
  rewrite Hspec in Hnew. injection Hnew as <- _. simpl in *.
  split; [done|]. split; [done|].
  assert (pixel_at
            (mkPixelImage (Some <$> grid_pixels img)
               (NewTinySVGPixels (pt_X (Max (Bounds img)) - pt_X (Min (Bounds img)))
                  (pt_Y (Max (Bounds img)) - pt_Y (Min (Bounds img)))) v
               (pt_X (Max (Bounds img)) - pt_X (Min (Bounds img)))
               (pt_Y (Max (Bounds img)) - pt_Y (Min (Bounds img)))) x y
          = Some (NewPixel img ix iy)) as Hat.
  { unfold pixel_at. simpl. rewrite list_lookup_fmap.
    rewrite grid_pixels_lookup by done. done. }
  split; [by eexists|].
  split.
  - by rewrite (At_in_grid _ _ _ _ Hwf (conj Hx Hy) Hat).
  - by rewrite (Covered_in_grid _ _ _ _ Hwf (conj Hx Hy) Hat).
Qed.

Lemma At_reads_the_image_witness :
  At sample_grid 2 1 = Ret (image_rgb sample_image 2 1) ∧
  Covered sample_grid 0 0 = Ret true.
Proof.
  split.
  - refine (proj1 (proj2 (proj2 (proj2 (At_reads_the_image sample_image false
              sample_grid [] 2 1 sample_image_ok _ _ _))))).
    + reflexivity.
    + simpl; lia.
    + simpl; lia.
  - reflexivity.
Defined.

(** X2: [At] checks the flat index [y*w + x] only, not the column.  When
    the index is within the slice the call returns the colour of the pixel
    at that index, which for [x] outside [0, w) is a pixel of another row;
    when it is not, the call panics. *)
Theorem At_checks_only_the_flat_index (pi : PixelImage) (x y : Z) :
  wf pi → is_int (y * w pi) → is_int (y * w pi + x) →
  let i := y * w pi + x in
  (0 ≤ i < w pi * h pi →
     in_grid pi (i mod w pi) (i / w pi) ∧
     returns (At pi x y) ∧
     At pi x y = At pi (i mod w pi) (i / w pi)) ∧
  (¬ 0 ≤ i < w pi * h pi → ∃ msg, At pi x y = Panic msg).
Proof.
  intros Hwf Hrow Hi i.
  assert (add (mul y (w pi)) x = i) as Hflat.
  { unfold add, mul. by rewrite (wrap_id _ Hrow), (wrap_id _ Hi). }
  pose proof (wf_w pi Hwf) as Hw. pose proof (wf_h pi Hwf) as Hh.
  pose proof (wf_length pi Hwf) as Hlen.
  split.
  - intros Hin.
    assert (0 < w pi) as Hpos by nia.
    assert (in_grid pi (i mod w pi) (i / w pi)) as Hgrid.
    { split; [by apply Z.mod_pos_bound|].
      split; [by apply Z.div_pos; lia|]. apply Z.div_lt_upper_bound; lia. }
    split; [done|].
    destruct (pixel_at_is_Some pi _ _ Hwf Hgrid) as [p Hp].
    assert (i / w pi * w pi + i mod w pi = i) as Hsame.
    { pose proof (Z.div_mod i (w pi)). lia. }
    assert (At pi x y = Ret (pr p, pg p, pb p)) as Hret.
    { unfold At. rewrite Hflat, <- Hsame, <- (cell_index pi _ _ Hwf Hgrid).
      by rewrite (read_cell pi _ _ p Hwf Hgrid Hp). }
    split; [by eexists|].
    by rewrite Hret, (At_in_grid pi _ _ p Hwf Hgrid Hp).
  - intros Hout. unfold At. rewrite Hflat. unfold index.
    destruct (i <? 0) eqn:Hneg; [by eexists|].
    apply Z.ltb_ge in Hneg.
    rewrite (lookup_ge_None_2 (pixels pi)) by lia. by eexists.
Qed.

Lemma At_checks_only_the_flat_index_witness :
  in_grid sample_grid 0 1 ∧ returns (At sample_grid 3 0) ∧
  At sample_grid 3 0 = At sample_grid 0 1.
Proof.
  refine (proj1 (At_checks_only_the_flat_index sample_grid 3 0 sample_grid_wf _ _) _).
  - unfold is_int, int_min, int_max; simpl; lia.
  - unfold is_int, int_min, int_max; simpl; lia.
  - simpl; lia.
Defined.
Lemma Done_loop_scan (ps : Pixels) :
  match Done_loop ps with
  | Ret true => ∀ o, o ∈ ps → ∃ p, o = Some p ∧ covered p = true
  | Ret false => ∃ i p, ps !! i = Some (Some p) ∧ covered p = false ∧
                        covered_prefix ps i
  | Panic _ => ∃ i, ps !! i = Some None ∧ covered_prefix ps i
  end.
Proof.
  induction ps as [|[p|] ps IH]; simpl.
  - intros o Ho. by apply elem_of_nil in Ho.
  - destruct (covered p) eqn:Hc; simpl.
    + destruct (Done_loop ps) as [[|]|msg].
      * intros o [->|Ho]%elem_of_cons; [by exists p|by apply IH].
      * destruct IH as (i & q & Hi & Hq & Hpre). exists (S i), q.
        split; [done|]. split; [done|].
        intros [|j] Hj; [by exists p|]. apply Hpre. lia.
      * destruct IH as (i & Hi & Hpre). exists (S i). split; [done|].
        intros [|j] Hj; [by exists p|]. apply Hpre. lia.
    + exists 0%nat, p. split; [done|]. split; [done|]. intros j Hj. lia.
  - exists 0%nat. split; [done|]. intros j Hj. lia.
Qed.

Lemma covered_prefix_first (ps : Pixels) i j o o' :
  covered_prefix ps i → covered_prefix ps j →
  ps !! i = Some o → ps !! j = Some o' →
  (∀ p, o = Some p → covered p = false) →
  (∀ p, o' = Some p → covered p = false) →
  i = j.
Proof.
  intros Hi Hj Hoi Hoj Hno Hno'.
  destruct (Nat.lt_trichotomy i j) as [Hlt|[->|Hlt]]; [|done|].
  - destruct (Hj i Hlt) as (p & Hp & Hc). rewrite Hoi in Hp.
    injection Hp as ->. rewrite (Hno p) in Hc; done.
  - destruct (Hi j Hlt) as (p & Hp & Hc). rewrite Hoj in Hp.
    injection Hp as ->. rewrite (Hno' p) in Hc; done.
Qed.

(** X3: [Done] scans the slice from the front.  It returns true exactly
    when every entry is a covered pixel, false exactly when the first entry
    that is not a covered pixel is an uncovered one, and it panics exactly
    when that entry is a nil pointer. *)
Theorem Done_scans_to_the_first_uncovered (pi : PixelImage) :
  (Done pi = Ret true ↔
     ∀ o, o ∈ pixels pi → ∃ p, o = Some p ∧ covered p = true) ∧
  (Done pi = Ret false ↔
     ∃ i p, pixels pi !! i = Some (Some p) ∧ covered p = false ∧
            covered_prefix (pixels pi) i) ∧
  ((∃ msg, Done pi = Panic msg) ↔
     ∃ i, pixels pi !! i = Some None ∧ covered_prefix (pixels pi) i).
Proof.
  unfold Done. pose proof (Done_loop_scan (pixels pi)) as Hscan.
  assert (Hall : (∀ o, o ∈ pixels pi → ∃ p, o = Some p ∧ covered p = true) →
                 ∀ i o, pixels pi !! i = Some o →
                        (∀ p, o = Some p → covered p = false) → False).
  { intros Hall i o Hi Hno. destruct (Hall o) as (p & -> & Hc).
    - by eapply list_elem_of_lookup_2.
    - rewrite (Hno p) in Hc; done. }
  assert (Hone : ∀ i j p, pixels pi !! i = Some (Some p) → covered p = false →
                   covered_prefix (pixels pi) i →
                   pixels pi !! j = Some None → covered_prefix (pixels pi) j →
                   False).
  { intros i j p Hi Hc Hpi Hj Hpj.
    assert (i = j) as ->.
    { eapply (covered_prefix_first (pixels pi)); eauto.
      - by intros q [= <-].
      - by intros q [=]. }
    congruence. }
  destruct (Done_loop (pixels pi)) as [[|]|msg].
  - split; [done|]. split.
    + split; [done|]. intros (i & p & Hi & Hc & _).
      exfalso. eapply Hall; eauto. by intros q [= <-].
    + split; [by intros [m [=]]|]. intros (i & Hi & _).
      exfalso. eapply Hall; eauto. by intros q [=].
  - destruct Hscan as (i & p & Hi & Hc & Hpre). split.
    + split; [done|]. intros Hcov. exfalso. eapply Hall; eauto. by intros q [= <-].
    + split; [split; [by intros _; exists i, p|done]|].
      split; [by intros [m [=]]|]. intros (j & Hj & Hpj). exfalso. eauto.
  - destruct Hscan as (i & Hi & Hpre). split.
    + split; [done|]. intros Hcov. exfalso. eapply Hall; eauto. by intros q [=].
    + split.
      * split; [done|]. intros (j & p & Hj & Hc & Hpj). exfalso. eauto.
      * split; [by intros _; exists i|by exists msg].
Qed.

(** X4: on a grid that [Done] reports fully covered, and so on a grid
    without pixels, [FirstUncovered] panics with its own message. *)
Theorem FirstUncovered_panics_when_Done (pi : PixelImage) :
  wf pi → Done pi = Ret true →
  FirstUncovered pi = Panic "All pixels are covered".
Proof.
  intros Hwf Hdone.
  destruct (FirstUncovered_spec pi Hwf) as [(x & y & _ & Hu & _)|[Hpanic _]];
    [|done].
  assert (Done pi = Ret false) as Hfalse by (apply Done_false; eauto).
  congruence.
Qed.

Lemma FirstUncovered_panics_when_Done_witness :
  FirstUncovered (mkPixelImage (cover_all (pixels sample_grid))
                    (page sample_grid) false 3 2)
  = Panic "All pixels are covered".
Proof.
  apply FirstUncovered_panics_when_Done.
  - apply (wf_step sample_grid); [exact sample_grid_wf|apply fmap_cover_step].
  - reflexivity.
Defined.
Lemma CoverAllPixels_loop_count (ps : Pixels) :
  allocated ps → ∀ svgTag n,
  0 ≤ n → n + Z.of_nat (length (uncovered_pixels ps)) ≤ int_max →
  CoverAllPixels_loop ps svgTag n =
  Ret (cover_all ps, emit svgTag (rect_of <$> uncovered_pixels ps),
       n + Z.of_nat (length (uncovered_pixels ps))).
Proof.
  induction 1 as [|o ps [p ->] Hall IH]; intros svgTag n Hn Hmax.
  - simpl. rewrite emit_nil. do 3 f_equal. lia.
  - rewrite uncovered_pixels_cons_Some in Hmax |- *. simpl.
    destruct (covered p) eqn:Hc; simpl in *.
    + rewrite IH by lia. simpl. by rewrite (cover_covered p Hc).
    + rewrite add_1 by (unfold int_max in *; lia).
      rewrite IH by lia. simpl. do 2 f_equal.
      * f_equal. unfold emit, Tag_Pixel, AddRect, rect_of. simpl.
        by rewrite <- app_assoc.
      * lia.
Qed.

Lemma cover_all_idemp (ps : Pixels) : cover_all (cover_all ps) = cover_all ps.
Proof.
  unfold cover_all. rewrite <- list_fmap_compose. apply list_fmap_ext.
  intros i [p|] _; done.
Qed.

(** X5: in verbose mode [CoverAllPixels] prints one line, and the number in
    it is the number of rectangles the call added: the number of pixels that
    were uncovered. *)
Theorem CoverAllPixels_reports_its_rectangles (pi : PixelImage) :
  allocated (pixels pi) → verbose pi = true →
  Z.of_nat (count_uncovered pi) ≤ int_max →
  ∃ pi',
    CoverAllPixels pi =
      Ret (pi', [EvPrintf "Covered %d pixels with 1x1 rectangles.
" [ArgInt (Z.of_nat (count_uncovered pi))]]) ∧
    length (tag_rects (page pi')) =
      (length (tag_rects (page pi)) + count_uncovered pi)%nat.
Proof.
  intros Hall Hv Hmax. unfold CoverAllPixels, count_uncovered in *.
  rewrite (CoverAllPixels_loop_count _ Hall) by lia. rewrite bind_Ret.
  cbn beta iota. rewrite Hv. eexists. split; [done|]. simpl.
  by rewrite length_app, length_fmap.
Qed.

Lemma CoverAllPixels_reports_its_rectangles_witness :
  ∃ pi',
    CoverAllPixels (mkPixelImage (pixels sample_grid) (page sample_grid) true 3 2) =
      Ret (pi', [EvPrintf "Covered %d pixels with 1x1 rectangles.
" [ArgInt 5]]) ∧
    length (tag_rects (page pi')) = 5%nat.
Proof.
  apply (CoverAllPixels_reports_its_rectangles
           (mkPixelImage (pixels sample_grid) (page sample_grid) true 3 2)).
  - unfold allocated. simpl. repeat constructor; eauto.
  - reflexivity.
  - vm_compute. discriminate.
Defined.

(** X6: [CoverAllPixels] is idempotent.  Called again on the grid it left,
    it adds no rectangle, changes no pixel and reports 0. *)
Theorem CoverAllPixels_again_adds_nothing (pi : PixelImage) :
  allocated (pixels pi) →
  ∃ pi' out,
    CoverAllPixels pi = Ret (pi', out) ∧
    CoverAllPixels pi' =
      Ret (pi', if verbose pi
                then [EvPrintf "Covered %d pixels with 1x1 rectangles.
" [ArgInt 0]]
                else []).
Proof.
  intros Hall. destruct (CoverAllPixels_spec pi Hall) as [out Hcover].
  eexists _, out. split; [exact Hcover|].
  unfold CoverAllPixels. simpl.
  rewrite (CoverAllPixels_loop_count _ (cover_all_allocated _ Hall));
    rewrite ?uncovered_pixels_fmap_cover; simpl;
    [|lia|unfold int_max; lia].
  rewrite cover_all_idemp, emit_nil. done.
Qed.

Lemma CoverAllPixels_again_adds_nothing_witness :
  ∃ pi' out,
    CoverAllPixels sample_grid = Ret (pi', out) ∧
    CoverAllPixels pi' = Ret (pi', []).
Proof.
  apply (CoverAllPixels_again_adds_nothing sample_grid).
  unfold allocated. simpl. repeat constructor; eauto.
Defined.

(** X7: the single-pixel conversion of an image.  [NewPixelImage] followed
    by [CoverAllPixels] adds to the page, in row-major order, one 1x1
    rectangle per pixel of alpha above 0; the rectangle stands at the
    coordinate the image gives the pixel, which is not shifted by
    [Bounds.Min], and has its red, green and blue. *)
Theorem single_pixel_rectangles_of_an_image (img : Image) (v : bool) :
  img_ok img →
  ∃ pi out pi' out',
    NewPixelImage img v = Ret (pi, out) ∧
    CoverAllPixels pi = Ret (pi', out') ∧
    tag_rects (page pi') =
      (λ c, mkRect c.1 c.2 1 1 (image_rgb img c.1 c.2)) <$>
        filter (opaque img) (image_cells img) ∧
    ∀ rc, rc ∈ tag_rects (page pi') →
      pt_X (Min (Bounds img)) ≤ rect_x rc < pt_X (Max (Bounds img)) ∧
      pt_Y (Min (Bounds img)) ≤ rect_y rc < pt_Y (Max (Bounds img)).
Proof.
  intros Hok. destruct (NewPixelImage_spec img v Hok) as [out Hnew].
  match type of Hnew with _ = Ret (?g, _) =>
    destruct (CoverAllPixels_spec g) as [out' Hcover]
  end.
  { simpl. apply Forall_fmap, Forall_forall. intros; simpl; eauto. }
  eexists _, out, _, out'. split; [exact Hnew|]. split; [exact Hcover|].
  simpl. rewrite uncovered_grid_pixels, <- list_fmap_compose. split; [done|].
  intros rc Hrc. apply list_elem_of_fmap in Hrc as ([x y] & -> & Hc).
  apply list_elem_of_filter in Hc as [_ Hc]. simpl.
  unfold image_cells in Hc. apply list_elem_of_bind in Hc as (y' & Hx & Hy).
  apply list_elem_of_fmap in Hx as (x' & [= -> ->] & Hx).
  unfold zrange in *. apply elem_of_seqZ in Hx, Hy. lia.
Qed.

Lemma single_pixel_rectangles_of_an_image_witness :
  ∃ pi out pi' out',
    NewPixelImage sample_image false = Ret (pi, out) ∧
    CoverAllPixels pi = Ret (pi', out') ∧
    tag_rects (page pi') =
      (λ c, mkRect c.1 c.2 1 1 (image_rgb sample_image c.1 c.2)) <$>
        filter (opaque sample_image) (image_cells sample_image) ∧
    ∀ rc, rc ∈ tag_rects (page pi') →
      pt_X (Min (Bounds sample_image)) ≤ rect_x rc < pt_X (Max (Bounds sample_image)) ∧
      pt_Y (Min (Bounds sample_image)) ≤ rect_y rc < pt_Y (Max (Bounds sample_image)).
Proof.
  apply (single_pixel_rectangles_of_an_image sample_image false).
  exact sample_image_ok.
Defined.
Lemma zrange_empty lo hi : hi ≤ lo → zrange lo hi = [].
Proof.
  intros Hle. unfold zrange, seqZ.
  replace (Z.to_nat (hi - lo)) with 0%nat by lia. done.
Qed.

(** X8: [NewPixelImage] does not check the bounds of the image.  With
    bounds inverted on one axis the slice cannot be made and the call
    panics; with bounds inverted on both axes the call returns a grid of
    [width*height] nil pointers, on which [Done] panics. *)
Theorem NewPixelImage_inverted_bounds (img : Image) (v : bool) :
  let width := pt_X (Max (Bounds img)) - pt_X (Min (Bounds img)) in
  let height := pt_Y (Max (Bounds img)) - pt_Y (Min (Bounds img)) in
  is_int width → is_int height → is_int (width * height) →
  (width * height < 0 → ∃ msg, NewPixelImage img v = Panic msg) ∧
  (width < 0 → height < 0 →
   ∃ pi out, NewPixelImage img v = Ret (pi, out) ∧
             pixels pi = replicate (Z.to_nat (width * height)) None ∧
             (0 < length (pixels pi))%nat ∧
             ∃ msg, Done pi = Panic msg).
Proof.
  intros width height Hw Hh Hwh. unfold NewPixelImage, sub, mul.
  fold width height. rewrite (wrap_id _ Hw), (wrap_id _ Hh), (wrap_id _ Hwh).
  unfold make_Pixels. split.
  - intros Hneg. apply Z.ltb_lt in Hneg. rewrite Hneg. by eexists.
  - intros Hwneg Hhneg.
    assert (0 < width * height) as Hpos by nia.
    destruct (width * height <? 0) eqn:Hlt; [apply Z.ltb_lt in Hlt; lia|].
    rewrite bind_Ret. rewrite (zrange_empty (pt_Y _)) by (unfold height in *; lia).
    simpl. eexists _, _. split; [done|]. simpl. split; [done|].
    rewrite length_replicate. split; [lia|].
    unfold Done. simpl.
    destruct (Z.to_nat (width * height)) as [|n] eqn:Hn; [lia|].
    simpl. by eexists.
Qed.

Lemma NewPixelImage_inverted_bounds_witness :
  (∃ msg, NewPixelImage (mkImage (mkRectangle (mkPoint 2 0) (mkPoint 0 3))
                           (λ _ _, opaque_red)) false = Panic msg) ∧
  (∃ pi out, NewPixelImage (mkImage (mkRectangle (mkPoint 2 3) (mkPoint 0 0))
                              (λ _ _, opaque_red)) false = Ret (pi, out) ∧
             pixels pi = replicate 6 None ∧
             (0 < length (pixels pi))%nat ∧
             ∃ msg, Done pi = Panic msg).
Proof.
  split.
  - refine (proj1 (NewPixelImage_inverted_bounds
             (mkImage (mkRectangle (mkPoint 2 0) (mkPoint 0 3)) (λ _ _, opaque_red))
             false _ _ _) _);
      unfold is_int, int_min, int_max; simpl; lia.
  - refine (proj2 (NewPixelImage_inverted_bounds
             (mkImage (mkRectangle (mkPoint 2 3) (mkPoint 0 0)) (λ _ _, opaque_red))
             false _ _ _) _ _);
      unfold is_int, int_min, int_max; simpl; lia.
Defined.
Lemma prefix_length (a s : string) :
  String.prefix a s = true → (String.length a ≤ String.length s)%nat.
Proof.
  intros [b ->]%prefix_inv. rewrite string_app_length. lia.
Qed.

Lemma Replace_from_length (old new : string) :
  (String.length new ≤ String.length old)%nat →
  ∀ s skip n,
  (String.length (GoStrings.Replace_from skip s old new n)
     + (skip `min` String.length s) ≤ String.length s)%nat.
Proof.
  intros Hnew. induction s as [|c s IH]; intros skip n.
  - simpl. lia.
  - cbn [GoStrings.Replace_from]. destruct skip as [|k].
    + destruct (negb (n =? 0) && String.prefix old (String c s)) eqn:Hp.
      * apply andb_true_iff in Hp as [_ Hp]. apply prefix_length in Hp.
        rewrite string_app_length. simpl in Hp |- *.
        specialize (IH (String.length old - 1)%nat (n - 1)). lia.
      * simpl. specialize (IH 0%nat n). lia.
    + specialize (IH k n). simpl. lia.
Qed.

Lemma rewrite_length doc r :
  (String.length r.2 ≤ String.length r.1)%nat →
  (String.length (rewrite doc r) ≤ String.length doc)%nat.
Proof.
  intros Hr. unfold rewrite, GoStrings.Replace. destruct r.1 as [|c old] eqn:Hold.
  - done.
  - pose proof (Replace_from_length (String c old) r.2 Hr doc 0 (-1)). lia.
Qed.

Lemma foldl_rewrite_length rs :
  Forall (λ r, (String.length r.2 ≤ String.length r.1)%nat) rs →
  ∀ doc, (String.length (foldl rewrite doc rs) ≤ String.length doc)%nat.
Proof.
  induction 1 as [|r rs Hr _ IH]; intros doc; simpl; [done|].
  etrans; [apply IH|]. by apply rewrite_length.
Qed.

(** X9: the textual minimization never lengthens a document.  Every
    rewrite of [String] puts a text in the place of a longer one, so the
    result is no longer than the document was before the first rewrite, or
    after any number of them. *)
Theorem minimize_never_lengthens (svgDocument : string) :
  (String.length (minimize svgDocument) ≤ String.length svgDocument)%nat ∧
  ∀ n, (String.length (minimize svgDocument)
          ≤ String.length (foldl rewrite svgDocument (take n rewrites)))%nat.
Proof.
  assert (Hall : Forall (λ r, (String.length r.2 ≤ String.length r.1)%nat) rewrites).
  { unfold rewrites. repeat constructor; simpl; lia. }
  split.
  - by apply foldl_rewrite_length.
  - intros n. unfold minimize.
    rewrite <- (take_drop n rewrites) at 1. rewrite foldl_app.
    apply foldl_rewrite_length. rewrite <- (take_drop n rewrites) in Hall.
    by apply Forall_app in Hall as [_ Hdrop].
Qed.
Lemma free_of_app c (a b : string) :
  free_of c a → free_of c b → free_of c (a +:+ b).
Proof.
  unfold free_of. induction a as [|x a IH]; intros Ha Hb; [done|].
  rewrite string_app_cons. simpl in *.
  apply andb_true_iff in Ha as [Hx Ha]. rewrite Hx. simpl. by apply IH.
Qed.

Lemma Replace_from_free c (old new : string) :
  free_of c new →
  ∀ s skip n, free_of c s → free_of c (GoStrings.Replace_from skip s old new n).
Proof.
  intros Hnew. induction s as [|x s IH]; intros skip n Hs; [done|].
  cbn [GoStrings.Replace_from].
  assert (free_of c s ∧ negb (bool_decide (x = c)) = true) as [Hs' Hx].
  { unfold free_of in *. simpl in Hs. by apply andb_true_iff in Hs as [? ?]. }
  destruct skip as [|k]; [|by apply IH].
  destruct (negb (n =? 0) && String.prefix old (String x s)).
  - apply free_of_app; [done|by apply IH].
  - unfold free_of. simpl. rewrite Hx. simpl. by apply IH.
Qed.

Lemma Replace_from_removes c :
  ∀ s skip n, n < 0 →
  free_of c (GoStrings.Replace_from skip s (String c "") "" n).
Proof.
  induction s as [|x s IH]; intros skip n Hn; [done|].
  cbn [GoStrings.Replace_from]. destruct skip as [|k]; [|by apply IH].
  assert ((n =? 0) = false) as -> by (apply Z.eqb_neq; lia).
  simpl. destruct (ascii_dec c x) as [->|Hne].
  - destruct s; rewrite string_app_nil_l; apply IH; lia.
  - unfold free_of. simpl.
    rewrite bool_decide_eq_false_2 by congruence. simpl. apply IH. lia.
Qed.

Lemma foldl_rewrite_free c rs :
  Forall (λ r : string * string, free_of c r.2) rs →
  ∀ doc, free_of c doc → free_of c (foldl rewrite doc rs).
Proof.
  induction 1 as [|r rs Hr _ IH]; intros doc Hdoc; simpl; [done|].
  apply IH. unfold rewrite, GoStrings.Replace.
  destruct r.1; [done|]. by apply Replace_from_free.
Qed.

Lemma Contains_free c (s : string) :
  free_of c s → GoStrings.Contains s (String c "") = false.
Proof.
  unfold free_of. induction s as [|x s IH]; intros Hs; [done|].
  simpl in *. apply andb_true_iff in Hs as [Hx Hs]. rewrite (IH Hs).
  destruct (ascii_dec c x) as [->|Hne].
  - by rewrite bool_decide_eq_true_2 in Hx.
  - done.
Qed.

Lemma minimize_free_of_newline doc : free_of newline_char (minimize doc).
Proof.
  unfold minimize.
  change (free_of newline_char
            (foldl rewrite (rewrite doc (newline, "")) (drop 1 rewrites))).
  apply foldl_rewrite_free.
  - repeat constructor.
  - apply (Replace_from_removes newline_char). lia.
Qed.

(** X10: the document [String] returns is a single line: whatever the
    page text, no line break is left in it. *)
Theorem String_returns_a_single_line (world : World) (pi : PixelImage)
    (svgDocument : string) :
  PixelImage_String world pi = Ret svgDocument →
  GoStrings.Contains svgDocument "
" = false.
Proof.
  unfold PixelImage_String, String_of. intros Hdoc.
  destruct (groupLinesByFillColor _ _) as [lines|msg]; [|done].
  rewrite bind_Ret in Hdoc. injection Hdoc as <-.
  apply (Contains_free newline_char), minimize_free_of_newline.
Qed.

Lemma String_returns_a_single_line_witness :
  ∃ svgDocument,
    PixelImage_String sample_world sample_grid = Ret svgDocument ∧
    GoStrings.Contains svgDocument "
" = false.
Proof.
  eexists. split; [reflexivity|].
  apply (String_returns_a_single_line sample_world sample_grid). reflexivity.
Defined.
Lemma Fields_from_true_cons s : ∃ f r, GoStrings.Fields_from true s = f :: r.
Proof.
  destruct s as [|c s]; simpl; [by eexists _, _|].
  destruct (Ascii.is_space c); [by eexists _, _|].
  destruct (GoStrings.Fields_from true s); by eexists _, _.
Qed.

Lemma Fields_from_app_space sp (t : string) :
  Ascii.is_space sp = true →
  ∀ (a : string) b,
  GoStrings.Fields_from b (a +:+ String sp t) =
  GoStrings.Fields_from b a ++ GoStrings.Fields_from false t.
Proof.
  intros Hsp. induction a as [|c a IH]; intros b.
  - rewrite string_app_nil_l. simpl. rewrite Hsp. by destruct b.
  - rewrite string_app_cons. simpl. destruct (Ascii.is_space c).
    + rewrite IH. by destruct b.
    + rewrite IH. by destruct (Fields_from_true_cons a) as (f & r & ->).
Qed.

Lemma Fields_from_run (t rest : string) :
  string_forall (λ c, negb (Ascii.is_space c)) t = true → t ≠ "" →
  ∀ b, ∃ f r, GoStrings.Fields_from true rest = f :: r ∧
              GoStrings.Fields_from b (t +:+ rest) = (t +:+ f) :: r.
Proof.
  induction t as [|x t IH]; intros Ht Hne b; [done|].
  simpl in Ht. apply andb_true_iff in Ht as [Hx Ht].
  apply negb_true_iff in Hx. rewrite string_app_cons. simpl. rewrite Hx.
  destruct t as [|y t].
  - rewrite string_app_nil_l.
    destruct (Fields_from_true_cons rest) as (f & r & Hf). rewrite Hf.
    by exists f, r.
  - destruct (IH Ht ltac:(done) true) as (f & r & Hf & ->). by exists f, r.
Qed.

Lemma Fields_from_true_head (rest : string) :
  token_end rest →
  ∃ f r, GoStrings.Fields_from true rest = f :: r ∧
         (f = "" ∨ ∃ f', f = String quote_char f').
Proof.
  destruct rest as [|c rest]; simpl; intros Hend.
  - eexists _, _. split; [done|]. by left.
  - destruct (Ascii.is_space c) eqn:Hsp.
    + eexists _, _. split; [done|]. by left.
    + unfold token_char in Hend. rewrite Hsp in Hend. simpl in Hend.
      apply negb_false_iff, bool_decide_eq_true in Hend as ->.
      destruct (Fields_from_true_cons rest) as (f & r & ->).
      eexists _, _. split; [done|]. right. by eexists.
Qed.

Lemma Split_from_quote x (s : string) :
  GoStrings.Split_from 0 (String x s) quote =
  if decide (x = quote_char) then "" :: GoStrings.Split_from 0 s quote
  else match GoStrings.Split_from 0 s quote with
       | piece :: rest => String x piece :: rest
       | [] => [String x ""]
       end.
Proof.
  unfold quote. cbn [GoStrings.Split_from String.prefix String.length Nat.sub].
  destruct (ascii_dec "034"%char x) as [<-|Hne].
  - rewrite decide_True by done. by destruct s.
  - rewrite decide_False; [done|]. unfold quote_char. congruence.
Qed.

Lemma free_of_cons c x (s : string) :
  free_of c (String x s) ↔ x ≠ c ∧ free_of c s.
Proof.
  unfold free_of. simpl. rewrite andb_true_iff, negb_true_iff.
  by rewrite bool_decide_eq_false.
Qed.

Lemma Split_quote_cons (a b : string) :
  free_of quote_char a →
  GoStrings.Split (a +:+ String quote_char b) quote =
  a :: GoStrings.Split b quote.
Proof.
  unfold GoStrings.Split. induction a as [|x a IH]; intros Ha.
  - rewrite string_app_nil_l, Split_from_quote. by rewrite decide_True.
  - apply free_of_cons in Ha as [Hx Ha].
    rewrite string_app_cons, Split_from_quote, decide_False by done.
    by rewrite (IH Ha).
Qed.

Lemma Split_quote_free (a : string) :
  free_of quote_char a → GoStrings.Split a quote = [a].
Proof.
  unfold GoStrings.Split. induction a as [|x a IH]; intros Ha; [done|].
  apply free_of_cons in Ha as [Hx Ha].
  rewrite Split_from_quote, decide_False by done. by rewrite (IH Ha).
Qed.

Lemma token_free c : token c → free_of quote_char c.
Proof.
  unfold token, free_of. induction c as [|x c IH]; [done|]. simpl.
  intros [Hx Hc]%andb_true_iff. rewrite (IH Hc).
  unfold token_char in Hx. apply andb_true_iff in Hx as [_ ->]. done.
Qed.

Lemma token_run c :
  token c → string_forall (λ c, negb (Ascii.is_space c)) c = true.
Proof.
  unfold token. induction c as [|x c IH]; [done|]. simpl.
  intros [Hx Hc]%andb_true_iff. rewrite (IH Hc).
  unfold token_char in Hx. apply andb_true_iff in Hx as [-> _]. done.
Qed.

Lemma string_forall_app P (a b : string) :
  string_forall P (a +:+ b) = string_forall P a && string_forall P b.
Proof.
  induction a as [|x a IH]; [done|]. rewrite string_app_cons. simpl.
  by rewrite IH, andb_assoc.
Qed.

Lemma Contains_unfold (t s : string) :
  GoStrings.Contains t s =
  String.prefix s t ||
  match t with
  | "" => false
  | String _ t' => GoStrings.Contains t' s
  end.
Proof. by destruct t. Qed.

Lemma Contains_app (a s b : string) :
  GoStrings.Contains (a +:+ s +:+ b) s = true.
Proof.
  induction a as [|x a IH].
  - by rewrite string_app_nil_l, Contains_unfold, prefix_app.
  - rewrite string_app_cons, Contains_unfold, IH. apply orb_true_r.
Qed.

Lemma colorFromLine_fields_first (before : list string) field after :
  Forall (λ field, GoStrings.HasPrefix field "fill=" = false) before →
  GoStrings.HasPrefix field "fill=" = true →
  colorFromLine_fields (before ++ field :: after) =
  index (GoStrings.Split field quote) 1.
Proof.
  intros Hbefore Hfield. induction Hbefore as [|f fs Hf _ IH]; simpl.
  - by rewrite Hfield.
  - by rewrite Hf.
Qed.

(** The fields of a line up to and including its first field that starts
    with [fill=]. *)
Lemma colorFromLine_first_fill (pre value rest : string) :
  no_fill_field pre →
  string_forall (λ c, negb (Ascii.is_space c)) value = true →
  GoStrings.Contains (pre +:+ " fill=" +:+ value +:+ rest) (" fill=" +:+ quote) = true →
  ∃ f r, GoStrings.Fields_from true rest = f :: r ∧
         colorFromLine (pre +:+ " fill=" +:+ value +:+ rest) =
         index (GoStrings.Split ("fill=" +:+ value +:+ f) quote) 1.
Proof.
  intros Hpre Hvalue Hcontains. unfold colorFromLine. rewrite Hcontains. simpl.
  unfold GoStrings.Fields.
  change (" fill=" +:+ value +:+ rest)
    with (String " " ("fill=" +:+ value +:+ rest)).
  rewrite (Fields_from_app_space " ") by done.
  rewrite <- string_app_assoc.
  destruct (Fields_from_run ("fill=" +:+ value) rest) with (b := false)
    as (f & r & Hf & ->).
  { by rewrite string_forall_app, Hvalue. }
  { done. }
  exists f, r. split; [done|].
  rewrite colorFromLine_fields_first; [by rewrite string_app_assoc|done|].
  unfold GoStrings.HasPrefix. rewrite string_app_assoc. apply prefix_app.
Qed.
(** X11: what [colorFromLine] reads.  On a line of ASCII text whose first
    field beginning with [fill=] is [fill=], a quote and a value, the call
    returns the value: the bytes after that quote up to the next quote or
    the next white space, whichever comes first, or up to the end of the
    line. *)
Theorem colorFromLine_reads_the_first_fill (pre c rest : string) :
  ascii_text (pre +:+ " fill=" +:+ quote +:+ c +:+ rest) →
  no_fill_field pre → token c → token_end rest →
  colorFromLine (pre +:+ " fill=" +:+ quote +:+ c +:+ rest) = Ret c.
Proof.
  intros _ Hpre Hc Hend.
  destruct (colorFromLine_first_fill pre (quote +:+ c) rest Hpre)
    as (f & r & Hf & Hline).
  { change (quote +:+ c) with (String quote_char c). simpl.
    by rewrite (token_run c Hc). }
  { replace (pre +:+ " fill=" +:+ (quote +:+ c) +:+ rest)
      with (pre +:+ (" fill=" +:+ quote) +:+ (c +:+ rest))
      by (by rewrite !string_app_assoc).
    apply Contains_app. }
  rewrite !(string_app_assoc quote) in Hline. rewrite Hline.
  change ("fill=" +:+ quote +:+ c +:+ f)
    with ("fill=" +:+ String quote_char (c +:+ f)).
  rewrite Split_quote_cons by done.
  destruct (Fields_from_true_head rest Hend) as (f0 & r0 & Hf0 & Hshape).
  rewrite Hf in Hf0. injection Hf0 as <- <-.
  destruct Hshape as [->|[f' ->]].
  - rewrite string_app_nil_r, Split_quote_free by by apply token_free. done.
  - rewrite Split_quote_cons by by apply token_free. done.
Qed.

Lemma colorFromLine_reads_the_first_fill_witness :
  colorFromLine
    (("<rect width=" +:+ quote +:+ "1" +:+ quote) +:+ " fill=" +:+ quote +:+
     "rgb(1," +:+ (" 2, 3)" +:+ quote +:+ " />"))
  = Ret "rgb(1,".
Proof.
  apply (colorFromLine_reads_the_first_fill
           ("<rect width=" +:+ quote +:+ "1" +:+ quote) "rgb(1,"
           (" 2, 3)" +:+ quote +:+ " />")).
  - reflexivity.
  - unfold no_fill_field. vm_compute. repeat constructor.
  - reflexivity.
  - reflexivity.
Defined.

(** X12: [colorFromLine] indexes the pieces of the field without looking
    at their number.  On a line that has the text of a quoted fill somewhere
    but whose first field beginning with [fill=] holds no quote, the call
    panics. *)
Theorem colorFromLine_panics_without_a_quote (pre v rest : string) :
  ascii_text (pre +:+ " fill=" +:+ v +:+ " fill=" +:+ quote +:+ rest) →
  no_fill_field pre → token v →
  ∃ msg,
    colorFromLine (pre +:+ " fill=" +:+ v +:+ " fill=" +:+ quote +:+ rest)
    = Panic msg.
Proof.
  intros _ Hpre Hv.
  destruct (colorFromLine_first_fill pre v (" fill=" +:+ quote +:+ rest) Hpre)
    as (f & r & Hf & Hline).
  { by apply token_run. }
  { replace (pre +:+ " fill=" +:+ v +:+ " fill=" +:+ quote +:+ rest)
      with ((pre +:+ " fill=" +:+ v) +:+ (" fill=" +:+ quote) +:+ rest)
      by (by rewrite !string_app_assoc).
    apply Contains_app. }
  rewrite Hline. simpl in Hf. injection Hf as <- _.
  rewrite string_app_nil_r, Split_quote_free.
  - by eexists.
  - apply (free_of_app _ "fill="); [done|by apply token_free].
Qed.

Lemma colorFromLine_panics_without_a_quote_witness :
  ∃ msg,
    colorFromLine ("<rect" +:+ " fill=" +:+ "red" +:+ " fill=" +:+ quote +:+
                   ("blue" +:+ quote +:+ "/>"))
    = Panic msg.
Proof.
  apply (colorFromLine_panics_without_a_quote "<rect" "red"
           ("blue" +:+ quote +:+ "/>")).
  - reflexivity.
  - unfold no_fill_field. vm_compute. repeat constructor.
  - reflexivity.
Defined.
Lemma groupLines_collect_outcome (lines : list string) :
  ∀ m0,
  match groupLines_collect lines m0 with
  | Ret _ => Forall (λ line, returns (colorFromLine line)) lines
  | Panic msg =>
      ∃ i line, lines !! i = Some line ∧ colorFromLine line = Panic msg ∧
                Forall (λ l, returns (colorFromLine l)) (take i lines)
  end.
Proof.
  induction lines as [|line lines IH]; intros m0; simpl; [done|].
  destruct (colorFromLine line) as [c|msg] eqn:Hline; simpl.
  - destruct (decide (c = "")).
    + specialize (IH m0). destruct (groupLines_collect lines m0) as [[rest m]|msg].
      * simpl. constructor; [by eexists|done].
      * simpl. destruct IH as (i & l & Hi & Hl & Hbefore).
        exists (S i), l. split; [done|]. split; [done|].
        simpl. constructor; [by eexists|done].
    + specialize (IH (<[c:=default [] (m0 !! c) ++ [line]]> m0)).
      destruct (groupLines_collect lines _) as [[rest m]|msg].
      * simpl. constructor; [by eexists|done].
      * simpl. destruct IH as (i & l & Hi & Hl & Hbefore).
        exists (S i), l. split; [done|]. split; [done|].
        simpl. constructor; [by eexists|done].
  - exists 0%nat, line. split; [done|]. split; [done|]. simpl. constructor.
Qed.

Lemma first_panic_unique (lines : list string) i j li lj mi mj :
  lines !! i = Some li → colorFromLine li = Panic mi →
  Forall (λ l, returns (colorFromLine l)) (take i lines) →
  lines !! j = Some lj → colorFromLine lj = Panic mj →
  Forall (λ l, returns (colorFromLine l)) (take j lines) →
  mi = mj.
Proof.
  intros Hi Hli Hbi Hj Hlj Hbj.
  destruct (Nat.lt_trichotomy i j) as [Hlt|[->|Hlt]].
  - rewrite Forall_lookup in Hbj.
    destruct (Hbj i li) as [c Hc]; [by rewrite lookup_take_lt|congruence].
  - congruence.
  - rewrite Forall_lookup in Hbi.
    destruct (Hbi j lj) as [c Hc]; [by rewrite lookup_take_lt|congruence].
Qed.

(** X13: how the grouping pass fails.  [groupLinesByFillColor] returns
    exactly when [colorFromLine] returns on every line; otherwise it panics
    as [colorFromLine] does on the first line on which it panics.  The order
    of [range] plays no part in this. *)
Theorem groupLinesByFillColor_panics_with_the_first_line
    (range : range_order) (lines : list string) :
  (returns (groupLinesByFillColor range lines) ↔
     Forall (λ line, returns (colorFromLine line)) lines) ∧
  (∀ msg, groupLinesByFillColor range lines = Panic msg ↔
     ∃ i line, lines !! i = Some line ∧ colorFromLine line = Panic msg ∧
               Forall (λ l, returns (colorFromLine l)) (take i lines)).
Proof.
  rewrite groupLinesByFillColor_unfold.
  pose proof (groupLines_collect_outcome lines ∅) as Hout.
  destruct (groupLines_collect lines ∅) as [[erased m]|msg0]; simpl.
  - split.
    + split; [done|]. intros _. by eexists.
    + intros msg. split; [done|]. intros (i & line & Hi & Hline & _).
      rewrite Forall_lookup in Hout. destruct (Hout i line Hi) as [c Hc].
      congruence.
  - destruct Hout as (i & line & Hi & Hline & Hbefore). split.
    + split; [by intros [a [=]]|]. intros Hall.
      rewrite Forall_lookup in Hall. destruct (Hall i line Hi) as [c Hc].
      congruence.
    + intros msg. split.
      * intros [= <-]. by exists i, line.
      * intros (j & lj & Hj & Hlj & Hbj). f_equal.
        by eapply (first_panic_unique lines i j).
Qed.
Lemma erase_blank line : erase line = "" ↔ line = "" ∨ filled line.
Proof.
  unfold erase, filled. destruct (decide (fill_of line = "")) as [He|Hne].
  - split; [by left|]. by intros [->|?].
  - split; [by right|done].
Qed.

(** X14: where the groups go.  The third loop of [groupLinesByFillColor]
    writes the [<g>] elements over the first line that is empty or carries a
    fill colour, which is an empty line of the input when one comes before
    the first rectangle.  The lines before it are kept and the lines after
    it are blanked or kept as the first loop left them. *)
Theorem groups_replace_the_first_blank_line
    (range : range_order) (lines : list string) (i : nat) (line : string) :
  range_order_ok range →
  Forall (λ line, returns (colorFromLine line)) lines →
  lines !! i = Some line → line = "" ∨ filled line →
  (∀ j l, (j < i)%nat → lines !! j = Some l → l ≠ "" ∧ ¬ filled l) →
  ∃ keys out,
    keys ≡ₚ fill_colors lines ∧
    groupLinesByFillColor range lines = Ret out ∧
    out !! i = Some (String.concat ""
                       ((λ key, group_element (members lines key) key) <$> keys)) ∧
    (∀ j, (j < i)%nat → out !! j = lines !! j) ∧
    (∀ j, (i < j)%nat → out !! j = erase <$> lines !! j).
Proof.
  intros Hrange Hret Hi Hline Hbefore.
  destruct (groupLinesByFillColor_spec range lines Hrange Hret)
    as (keys & Hkeys & Hout).
  exists keys. eexists. split; [done|]. split; [exact Hout|].
  set (contents := String.concat ""
         ((λ key, group_element (members lines key) key) <$> keys)).
  assert ((erase <$> lines) !! i = Some "") as Hblank.
  { rewrite list_lookup_fmap, Hi. simpl. f_equal. by apply erase_blank. }
  destruct (groupLines_insert_spec (erase <$> lines) contents)
    as [[Hnone _]|(i0 & Hi0 & Hfirst & ->)].
  { destruct Hnone. by eapply list_elem_of_lookup_2. }
  assert (i0 = i) as ->.
  { destruct (Nat.lt_trichotomy i0 i) as [Hlt|[->|Hlt]]; [|done|].
    - rewrite list_lookup_fmap in Hi0.
      destruct (lines !! i0) as [l|] eqn:Hl; [|done].
      injection Hi0 as Hl0. apply erase_blank in Hl0.
      destruct (Hbefore i0 l Hlt Hl) as [Hne Hunfilled]. tauto.
    - by destruct (Hfirst i Hlt). }
  split; [|split].
  - apply list_lookup_insert_eq. by eapply lookup_lt_Some.
  - intros j Hj. rewrite list_lookup_insert_ne by lia.
    rewrite list_lookup_fmap. destruct (lines !! j) as [l|] eqn:Hl; [|done].
    simpl. f_equal. destruct (Hbefore j l Hj Hl) as [_ Hunfilled].
    unfold erase, filled in *. destruct (decide (fill_of l = "")); tauto.
  - intros j Hj. rewrite list_lookup_insert_ne by lia.
    by rewrite list_lookup_fmap.
Qed.

Lemma groups_replace_the_first_blank_line_witness :
  ∃ keys out,
    keys ≡ₚ fill_colors ["<svg>"; ""; rect_line "0" "0" "#00ff00"; "</svg>"] ∧
    groupLinesByFillColor map_keys
      ["<svg>"; ""; rect_line "0" "0" "#00ff00"; "</svg>"] = Ret out ∧
    out !! 1%nat =
      Some (String.concat ""
              ((λ key, group_element
                         (members ["<svg>"; ""; rect_line "0" "0" "#00ff00"; "</svg>"]
                                  key) key) <$> keys)) ∧
    (∀ j, (j < 1)%nat →
          out !! j = ["<svg>"; ""; rect_line "0" "0" "#00ff00"; "</svg>"] !! j) ∧
    (∀ j, (1 < j)%nat →
          out !! j =
          erase <$> ["<svg>"; ""; rect_line "0" "0" "#00ff00"; "</svg>"] !! j).
Proof.
  apply (groups_replace_the_first_blank_line map_keys
           ["<svg>"; ""; rect_line "0" "0" "#00ff00"; "</svg>"] 1 "").
  - exact map_keys_ok.
  - repeat constructor; by eexists.
  - reflexivity.
  - by left.
  - intros [|j] l Hj Hl; [|lia]. injection Hl as <-. split; [done|].
    unfold filled. vm_compute. congruence.
Defined.
Lemma Split_from_newline x (s : string) :
  GoStrings.Split_from 0 (String x s) newline =
  if decide (x = newline_char) then "" :: GoStrings.Split_from 0 s newline
  else match GoStrings.Split_from 0 s newline with
       | piece :: rest => String x piece :: rest
       | [] => [String x ""]
       end.
Proof.
  unfold newline. cbn [GoStrings.Split_from String.prefix String.length Nat.sub].
  destruct (ascii_dec newline_char x) as [<-|Hne].
  - rewrite decide_True by done. by destruct s.
  - rewrite decide_False; [done|]. congruence.
Qed.

Lemma Split_from_cons (s sep : string) :
  ∀ skip, ∃ piece rest, GoStrings.Split_from skip s sep = piece :: rest.
Proof.
  induction s as [|x s IH]; intros skip; [by eexists _, _|].
  cbn [GoStrings.Split_from]. destruct skip as [|k]; [|apply IH].
  destruct (String.prefix sep (String x s)); [by eexists _, _|].
  destruct (IH 0%nat) as (piece & rest & ->). by eexists _, _.
Qed.

Lemma concat_cons_cons sep (a b : string) (l : list string) :
  String.concat sep (a :: b :: l) = a +:+ sep +:+ String.concat sep (b :: l).
Proof. done. Qed.

(** Joining the lines of a text gives the text back. *)
Lemma Join_Split_newline (s : string) :
  GoStrings.Join (GoStrings.Split s newline) newline = s.
Proof.
  unfold GoStrings.Join, GoStrings.Split. induction s as [|x s IH]; [done|].
  rewrite Split_from_newline.
  destruct (Split_from_cons s newline 0) as (piece & rest & Hs).
  rewrite Hs in IH |- *. destruct (decide (x = newline_char)) as [->|Hne].
  - by rewrite concat_cons_cons, IH.
  - destruct rest as [|piece' rest]; [by rewrite <- IH|].
    by rewrite concat_cons_cons, string_app_cons, <- concat_cons_cons, IH.
Qed.

(** X15: a page without rectangles.  When no line of the page text carries
    a fill colour, the grouping pass changes nothing and [String] returns
    the textual minimization of the page text itself. *)
Theorem String_of_a_page_without_fills (range : range_order) (svgDocument : string) :
  range_order_ok range →
  Forall (λ line, colorFromLine line = Ret "") (GoStrings.Split svgDocument "
") →
  groupLinesByFillColor range (GoStrings.Split svgDocument "
") = Ret (GoStrings.Split svgDocument "
") ∧
  String_of range svgDocument = Ret (minimize svgDocument).
Proof.
  intros Hrange Hnone.
  set (lines := GoStrings.Split svgDocument "
") in *.
  assert (Forall (λ line, returns (colorFromLine line)) lines) as Hret.
  { eapply Forall_impl; [exact Hnone|]. intros line Hline. simpl in *.
    rewrite Hline. by eexists. }
  assert (filter filled lines = []) as Hnofill.
  { clear Hret. induction Hnone as [|line ls Hline _ IH]; [done|].
    rewrite filter_cons_False; [done|].
    unfold filled, fill_of. rewrite Hline. tauto. }
  destruct (groupLinesByFillColor_spec range lines Hrange Hret)
    as (keys & Hkeys & Hout).
  assert (keys = []) as ->.
  { apply Permutation_nil_r. rewrite Hkeys. unfold fill_colors.
    replace (filter (λ c, c ≠ "") (fill_of <$> lines)) with (@nil string); [done|].
    clear Hret Hnofill Hkeys Hout. symmetry.
    induction Hnone as [|line ls Hline _ IH]; [done|].
    rewrite fmap_cons, filter_cons_False; [done|].
    unfold fill_of. rewrite Hline. tauto. }
  simpl in Hout. rewrite (erase_unfilled lines Hnofill) in Hout.
  assert (groupLines_insert lines "" false = lines) as Hsame.
  { destruct (groupLines_insert_spec lines "")
      as [[_ ->]|(i & Hi & _ & ->)]; [done|]. by apply list_insert_id. }
  rewrite Hsame in Hout. split; [done|].
  unfold String_of. fold lines. rewrite Hout, bind_Ret. cbn zeta.
  do 2 f_equal. apply Join_Split_newline.
Qed.

Lemma String_of_a_page_without_fills_witness :
  groupLinesByFillColor map_keys (GoStrings.Split (Page_String sample_world (page sample_grid)) "
") = Ret (GoStrings.Split (Page_String sample_world (page sample_grid)) "
") ∧
  String_of map_keys (Page_String sample_world (page sample_grid)) =
  Ret (minimize (Page_String sample_world (page sample_grid))).
Proof.
  apply (String_of_a_page_without_fills map_keys
           (Page_String sample_world (page sample_grid))).
  - exact map_keys_ok.
  - vm_compute. repeat constructor.
Defined.
(** X16: [WriteSVG] closes the file it created, and nothing else.  A file
    is only created under the given name, and never when the name is [-];
    once it was created, closing it is the last thing the call does, also
    when the write failed, and it is closed once.  When no file was created
    nothing is closed: standard output stays open. *)
Theorem WriteSVG_closes_the_file_it_created (world : World) (pi : PixelImage)
    (filename : string) (err : option error) (out : list event) :
  WriteSVG world pi filename = Ret (err, out) →
  (∀ f e, EvCreate f e ∈ out → f = filename ∧ filename ≠ "-") ∧
  (EvCreate filename None ∈ out →
     last out = Some (EvClose filename) ∧
     filter (λ e, is_close e = true) out = [EvClose filename]) ∧
  (¬ EvCreate filename None ∈ out →
     filter (λ e, is_close e = true) out = []).
Proof.
  unfold WriteSVG.
  destruct (Done pi) as [[|]|msg]; simpl; [| |done].
  2: { intros [= <- <-]. split; [|split]; [| |done].
       - intros f e Hin. by apply elem_of_nil in Hin.
       - intros Hin. by apply elem_of_nil in Hin. }
  destruct (decide (filename = "-")) as [->|Hname]; simpl.
  - destruct (PixelImage_String world pi) as [doc|msg]; simpl; [|done].
    destruct (File_WriteString world Stdout doc) as [n [e|]];
      destruct (verbose pi); simpl; intros [= <- <-].
    all: split; [|split]; [| |done].
    all: try (intros f e' Hin; exfalso; revert Hin;
              rewrite ?elem_of_cons, elem_of_nil; intuition discriminate).
    all: intros Hin; exfalso; revert Hin;
         rewrite ?elem_of_cons, elem_of_nil; intuition discriminate.
  - destruct (os_Create world filename) as [ce|] eqn:Hc; simpl.
    + destruct (verbose pi); simpl; intros [= <- <-].
      all: split; [|split]; [| |done].
      all: try (intros f e' Hin; revert Hin;
                rewrite ?elem_of_cons, elem_of_nil;
                intros Hin; decompose [or] Hin; by simplify_eq).
      all: intros Hin; exfalso; revert Hin;
           rewrite ?elem_of_cons, elem_of_nil; intuition discriminate.
    + destruct (PixelImage_String world pi) as [doc|msg]; simpl; [|done].
      destruct (File_WriteString world (File filename) doc) as [n [e|]];
        destruct (verbose pi); simpl; intros [= <- <-].
      all: split; [|split]; [|done|].
      all: try (intros f e' Hin; revert Hin;
                rewrite ?elem_of_cons, elem_of_nil;
                intros Hin; decompose [or] Hin; by simplify_eq).
      all: intros Hnot; exfalso; apply Hnot;
           rewrite ?elem_of_cons; auto.
Qed.

Lemma WriteSVG_closes_the_file_it_created_witness :
  ∃ err out,
    WriteSVG sample_world (mkPixelImage (cover_all (pixels sample_grid))
                             (page sample_grid) false 3 2) "out.svg"
      = Ret (err, out) ∧
    EvCreate "out.svg" None ∈ out ∧
    last out = Some (EvClose "out.svg") ∧
    filter (λ e, is_close e = true) out = [EvClose "out.svg"].
Proof.
  eexists _, _. split; [cbv; reflexivity|]. split; [rewrite !elem_of_cons; auto|].
  refine (proj1 (proj2 (WriteSVG_closes_the_file_it_created sample_world
            (mkPixelImage (cover_all (pixels sample_grid))
               (page sample_grid) false 3 2) "out.svg" _ _ _)) _).
  - reflexivity.
  - rewrite !elem_of_cons; auto.
Defined.

(** X17: the verbose flag only adds prints.  [WriteSVG] on the same grid
    without the flag returns the same error and does the same things but for
    the prints of progress: the same file created, the same document
    written, the same file closed. *)
Theorem WriteSVG_verbose_only_adds_prints (world : World) (pi : PixelImage)
    (filename : string) (err : option error) (out : list event) :
  WriteSVG world pi filename = Ret (err, out) →
  WriteSVG world (quiet pi) filename =
  Ret (err, filter (λ e, is_print e = false) out).
Proof.
  unfold WriteSVG, quiet, Done, PixelImage_String. simpl.
  destruct (Done_loop (pixels pi)) as [[|]|msg]; simpl; [| |done].
  2: { by intros [= <- <-]. }
  destruct (decide (filename = "-")) as [->|Hname]; simpl.
  - destruct (String_of _ _) as [doc|msg]; simpl; [|done].
    destruct (File_WriteString world Stdout doc) as [n [e|]];
      destruct (verbose pi); simpl; by intros [= <- <-].
  - destruct (os_Create world filename) as [ce|]; simpl.
    + destruct (verbose pi); simpl; by intros [= <- <-].
    + destruct (String_of _ _) as [doc|msg]; simpl; [|done].
      destruct (File_WriteString world (File filename) doc) as [n [e|]];
        destruct (verbose pi); simpl; by intros [= <- <-].
Qed.

Lemma WriteSVG_verbose_only_adds_prints_witness :
  ∃ err out,
    WriteSVG sample_world (mkPixelImage (cover_all (pixels sample_grid))
                             (page sample_grid) true 3 2) "-" = Ret (err, out) ∧
    (length out = 3)%nat ∧
    WriteSVG sample_world
      (quiet (mkPixelImage (cover_all (pixels sample_grid))
                (page sample_grid) true 3 2)) "-" =
    Ret (err, filter (λ e, is_print e = false) out).
Proof.
  eexists _, _. split; [cbv; reflexivity|]. split; [reflexivity|].
  apply (WriteSVG_verbose_only_adds_prints sample_world
           (mkPixelImage (cover_all (pixels sample_grid))
              (page sample_grid) true 3 2) "-").
  reflexivity.
Defined.
Lemma NewPixelImage_rows_prints img v ys :
  ∀ pixels i out pixels' i' out',
  NewPixelImage_rows img v ys pixels i out = Ret (pixels', i', out') →
  Forall (λ e, is_print e = true) out → Forall (λ e, is_print e = true) out'.
Proof.
  induction ys as [|y ys IH]; intros pixels i out pixels' i' out' Hrows Hout.
  - by injection Hrows as _ _ <-.
  - simpl in Hrows.
    destruct (NewPixelImage_row img y _ pixels i) as [[ps j]|msg]; [|done].
    rewrite bind_Ret in Hrows. eapply IH; [exact Hrows|].
    destruct v; [|done]. apply Forall_app. split; [done|]. by repeat constructor.
Qed.

Lemma NewPixelImage_prints img v pi out :
  NewPixelImage img v = Ret (pi, out) → Forall (λ e, is_print e = true) out.
Proof.
  unfold NewPixelImage. destruct (make_Pixels _) as [ps|msg]; [|done].
  rewrite bind_Ret. cbn zeta.
  destruct (NewPixelImage_rows _ _ _ _ _ _) as [[[ps' i'] out']|msg] eqn:Hrows;
    [|done].
  rewrite bind_Ret. intros [= _ <-].
  apply NewPixelImage_rows_prints in Hrows; [|by destruct v; repeat constructor].
  destruct v; [|done]. apply Forall_app. split; [done|]. by repeat constructor.
Qed.

Lemma CoverAllPixels_prints pi pi' out :
  CoverAllPixels pi = Ret (pi', out) → Forall (λ e, is_print e = true) out.
Proof.
  unfold CoverAllPixels.
  destruct (CoverAllPixels_loop _ _ _) as [[[ps svgTag] n]|msg]; [|done].
  rewrite bind_Ret. intros [= _ <-]. destruct (verbose pi); by repeat constructor.
Qed.

Lemma filter_prints (out : list event) :
  Forall (λ e, is_print e = true) out →
  filter (λ e, is_print e = false) out = [].
Proof.
  induction 1 as [|e out He _ IH]; [done|].
  rewrite filter_cons_False; [done|]. congruence.
Qed.

(** The rectangles of the pixels of an image with alpha above 0, in
    row-major order. *)
Lemma rects_of_grid_pixels img :
  rect_of <$> uncovered_pixels (Some <$> grid_pixels img) =
  (λ c, mkRect c.1 c.2 1 1 (image_rgb img c.1 c.2)) <$>
    filter (opaque img) (image_cells img).
Proof. by rewrite uncovered_grid_pixels, <- list_fmap_compose. Qed.
(** X18: a successful run in single-pixel mode, end to end.  When the
    input opens and decodes and the output calls succeed, [main] exits with
    status 0; besides its prints of progress it closes the input, creates
    the output unless it is standard output, writes one document, the one
    [String] renders for the page of the image's opaque pixels, and closes
    the output it created. *)
Theorem main_single_pixel_writes_the_document
    (pink : Z * Z * Z) (quantized : Z * Z * Z → Z * Z * Z) (fuel : nat)
    (input : Input) (world : World) (flags : Flags)
    (inputFilename : string) (rest : list string) (img : Image)
    (doc : string) (n : nat) :
  version flags = false →
  singlePixelRectangles flags = true → colorPink flags = false →
  os_Open input inputFilename = None →
  png_Decode input inputFilename = inl img → img_ok img →
  String_of (map_range world) (Page_String world (image_page img)) = Ret doc →
  outputFilename flags = "-" ∨ os_Create world (outputFilename flags) = None →
  File_WriteString world (target (outputFilename flags)) doc = (n, None) →
  ∃ out,
    main pink quantized (S fuel) input world flags (inputFilename :: rest)
      = Some (Ret (0, out)) ∧
    filter (λ e, is_print e = false) out =
      EvClose inputFilename ::
      (if decide (outputFilename flags = "-")
       then [EvWriteString Stdout doc n None]
       else [EvCreate (outputFilename flags) None;
             EvWriteString (File (outputFilename flags)) doc n None;
             EvClose (outputFilename flags)]).
Proof.
  intros Hversion Hsingle Hpink Hopen Hdecode Hok Hdoc Hcreate Hwrite.
  unfold main, ReadPNG. rewrite Hversion, Hopen, Hdecode.
  unfold main_from. rewrite Hpink.
  destruct (NewPixelImage_spec img (verbose_flag flags) Hok) as [out1 Hnew].
  rewrite Hnew. pose proof (NewPixelImage_prints _ _ _ _ Hnew) as Hprints1.
  rewrite cover_loop_unfold, Hsingle.
  match type of Hnew with _ = Ret (?g, _) =>
    destruct (CoverAllPixels_spec g) as [out2 Hcover]
  end.
  { simpl. apply Forall_fmap, Forall_forall. intros; simpl; eauto. }
  rewrite Hcover. pose proof (CoverAllPixels_prints _ _ _ Hcover) as Hprints2.
  rewrite bind_Ret. simpl pixels in *. simpl page in *. simpl verbose in *.
  simpl w in *. simpl h in *.
  unfold WriteSVG, Done. simpl pixels.
  rewrite Done_loop_spec, uncovered_pixels_fmap_cover
    by (apply cover_all_allocated, Forall_fmap, Forall_forall;
        intros; simpl; eauto).
  rewrite bool_decide_eq_true_2 by done. rewrite bind_Ret.
  unfold PixelImage_String. simpl page. rewrite rects_of_grid_pixels.
  fold (image_rects img). fold (image_page img). rewrite Hdoc.
  unfold target in Hwrite.
  destruct (decide (outputFilename flags = "-")) as [Hname|Hname].
  - simpl. rewrite Hname in *. rewrite Hwrite. simpl.
    eexists. split; [done|].
    destruct (verbose_flag flags); simpl;
      rewrite ?filter_cons, ?filter_app, ?filter_cons, ?filter_nil,
        (filter_prints out1), (filter_prints out2) by done;
      done.
  - destruct Hcreate as [?|Hcreate]; [done|]. simpl. rewrite Hcreate. simpl.
    rewrite Hwrite. simpl. eexists. split; [done|].
    destruct (verbose_flag flags); simpl;
      rewrite ?filter_cons, ?filter_app, ?filter_cons, ?filter_nil,
        (filter_prints out1), (filter_prints out2) by done;
      done.
Qed.

Lemma main_single_pixel_writes_the_document_witness :
  ∃ doc n out,
    String_of (map_range sample_world)
      (Page_String sample_world (image_page sample_image)) = Ret doc ∧
    main (255, 0, 255) id 1 sample_input sample_world single_pixel_flags
      ["in.png"] = Some (Ret (0, out)) ∧
    filter (λ e, is_print e = false) out =
      [EvClose "in.png"; EvCreate "out.svg" None;
       EvWriteString (File "out.svg") doc n None; EvClose "out.svg"].
Proof.
  eexists _, _.
  destruct (main_single_pixel_writes_the_document (255, 0, 255) id 0
              sample_input sample_world single_pixel_flags "in.png" []
              sample_image "<svg></svg>" 11) as (out & Hmain & Hout);
    try reflexivity.
  - exact sample_image_ok.
  - by right.
  - exists out. split; [reflexivity|]. split; [exact Hmain|exact Hout].
Defined.
(** X19: the coordinate [FirstUncovered] returns is inside the grid, and
    the other queries agree with it: [Covered] returns false there and [At]
    returns a colour. *)
Theorem FirstUncovered_result_is_in_the_grid (pi : PixelImage) (x y : Z) :
  wf pi → FirstUncovered pi = Ret (x, y) →
  in_grid pi x y ∧ Covered pi x y = Ret false ∧ returns (At pi x y).
Proof.
  intros Hwf Hfirst.
  destruct (FirstUncovered_spec pi Hwf)
    as [(x' & y' & Hret & [Hgrid (p & Hp & Hc)] & _)|[Hpanic _]];
    [|congruence].
  rewrite Hret in Hfirst. injection Hfirst as -> ->.
  split; [done|]. split.
  - by rewrite (Covered_in_grid pi x y p Hwf Hgrid Hp), Hc.
  - rewrite (At_in_grid pi x y p Hwf Hgrid Hp). by eexists.
Qed.

Lemma FirstUncovered_result_is_in_the_grid_witness :
  in_grid sample_grid 1 0 ∧ Covered sample_grid 1 0 = Ret false ∧
  returns (At sample_grid 1 0).
Proof.
  apply (FirstUncovered_result_is_in_the_grid sample_grid 1 0).
  - exact sample_grid_wf.
  - reflexivity.
Defined.

Lemma cover_all_covered (ps : Pixels) :
  allocated ps → uncovered_pixels ps = [] → cover_all ps = ps.
Proof.
  induction 1 as [|o ps [p ->] _ IH]; [done|].
  rewrite uncovered_pixels_cons_Some. destruct (covered p) eqn:Hc; [|done].
  intros Hnone. unfold cover_all in *. rewrite fmap_cons, (IH Hnone). simpl.
  by rewrite (cover_covered p Hc).
Qed.

(** X20: a fully transparent image needs no covering.  The grid
    [NewPixelImage] builds is [Done] from the start exactly when no pixel of
    the image has alpha above 0; and then [FirstUncovered] panics on it and
    [CoverAllPixels] leaves grid and page as they are, without a
    rectangle. *)
Theorem transparent_image_is_Done (img : Image) (v : bool) :
  img_ok img →
  ∃ pi out,
    NewPixelImage img v = Ret (pi, out) ∧
    Done pi = Ret (bool_decide (opaque_count img = 0%nat)) ∧
    (opaque_count img = 0%nat →
       FirstUncovered pi = Panic "All pixels are covered" ∧
       tag_rects (page pi) = [] ∧
       ∃ out', CoverAllPixels pi = Ret (pi, out')).
Proof.
  intros Hok. destruct (NewPixelImage_spec img v Hok) as [out Hnew].
  pose proof (NewPixelImage_wf _ _ _ _ Hok Hnew) as Hwf.
  eexists _, out. split; [exact Hnew|].
  match type of Hwf with wf ?g => set (pi := g) in * end.
  assert (count_uncovered pi = opaque_count img) as Hcount.
  { unfold count_uncovered, pi, opaque_count. simpl.
    by rewrite uncovered_grid_pixels, length_fmap. }
  assert (Done pi = Ret (bool_decide (opaque_count img = 0%nat))) as Hdone.
  { by rewrite (Done_spec pi Hwf), Hcount. }
  split; [done|]. intros Hnone.
  rewrite bool_decide_eq_true_2 in Hdone by done.
  split; [|split; [done|]].
  - destruct (FirstUncovered_spec pi Hwf) as [(x & y & _ & Hu & _)|[Hpanic _]];
      [|done].
    assert (Done pi = Ret false) as Hfalse by (apply Done_false; eauto).
    congruence.
  - destruct (CoverAllPixels_spec pi (wf_allocated pi Hwf)) as [out' Hcover].
    exists out'. rewrite Hcover. do 2 f_equal.
    assert (uncovered_pixels (pixels pi) = []) as Hnil.
    { apply length_zero_iff_nil. unfold count_uncovered in Hcount. lia. }
    rewrite Hnil, (cover_all_covered _ (wf_allocated pi Hwf) Hnil). simpl.
    by rewrite emit_nil.
Qed.

Lemma transparent_image_ok : img_ok transparent_image.
Proof. split; unfold int_max; simpl; lia. Qed.

Lemma transparent_image_is_Done_witness :
  ∃ pi out out',
    NewPixelImage transparent_image false = Ret (pi, out) ∧
    Done pi = Ret true ∧
    FirstUncovered pi = Panic "All pixels are covered" ∧
    tag_rects (page pi) = [] ∧
    CoverAllPixels pi = Ret (pi, out').
Proof.
  destruct (transparent_image_is_Done transparent_image false)
    as (pi & out & Hnew & Hdone & Hrest).
  - exact transparent_image_ok.
  - destruct Hrest as (Hfirst & Hpage & out' & Hcover); [by vm_compute|].
    rewrite bool_decide_eq_true_2 in Hdone by (by vm_compute).
    exists pi, out, out'. repeat split; assumption.
Defined.
Lemma Fields_from_runs (s : string) :
  ∀ b, Forall (λ field, string_forall (λ c, negb (Ascii.is_space c)) field = true)
              (GoStrings.Fields_from b s).
Proof.
  induction s as [|c s IH]; intros b; simpl.
  - destruct b; by repeat constructor.
  - destruct (Ascii.is_space c) eqn:Hc.
    + destruct b; [constructor; [done|]|]; apply IH.
    + specialize (IH true). destruct (GoStrings.Fields_from true s) as [|f r].
      * repeat constructor. simpl. by rewrite Hc.
      * inversion_clear IH as [|? ? Hf Hr]. constructor; [|done].
        simpl. by rewrite Hc, Hf.
Qed.

Lemma Split_quote_pieces (P : ascii → bool) (s : string) :
  string_forall P s = true →
  Forall (λ piece, string_forall P piece = true ∧ free_of quote_char piece)
         (GoStrings.Split_from 0 s quote).
Proof.
  induction s as [|x s IH]; intros Hs.
  - by repeat constructor.
  - simpl in Hs. apply andb_true_iff in Hs as [Hx Hs]. specialize (IH Hs).
    rewrite Split_from_quote. destruct (decide (x = quote_char)) as [->|Hne].
    + constructor; [done|done].
    + destruct (GoStrings.Split_from 0 s quote) as [|piece rest].
      * repeat constructor; [simpl; by rewrite Hx|by apply free_of_cons].
      * inversion_clear IH as [|? ? [Hp Hfree] Hr]. constructor; [|done].
        split; [simpl; by rewrite Hx, Hp|by apply free_of_cons].
Qed.

Lemma token_intro (c : string) :
  string_forall (λ c, negb (Ascii.is_space c)) c = true →
  free_of quote_char c → token c.
Proof.
  unfold token, free_of. induction c as [|x c IH]; [done|]. simpl.
  intros [Hx Hc]%andb_true_iff [Hq Hf]%andb_true_iff.
  rewrite (IH Hc Hf). unfold token_char. by rewrite Hx, Hq.
Qed.

Lemma colorFromLine_fields_token (fields : list string) c :
  Forall (λ field, string_forall (λ c, negb (Ascii.is_space c)) field = true)
         fields →
  colorFromLine_fields fields = Ret c → token c.
Proof.
  induction 1 as [|field fields Hfield _ IH]; simpl.
  - by intros [= <-].
  - destruct (GoStrings.HasPrefix field "fill="); [|done].
    unfold index. simpl. change (Z.to_nat 1) with 1%nat.
    destruct (GoStrings.Split field quote !! 1%nat) as [piece|] eqn:Hpiece;
      [|done].
    intros [= <-].
    pose proof (Split_quote_pieces _ field Hfield) as Hpieces.
    rewrite Forall_lookup in Hpieces.
    destruct (Hpieces 1%nat piece Hpiece) as [Hrun Hfree].
    by apply token_intro.
Qed.

(** X21: whatever the line, the colour [colorFromLine] returns holds
    neither a quote nor white space; so the fill attribute that
    [groupLinesByFillColor] writes for a group is one quoted value. *)
Theorem colorFromLine_returns_a_token (line c : string) :
  ascii_text line → colorFromLine line = Ret c → token c.
Proof.
  intros _. unfold colorFromLine.
  destruct (negb _); [by intros [= <-]|].
  apply colorFromLine_fields_token, Fields_from_runs.
Qed.

Lemma colorFromLine_returns_a_token_witness :
  token "#00ff00".
Proof.
  apply (colorFromLine_returns_a_token (rect_line "0" "0" "#00ff00")).
  - reflexivity.
  - reflexivity.
Defined.

Lemma int_of_uint8_range (c : byte) : 0 ≤ int_of_uint8 c ≤ 255.
Proof.
  unfold int_of_uint8. pose proof (Byte.to_N_bounded c) as Hc. lia.
Qed.

(** X22: the pixels [NewPixelImage] makes keep the ranges of the image's
    channels: red, green, blue and alpha are between 0 and 255, and a pixel
    starts covered exactly when its alpha is 0. *)
Theorem NewPixelImage_pixels_in_range (img : Image) (v : bool)
    (pi : PixelImage) (out : list event) (p : Pixel) :
  img_ok img → NewPixelImage img v = Ret (pi, out) → Some p ∈ pixels pi →
  0 ≤ pr p ≤ 255 ∧ 0 ≤ pg p ≤ 255 ∧ 0 ≤ pb p ≤ 255 ∧ 0 ≤ pa p ≤ 255 ∧
  (covered p = true ↔ pa p = 0).
Proof.
  intros Hok Hnew Hp. destruct (NewPixelImage_spec img v Hok) as [out' Hspec].
  rewrite Hspec in Hnew. injection Hnew as <- _. simpl in Hp.
  apply list_elem_of_fmap in Hp as (q & [= ->] & Hq).
  unfold grid_pixels in Hq. apply list_elem_of_fmap in Hq as ([x y] & -> & _).
  unfold NewPixel. simpl.
  repeat split; try apply int_of_uint8_range.
  - by intros ?%Z.eqb_eq.
  - by intros ?%Z.eqb_eq.
Qed.

Lemma NewPixelImage_pixels_in_range_witness :
  ∃ p, Some p ∈ pixels sample_grid ∧
       0 ≤ pr p ≤ 255 ∧ 0 ≤ pg p ≤ 255 ∧ 0 ≤ pb p ≤ 255 ∧ 0 ≤ pa p ≤ 255 ∧
       (covered p = true ↔ pa p = 0).
Proof.
  exists (mkPixel 1 0 255 0 0 255 false).
  assert (Some (mkPixel 1 0 255 0 0 255 false) ∈ pixels sample_grid) as Hp.
  { simpl. rewrite !elem_of_cons. auto. }
  split; [exact Hp|].
  apply (NewPixelImage_pixels_in_range sample_image false sample_grid []).
  - exact sample_image_ok.
  - reflexivity.
  - exact Hp.
Defined.

(** * The claims on coverage at write time, transparency and grouping *)
Lemma all_covered_iff (ps : Pixels) :
  uncovered_pixels ps = [] ↔ ∀ p, Some p ∈ ps → covered p = true.
Proof.
  split.
  - intros Hnil p Hp. destruct (covered p) eqn:Hc; [done|].
    assert (p ∈ uncovered_pixels ps) as Hin by by apply elem_of_uncovered_pixels.
    rewrite Hnil in Hin. by apply elem_of_nil in Hin.
  - intros Hall. destruct (uncovered_pixels ps) as [|p l] eqn:Hu; [done|].
    assert (p ∈ uncovered_pixels ps) as Hin by (rewrite Hu; left).
    apply elem_of_uncovered_pixels in Hin as [Hp Hc].
    rewrite (Hall p Hp) in Hc. done.
Qed.

Lemma Done_true_iff (pi : PixelImage) :
  allocated (pixels pi) →
  Done pi = Ret true ↔ ∀ p, Some p ∈ pixels pi → covered p = true.
Proof.
  intros Hall. unfold Done. rewrite Done_loop_spec by done.
  rewrite <- all_covered_iff. case_bool_decide; split; congruence.
Qed.

Lemma Done_false_iff (pi : PixelImage) :
  allocated (pixels pi) →
  Done pi = Ret false ↔ ∃ p, Some p ∈ pixels pi ∧ covered p = false.
Proof.
  intros Hall. unfold Done. rewrite Done_loop_spec by done. split.
  - intros Hdone. destruct (uncovered_pixels (pixels pi)) as [|p l] eqn:Hu.
    + by rewrite bool_decide_eq_true_2 in Hdone.
    + exists p. apply elem_of_uncovered_pixels. rewrite Hu. left.
  - intros (p & Hp & Hc). rewrite bool_decide_eq_false_2; [done|].
    intros Hnil. pose proof (proj1 (all_covered_iff _) Hnil p Hp). congruence.
Qed.

(** C4: [WriteSVG] on a grid with a pixel that is not covered returns the
    error of incomplete coverage and neither prints, creates nor writes
    anything.  On a grid all of whose pixels are covered it returns, once
    the document is rendered, with no error exactly when the output calls
    succeed, and then the whole document was written.  So the call returns
    without error if and only if every pixel is covered and no output call
    fails; the error of incomplete coverage is returned exactly for a grid
    with an uncovered pixel; and nothing is ever written for such a grid:
    what is written is the whole document of a fully covered grid. *)
Theorem WriteSVG_only_on_full_coverage (world : World) (pi : PixelImage)
    (filename : string) :
  allocated (pixels pi) →
  ((∃ p, Some p ∈ pixels pi ∧ covered p = false) →
   WriteSVG world pi filename = Ret (Some not_covered, [])) ∧
  ((∀ p, Some p ∈ pixels pi → covered p = true) →
   ∀ doc, PixelImage_String world pi = Ret doc →
   ∃ err out,
     WriteSVG world pi filename = Ret (err, out) ∧
     (err = None ↔
        (filename = "-" ∨ os_Create world filename = None) ∧
        (File_WriteString world (target filename) doc).2 = None) ∧
     (err = None → ∃ n, EvWriteString (target filename) doc n None ∈ out)) ∧
  (∀ doc, PixelImage_String world pi = Ret doc →
   ∃ err out,
     WriteSVG world pi filename = Ret (err, out) ∧
     (err = None ↔
        (∀ p, Some p ∈ pixels pi → covered p = true) ∧
        (filename = "-" ∨ os_Create world filename = None) ∧
        (File_WriteString world (target filename) doc).2 = None)) ∧
  (∀ err out, WriteSVG world pi filename = Ret (err, out) →
     (err = Some not_covered ↔ ∃ p, Some p ∈ pixels pi ∧ covered p = false) ∧
     (err = None → ∀ p, Some p ∈ pixels pi → covered p = true) ∧
     (∀ f s n e, EvWriteString f s n e ∈ out →
        (∀ p, Some p ∈ pixels pi → covered p = true) ∧
        PixelImage_String world pi = Ret s)).
Proof.
  intros Hall.
  destruct (WriteSVG_by_Done world pi filename Hall) as (Hfalse & Htrue & Hret).
  pose proof (Done_true_iff pi Hall) as Hcovered.
  pose proof (Done_false_iff pi Hall) as Huncovered.
  split; [|split; [|split]].
  - intros Hu. by apply Hfalse, Huncovered.
  - intros Hc. by apply Htrue, Hcovered.
  - intros doc Hdoc.
    assert (∃ b, Done pi = Ret b) as [[|] Hdone].
    { unfold Done. rewrite Done_loop_spec by done. eauto. }
    + destruct (Htrue Hdone doc Hdoc) as (err & out & Hw & Hiff & _).
      exists err, out. split; [done|]. rewrite Hiff.
      pose proof (proj1 Hcovered Hdone). tauto.
    + exists (Some not_covered), []. split; [by apply Hfalse|].
      split; [done|]. intros [Hc _]. pose proof (proj2 Hcovered Hc). congruence.
  - intros err out Hw. destruct (Hret err out Hw) as (Hnot & Hnone & Hwritten).
    split; [by rewrite Hnot|]. split.
    + intros He. by apply Hcovered, Hnone.
    + intros f s n e Hin. destruct (Hwritten f s n e Hin) as [Hdone Hs].
      split; [by apply Hcovered|done].
Qed.

Lemma WriteSVG_only_on_full_coverage_witness :
  WriteSVG sample_world sample_grid "out.svg" = Ret (Some not_covered, []).
Proof.
  refine (proj1 (WriteSVG_only_on_full_coverage sample_world sample_grid
                   "out.svg" _) _).
  - unfold allocated. simpl. repeat constructor; eauto.
  - exists (mkPixel 1 0 255 0 0 255 false). split; [|done].
    simpl. rewrite !elem_of_cons. auto.
Defined.
Lemma joins_true pi box x y :
  wf pi → in_grid pi x y → joins pi box x y = Ret true → uncovered pi x y.
Proof.
  intros Hwf Hin. destruct (pixel_at_is_Some pi x y Hwf Hin) as [p Hp].
  unfold joins. rewrite (Covered_in_grid pi x y p), (At_in_grid pi x y p) by done.
  rewrite !bind_Ret. intros [= Hjoin]. apply andb_true_iff in Hjoin as [Hc _].
  split; [done|]. exists p. split; [done|]. by apply negb_true_iff.
Qed.

Lemma all_join_true pi box cells :
  wf pi → Forall (λ c, in_grid pi c.1 c.2) cells →
  all_join pi box cells = Ret true →
  Forall (λ c, uncovered pi c.1 c.2) cells.
Proof.
  intros Hwf. induction 1 as [|[x y] cells Hin _ IH]; simpl; [done|].
  destruct (joins_returns pi box x y Hwf Hin) as [b Hb]. rewrite Hb, bind_Ret.
  destruct b; [|done]. intros Hrest. constructor; [|by apply IH].
  by apply (joins_true pi box).
Qed.

Lemma Expand_right_uncovered columns pi :
  wf pi → ∀ box box', box_ok pi box → box_uncovered pi box →
  Expand_right columns pi box = Ret box' →
  box_ok pi box' ∧ box_uncovered pi box' ∧
  x1 box' = x1 box ∧ y1 box' = y1 box ∧ y2 box' = y2 box.
Proof.
  intros Hwf. induction columns as [|columns IH]; intros box box' Hbox Hun; simpl.
  { by intros [= <-]. }
  pose proof (width_int pi Hwf) as Hint. pose proof (height_int pi Hwf) as Hinth.
  unfold box_ok in Hbox. rewrite add_1 by lia.
  destruct (Z.ltb_spec (x2 box + 1) (w pi)) as [Hlt|Hge]; [|by intros [= <-]].
  assert (Forall (λ c, in_grid pi c.1 c.2)
            ((λ y, (x2 box + 1, y)) <$> zrange (y1 box) (add (y2 box) 1)))
    as Hcells.
  { apply Forall_fmap, Forall_forall. intros y Hy. simpl.
    rewrite add_1 in Hy by lia. apply elem_of_seqZ in Hy. unfold in_grid. lia. }
  destruct (all_join_returns pi box _ Hwf Hcells) as [ok Hok].
  rewrite Hok, bind_Ret. destruct ok; [|by intros [= <-]].
  pose proof (all_join_true pi box _ Hwf Hcells Hok) as Hnew.
  intros Hret.
  destruct (IH (mkBox (x1 box) (y1 box) (x2 box + 1) (y2 box) (seed box)) box')
    as (Hok' & Hun' & Ha & Hb & Hc); [unfold box_ok; simpl; lia| |done|].
  - intros x y Hx Hy. simpl in *.
    destruct (decide (x = x2 box + 1)) as [->|Hne]; [|apply Hun; lia].
    rewrite Forall_fmap, Forall_forall in Hnew. apply (Hnew y).
    rewrite add_1 by lia. apply elem_of_seqZ. lia.
  - simpl in *. tauto.
Qed.

Lemma Expand_down_uncovered rows pi :
  wf pi → ∀ box box', box_ok pi box → box_uncovered pi box →
  Expand_down rows pi box = Ret box' →
  box_ok pi box' ∧ box_uncovered pi box' ∧
  x1 box' = x1 box ∧ y1 box' = y1 box ∧ x2 box' = x2 box.
Proof.
  intros Hwf. induction rows as [|rows IH]; intros box box' Hbox Hun; simpl.
  { by intros [= <-]. }
  pose proof (width_int pi Hwf) as Hint. pose proof (height_int pi Hwf) as Hinth.
  unfold box_ok in Hbox. rewrite add_1 by lia.
  destruct (Z.ltb_spec (y2 box + 1) (h pi)) as [Hlt|Hge]; [|by intros [= <-]].
  assert (Forall (λ c, in_grid pi c.1 c.2)
            ((λ x, (x, y2 box + 1)) <$> zrange (x1 box) (add (x2 box) 1)))
    as Hcells.
  { apply Forall_fmap, Forall_forall. intros x Hx. simpl.
    rewrite add_1 in Hx by lia. apply elem_of_seqZ in Hx. unfold in_grid. lia. }
  destruct (all_join_returns pi box _ Hwf Hcells) as [ok Hok].
  rewrite Hok, bind_Ret. destruct ok; [|by intros [= <-]].
  pose proof (all_join_true pi box _ Hwf Hcells Hok) as Hnew.
  intros Hret.
  destruct (IH (mkBox (x1 box) (y1 box) (x2 box) (y2 box + 1) (seed box)) box')
    as (Hok' & Hun' & Ha & Hb & Hc); [unfold box_ok; simpl; lia| |done|].
  - intros x y Hx Hy. simpl in *.
    destruct (decide (y = y2 box + 1)) as [->|Hne]; [|apply Hun; lia].
    rewrite Forall_fmap, Forall_forall in Hnew. apply (Hnew x).
    rewrite add_1 by lia. apply elem_of_seqZ. lia.
  - simpl in *. tauto.
Qed.

(** One turn of the covering loop adds one rectangle, over a box of pixels
    that were uncovered. *)
Lemma cover_step_rect pink quantized flags pi :
  wf pi → Done pi = Ret false →
  ∃ pi' box fill,
    cover_step pink quantized flags pi = Ret pi' ∧ wf pi' ∧
    w pi' = w pi ∧ h pi' = h pi ∧
    grid_step (pixels pi) (pixels pi') ∧
    box_ok pi box ∧ box_uncovered pi box ∧
    tag_rects (page pi') =
      tag_rects (page pi) ++
      [mkRect (x1 box) (y1 box) (x2 box - x1 box + 1) (y2 box - y1 box + 1) fill].
Proof.
  intros Hwf Hdone. apply Done_false in Hdone as (x0 & y0 & Hu0); [|done].
  destruct (FirstUncovered_spec pi Hwf)
    as [(x & y & Hfirst & [Hin (p & Hp & Hc)] & _)|[_ Hnone]];
    [|by destruct (Hnone x0 y0)].
  unfold cover_step. rewrite Hfirst, bind_Ret. simpl.
  unfold CreateBox. rewrite (At_in_grid pi x y p) by done. rewrite !bind_Ret.
  set (box0 := mkBox x y x y (pr p, pg p, pb p)).
  assert (box_ok pi box0) as Hbox0.
  { unfold box_ok, in_grid in *. simpl. lia. }
  assert (box_uncovered pi box0) as Hun0.
  { intros x' y' Hx' Hy'. simpl in *.
    assert (x' = x) as -> by lia. assert (y' = y) as -> by lia.
    split; [done|]. by exists p. }
  unfold Expand.
  destruct (Expand_right_spec (Z.to_nat (w pi)) pi Hwf box0 Hbox0)
    as (box1 & Hright & _).
  destruct (Expand_right_uncovered _ pi Hwf box0 box1 Hbox0 Hun0 Hright)
    as (Hbox1 & Hun1 & _).
  rewrite Hright, bind_Ret.
  destruct (Expand_down_spec (Z.to_nat (h pi)) pi Hwf box1 Hbox1)
    as (box & Hdown & _).
  destruct (Expand_down_uncovered _ pi Hwf box1 box Hbox1 Hun1 Hdown)
    as (Hbox & Hun & _).
  rewrite Hdown, !bind_Ret. cbn beta iota. unfold CoverBox.
  pose proof Hbox as Hbox'. unfold box_ok in Hbox'.
  pose proof (width_int pi Hwf ltac:(lia)). pose proof (height_int pi Hwf ltac:(lia)).
  destruct (CoverBox_cells_spec (box_cells box) pi Hwf) as (ps' & -> & Hstep & _).
  { apply Forall_forall. intros [x' y'] Hcell. simpl.
    apply elem_of_box_cells in Hcell; [|lia..]. unfold in_grid. lia. }
  rewrite bind_Ret. eexists _, box, _. split; [done|].
  split; [by apply wf_step|]. simpl.
  split; [done|]. split; [done|]. split; [done|]. split; [done|]. split; [done|].
  unfold add, sub.
  rewrite !wrap_id by (unfold is_int, int_min, int_max in *;
                       rewrite ?wrap_id by (unfold is_int, int_min, int_max; lia);
                       lia).
  done.
Qed.
Lemma grid_of_lookup img pi x y p :
  grid_of img pi → in_grid pi x y → pixel_at pi x y = Some p →
  p = NewPixel img (pt_X (Min (Bounds img)) + x) (pt_Y (Min (Bounds img)) + y) ∨
  p = cover (NewPixel img (pt_X (Min (Bounds img)) + x)
                          (pt_Y (Min (Bounds img)) + y)).
Proof.
  intros (Hwf & Hw & Hh & Hstep) Hin Hp. unfold in_grid in Hin.
  assert ((Some <$> grid_pixels img : Pixels) !! Z.to_nat (y * w pi + x) =
          Some (Some (NewPixel img (pt_X (Min (Bounds img)) + x)
                                   (pt_Y (Min (Bounds img)) + y)))) as Hfresh.
  { rewrite list_lookup_fmap, Hw, grid_pixels_lookup by lia. done. }
  destruct (Forall2_lookup_l _ _ _ _ _ Hstep Hfresh) as (o & Ho & Hpx).
  unfold pixel_at in Hp. rewrite Ho in Hp. simpl in Hp. subst o.
  inversion Hpx; subst; auto.
Qed.

Lemma uncovered_is_opaque img pi x y :
  grid_of img pi → uncovered pi x y →
  0 < image_alpha img (pt_X (Min (Bounds img)) + x) (pt_Y (Min (Bounds img)) + y).
Proof.
  intros Hgrid [Hin (p & Hp & Hc)].
  destruct (grid_of_lookup img pi x y p Hgrid Hin Hp) as [->| ->]; [|done].
  by apply NewPixel_covered in Hc.
Qed.

Lemma grid_of_fresh img v pi out :
  img_ok img → NewPixelImage img v = Ret (pi, out) →
  grid_of img pi ∧ tag_rects (page pi) = [].
Proof.
  intros Hok Hnew. pose proof (NewPixelImage_wf _ _ _ _ Hok Hnew) as Hwf.
  destruct (NewPixelImage_spec img v Hok) as [out' Hspec].
  rewrite Hspec in Hnew. injection Hnew as <- _.
  split; [|done]. split; [done|]. simpl. split; [done|]. split; [done|].
  apply grid_step_refl.
Qed.

(** The covering loop only adds rectangles over pixels of alpha above 0. *)
Lemma cover_loop_rects pink quantized flags img fuel :
  ∀ pi pi_end,
  grid_of img pi → Forall (rect_opaque img) (tag_rects (page pi)) →
  cover_loop pink quantized fuel flags pi = Some (Ret pi_end) →
  grid_of img pi_end ∧ Forall (rect_opaque img) (tag_rects (page pi_end)).
Proof.
  induction fuel as [|fuel IH]; intros pi pi_end Hgrid Hrects; [done|].
  rewrite cover_loop_unfold.
  destruct (singlePixelRectangles flags); [by intros [= <-]|].
  pose proof Hgrid as (Hwf & Hw & Hh & Hstep).
  rewrite (Done_spec pi Hwf). case_bool_decide as Hzero; [by intros [= <-]|].
  destruct (cover_step_rect pink quantized flags pi Hwf)
    as (pi1 & box & fill & -> & Hwf1 & Hw1 & Hh1 & Hstep1 & Hbox & Hun & Hpage).
  { rewrite Done_spec by done. by rewrite bool_decide_eq_false_2. }
  apply IH.
  - split; [done|]. split; [congruence|]. split; [congruence|].
    by eapply grid_step_trans.
  - rewrite Hpage. apply Forall_app. split; [done|]. constructor; [|done].
    unfold box_ok in Hbox. unfold rect_opaque, spans. simpl.
    split; [lia|]. split; [lia|]. intros x y [Hx Hy].
    assert (uncovered pi x y) as Hu by (apply Hun; lia).
    split; [|by eapply uncovered_is_opaque].
    destruct Hu as [Hin _]. unfold in_grid in Hin. lia.
Qed.

(** C6: on the grid [NewPixelImage] builds, which has the width and height
    of the image, the entry of every pixel of the image whose alpha is 0 is
    that pixel, with alpha 0, and it is covered from the start, whereas the
    entry of a pixel of alpha above 0 starts uncovered.  No rectangle is
    emitted over a pixel of alpha 0, on either path of the command:
    [CoverAllPixels] emits 1x1 rectangles at coordinates where the image has
    alpha above 0, and the covering loop, which ends with every pixel
    covered, only ever emits rectangles that span cells where the image has
    alpha above 0. *)
Theorem transparent_pixels_get_no_rectangle (img : Image) (v : bool) :
  img_ok img →
  ∃ pi out,
    NewPixelImage img v = Ret (pi, out) ∧
    w pi = pt_X (Max (Bounds img)) - pt_X (Min (Bounds img)) ∧
    h pi = pt_Y (Max (Bounds img)) - pt_Y (Min (Bounds img)) ∧
    (∀ x y, 0 ≤ x < w pi → 0 ≤ y < h pi →
       ∃ p, pixel_at pi x y = Some p ∧
            px p = pt_X (Min (Bounds img)) + x ∧
            py p = pt_Y (Min (Bounds img)) + y ∧
            pa p = image_alpha img (px p) (py p) ∧
            (covered p = true ↔ image_alpha img (px p) (py p) = 0)) ∧
    (∃ pi' out',
       CoverAllPixels pi = Ret (pi', out') ∧
       ∀ rc, rc ∈ tag_rects (page pi') →
         rect_w rc = 1 ∧ rect_h rc = 1 ∧
         (pt_X (Min (Bounds img)) ≤ rect_x rc < pt_X (Max (Bounds img)) ∧
          pt_Y (Min (Bounds img)) ≤ rect_y rc < pt_Y (Max (Bounds img))) ∧
         0 < image_alpha img (rect_x rc) (rect_y rc)) ∧
    (∀ pink quantized flags,
       (singlePixelRectangles flags = false →
        ∃ pi_end,
          cover_loop pink quantized (S (opaque_count img)) flags pi
            = Some (Ret pi_end) ∧
          Done pi_end = Ret true) ∧
       ∀ fuel pi_end,
         cover_loop pink quantized fuel flags pi = Some (Ret pi_end) →
         ∀ rc, rc ∈ tag_rects (page pi_end) →
           1 ≤ rect_w rc ∧ 1 ≤ rect_h rc ∧
           ∀ x y, spans rc x y →
             (0 ≤ x < w pi ∧ 0 ≤ y < h pi) ∧
             0 < image_alpha img (pt_X (Min (Bounds img)) + x)
                                 (pt_Y (Min (Bounds img)) + y)).
Proof.
  intros Hok. destruct (NewPixelImage_spec img v Hok) as [out Hnew].
  destruct (grid_of_fresh img v _ out Hok Hnew) as [Hgrid Hempty].
  eexists _, out. split; [exact Hnew|].
  match type of Hgrid with grid_of _ ?g => set (pi := g) in * end.
  split; [done|]. split; [done|]. split; [|split].
  - intros x y Hx Hy.
    assert (pixel_at pi x y =
            Some (NewPixel img (pt_X (Min (Bounds img)) + x)
                               (pt_Y (Min (Bounds img)) + y))) as Hat.
    { unfold pixel_at, pi. simpl. rewrite list_lookup_fmap.
      rewrite grid_pixels_lookup by done. done. }
    eexists. split; [exact Hat|]. unfold NewPixel, image_alpha. simpl.
    split; [done|]. split; [done|]. split; [done|]. apply Z.eqb_eq.
  - destruct (CoverAllPixels_spec pi) as [out' Hcover].
    { simpl. apply Forall_fmap, Forall_forall. intros; simpl; eauto. }
    eexists _, out'. split; [exact Hcover|]. simpl.
    rewrite rects_of_grid_pixels. intros rc Hrc.
    apply list_elem_of_fmap in Hrc as ([x y] & -> & Hc).
    apply list_elem_of_filter in Hc as [Hopaque Hc]. simpl.
    split; [done|]. split; [done|]. split; [|done].
    unfold image_cells in Hc. apply list_elem_of_bind in Hc as (y' & Hx & Hy).
    apply list_elem_of_fmap in Hx as (x' & [= -> ->] & Hx).
    unfold zrange in *. apply elem_of_seqZ in Hx, Hy. lia.
  - intros pink quantized flags. split.
    + intros Hmode. destruct Hgrid as (Hwf & _).
      destruct (cover_loop_spec pink quantized flags (opaque_count img) Hmode
                  pi Hwf) as (pi_end & Hend & _ & Hdone & _).
      { unfold count_uncovered, pi, opaque_count. simpl.
        by rewrite uncovered_grid_pixels, length_fmap. }
      by exists pi_end.
    + intros fuel pi_end Hloop rc Hrc.
      destruct (cover_loop_rects pink quantized flags img fuel pi pi_end Hgrid)
        as [_ Hrects]; [by rewrite Hempty|done|].
      rewrite Forall_forall in Hrects. exact (Hrects rc Hrc).
Qed.
Lemma transparent_pixels_get_no_rectangle_witness :
  ∃ pi out pi_end,
    NewPixelImage sample_image false = Ret (pi, out) ∧
    (∃ p, pixel_at pi 0 0 = Some p ∧
          pa p = image_alpha sample_image 0 0 ∧ covered p = true) ∧
    cover_loop (255, 0, 255) id 7 sample_flags pi = Some (Ret pi_end) ∧
    length (tag_rects (page pi_end)) = 3%nat ∧
    ∀ rc, rc ∈ tag_rects (page pi_end) →
      1 ≤ rect_w rc ∧ 1 ≤ rect_h rc ∧
      ∀ x y, spans rc x y →
        (0 ≤ x < w pi ∧ 0 ≤ y < h pi) ∧
        0 < image_alpha sample_image (0 + x) (0 + y).
Proof.
  destruct (transparent_pixels_get_no_rectangle sample_image false
              sample_image_ok)
    as (pi & out & Hnew & Hw & Hh & Hcells & _ & Hloop).
  assert (∃ pi_end,
            cover_loop (255, 0, 255) id 7 sample_flags sample_grid
              = Some (Ret pi_end) ∧
            length (tag_rects (page pi_end)) = 3%nat)
    as (pi_end & Hend & Hlen).
  { eexists. split; [vm_compute; reflexivity|reflexivity]. }
  rewrite sample_grid_built in Hnew. injection Hnew as <- <-.
  exists sample_grid, [], pi_end. split; [exact sample_grid_built|].
  split.
  { destruct (Hcells 0 0) as (p & Hp & Hx & Hy & Ha & Hc); [simpl; lia..|].
    exists p. split; [done|]. rewrite Hx, Hy in Ha, Hc.
    split; [done|]. by apply Hc. }
  split; [done|]. split; [done|].
  intros rc Hrc.
  exact (proj2 (Hloop (255, 0, 255) id sample_flags) 7%nat pi_end Hend rc Hrc).
Defined.
(** The shape of what the grouping pass returns. *)
Lemma groupLinesByFillColor_shape (range : range_order) (lines : list string) :
  range_order_ok range →
  Forall (λ line, returns (colorFromLine line)) lines →
  ∃ keys out,
    groupLinesByFillColor range lines = Ret out ∧
    keys ≡ₚ fill_colors lines ∧
    length out = length lines ∧
    concat (members lines <$> keys) ≡ₚ filter filled lines ∧
    (filter filled lines = [] → out = lines) ∧
    (filter filled lines ≠ [] →
     ∃ i, (erase <$> lines) !! i = Some "" ∧
          out = <[i := String.concat ""
                          ((λ key, group_element (members lines key) key) <$> keys)]>
                  (erase <$> lines)) ∧
    (∀ i line, lines !! i = Some line → ¬ filled line → line ≠ "" →
               out !! i = Some line).
Proof.
  intros Hrange Hret.
  destruct (groupLinesByFillColor_spec range lines Hrange Hret)
    as (keys & Hkeys & Hout).
  exists keys. eexists. split; [exact Hout|].
  set (contents := String.concat ""
         ((λ key, group_element (members lines key) key) <$> keys)).
  split; [done|].
  split; [by rewrite groupLines_insert_length, length_fmap|].
  split; [by apply members_of_fill_colors|].
  destruct (groupLines_insert_spec (erase <$> lines) contents)
    as [[Hnone Hins]|(i & Hi & Hbefore & Hins)]; rewrite Hins.
  - assert (filter filled lines = []) as Hnil.
    { destruct (filter filled lines) as [|line l] eqn:Hf; [done|].
      assert (line ∈ filter filled lines) as Hin by (rewrite Hf; left).
      apply list_elem_of_filter in Hin as [Hfilled Hin].
      destruct Hnone. by eapply erase_filled. }
    split; [intros _; by apply erase_unfilled|].
    split; [done|].
    intros j line Hj _ _. by rewrite erase_unfilled.
  - split.
    { intros Hnil. rewrite erase_unfilled in Hi |- * by done.
      assert (keys = []) as ->.
      { apply Permutation_nil_r. rewrite Hkeys. unfold fill_colors.
        destruct (remove_dups _) as [|key l] eqn:Hdup; [done|].
        assert (key ∈ fill_colors lines) as Hin
          by (unfold fill_colors; rewrite Hdup; left).
        apply elem_of_fill_colors in Hin as [Hne Hmem].
        destruct Hmem. unfold members.
        destruct (filter (λ line, fill_of line = key) lines)
          as [|line l'] eqn:Hf; [done|].
        assert (line ∈ filter (λ l0, fill_of l0 = key) lines) as Hl
          by (rewrite Hf; left).
        apply list_elem_of_filter in Hl as [Hfill Hl].
        assert (line ∈ filter filled lines) as Hl'.
        { apply list_elem_of_filter. split; [|done]. unfold filled. congruence. }
        rewrite Hnil in Hl'. by apply elem_of_nil in Hl'. }
      subst contents. simpl. by apply list_insert_id. }
    split; [intros _; by exists i|].
    intros j line Hj Hunfilled Hne.
    assert ((erase <$> lines) !! j = Some line) as Hj'.
    { rewrite list_lookup_fmap, Hj. simpl. f_equal. unfold erase, filled in *.
      destruct (decide (fill_of line = "")); tauto. }
    rewrite list_lookup_insert_ne; [done|]. intros <-. congruence.
Qed.

Lemma app_prefix_split (a pre x y : string) :
  a +:+ x = pre +:+ y → (String.length a < String.length pre)%nat →
  ∃ d, pre = a +:+ d ∧ d ≠ "" ∧ x = d +:+ y.
Proof.
  revert pre. induction a as [|c a IH]; intros pre Heq Hlen.
  - exists pre. rewrite !string_app_nil_l in *. split; [done|].
    split; [|done]. intros ->. simpl in Hlen. lia.
  - destruct pre as [|c' pre]; [simpl in Hlen; lia|].
    rewrite !string_app_cons in Heq. injection Heq as -> Heq.
    destruct (IH pre Heq) as (d & -> & Hd & Hx); [simpl in Hlen; lia|].
    exists d. by rewrite string_app_cons.
Qed.

Lemma run_is_prefix (t q d r : string) :
  string_forall (λ c, negb (Ascii.is_space c)) t = true →
  t +:+ q = d +:+ String " " r → ∃ d', d = t +:+ d'.
Proof.
  revert d. induction t as [|c t IH]; intros d Ht Heq.
  - by exists d.
  - simpl in Ht. apply andb_true_iff in Ht as [Hc Ht].
    destruct d as [|c' d].
    + rewrite string_app_nil_l, string_app_cons in Heq.
      injection Heq as -> _. done.
    + rewrite !string_app_cons in Heq. injection Heq as -> Heq.
      destruct (IH d Ht Heq) as [d' ->]. exists d'. by rewrite string_app_cons.
Qed.

(** Before the first field that begins with [fill=] there is no instance of
    a fill attribute. *)
Lemma no_fill_field_first (pre key post : string) :
  no_fill_field pre → first_instance pre (fill_attr key) post.
Proof.
  intros Hpre a b Heq.
  destruct (Nat.le_gt_cases (String.length pre) (String.length a)) as [|Hlt];
    [done|exfalso].
  symmetry in Heq.
  destruct (app_prefix_split a pre _ _ Heq Hlt) as (d & -> & Hd & Hrest).
  destruct d as [|c d]; [done|]. clear Hd Heq Hlt.
  unfold fill_attr in Hrest.
  change (" fill=" +:+ quote +:+ key +:+ quote)
    with (String " " ("fill=" +:+ quote +:+ key +:+ quote)) in Hrest.
  rewrite !string_app_cons in Hrest. injection Hrest as <- Hrest.
  rewrite string_app_assoc in Hrest.
  destruct (run_is_prefix "fill=" _ d _ eq_refl Hrest) as [d' ->].
  unfold no_fill_field, GoStrings.Fields in Hpre.
  rewrite (Fields_from_app_space " ") in Hpre by done.
  destruct (Fields_from_run "fill=" d' eq_refl ltac:(done) false)
    as (f & r & _ & Hfields).
  rewrite Hfields in Hpre. apply Forall_app in Hpre as [_ Hpre].
  apply Forall_cons in Hpre as [Hfield _].
  unfold GoStrings.HasPrefix in Hfield. by rewrite prefix_app in Hfield.
Qed.

Lemma fill_line_color (line key pre post : string) :
  fill_line line key pre post → colorFromLine line = Ret key.
Proof.
  intros (-> & _ & Hpre & Hkey & _). unfold fill_attr.
  replace (pre +:+ (" fill=" +:+ quote +:+ key +:+ quote) +:+ post)
    with (pre +:+ " fill=" +:+ (quote +:+ key) +:+ (quote +:+ post))
    by (by rewrite !string_app_assoc).
  destruct (colorFromLine_first_fill pre (quote +:+ key) (quote +:+ post) Hpre)
    as (f & r & Hf & ->).
  { change (quote +:+ key) with (String quote_char key). simpl.
    by rewrite (token_run key Hkey). }
  { replace (pre +:+ " fill=" +:+ (quote +:+ key) +:+ quote +:+ post)
      with (pre +:+ (" fill=" +:+ quote) +:+ (key +:+ quote +:+ post))
      by (by rewrite !string_app_assoc).
    apply Contains_app. }
  rewrite !(string_app_assoc quote).
  change ("fill=" +:+ quote +:+ key +:+ f)
    with ("fill=" +:+ String quote_char (key +:+ f)).
  rewrite Split_quote_cons by done.
  destruct (Fields_from_true_head (quote +:+ post)) as (f0 & r0 & Hf0 & Hshape);
    [done|].
  rewrite Hf in Hf0. injection Hf0 as <- <-.
  destruct Hshape as [->|[f' ->]].
  - rewrite string_app_nil_r, Split_quote_free by by apply token_free. done.
  - rewrite Split_quote_cons by by apply token_free. done.
Qed.

Lemma plain_line_color (line : string) :
  plain_line line → colorFromLine line = Ret "".
Proof. unfold plain_line, colorFromLine. by intros ->. Qed.

Lemma fill_line_not_plain (line key pre post : string) :
  fill_line line key pre post → ¬ plain_line line.
Proof.
  intros (-> & _) Hplain. unfold plain_line, fill_attr in Hplain.
  replace (pre +:+ (" fill=" +:+ quote +:+ key +:+ quote) +:+ post)
    with (pre +:+ (" fill=" +:+ quote) +:+ (key +:+ quote +:+ post)) in Hplain
    by (by rewrite !string_app_assoc).
  by rewrite Contains_app in Hplain.
Qed.

Lemma fill_line_strip (line key pre post : string) :
  fill_line line key pre post → strip_fill key line = pre +:+ post.
Proof.
  intros (-> & _ & Hpre & _). unfold strip_fill. fold (fill_attr key).
  rewrite Replace_first; [reflexivity|apply fill_attr_not_empty|].
  by apply no_fill_field_first.
Qed.
(** C3, as stated, fails.  On the one line of a rectangle whose fill is
    [a b], [colorFromLine] reads the colour [a]; the pass returns the line
    inside a [<g>] element of fill [a], which is not its fill colour, and
    with its fill attribute still on it.  And on a line whose first field
    beginning with [fill=] has no quote the pass does not return. *)
Lemma groupLinesByFillColor_keeps_a_spaced_fill :
  range_order_ok map_keys ∧
  colorFromLine spaced_line = Ret "a" ∧
  groupLinesByFillColor map_keys [spaced_line] =
    Ret [("<g fill=" +:+ quote +:+ "a" +:+ quote +:+ ">") +:+
         spaced_line +:+ "</g>"] ∧
  strip_fill "a" spaced_line = spaced_line ∧
  ∃ msg, groupLinesByFillColor map_keys [unquoted_line] = Panic msg.
Proof.
  split; [exact map_keys_ok|]. split; [by vm_compute|].
  split; [by vm_compute|]. split; [by vm_compute|].
  eexists. by vm_compute.
Qed.

(** C3, amended: on lines as the emitter writes them, each either without
    the text of a quoted fill or with one well-formed fill attribute as its
    first field beginning with [fill=], the colour-grouping pass returns as
    many lines as it was given.  The lines with a fill colour, which are the
    lines with a fill attribute, are blanked and their groups, one [<g>]
    element per fill colour, replace the first empty line; the other lines
    stay.  Taken over all groups, the members are the lines with a fill
    colour, each exactly once; every line stands in the group of the colour
    of its own fill attribute, and stands there with that attribute
    removed. *)
Theorem groupLinesByFillColor_keeps_every_rectangle
    (range : range_order) (lines : list string) :
  range_order_ok range →
  Forall emitted lines →
  ∃ keys out,
    groupLinesByFillColor range lines = Ret out ∧
    keys ≡ₚ fill_colors lines ∧
    length out = length lines ∧
    concat (members lines <$> keys) ≡ₚ filter filled lines ∧
    (∀ line, line ∈ lines → filled line ↔ ¬ plain_line line) ∧
    (∀ line key pre post, line ∈ lines → fill_line line key pre post →
       key ∈ keys ∧ line ∈ members lines key ∧
       ∀ key', line ∈ members lines key' → key' = key) ∧
    (∀ key line, key ∈ keys → line ∈ members lines key →
       line ∈ lines ∧
       ∃ pre post, fill_line line key pre post ∧
                   strip_fill key line = pre +:+ post) ∧
    (filter filled lines = [] → out = lines) ∧
    (filter filled lines ≠ [] →
     ∃ i, (erase <$> lines) !! i = Some "" ∧
          out = <[i := String.concat ""
                          ((λ key, group_element (members lines key) key) <$> keys)]>
                  (erase <$> lines)) ∧
    (∀ i line, lines !! i = Some line → ¬ filled line → line ≠ "" →
               out !! i = Some line).
Proof.
  intros Hrange Hemitted.
  assert (Forall (λ line, returns (colorFromLine line)) lines) as Hret.
  { eapply Forall_impl; [exact Hemitted|]. intros line [Hp|(k & a & b & Hf)].
    - rewrite (plain_line_color line Hp). by eexists.
    - rewrite (fill_line_color line k a b Hf). by eexists. }
  destruct (groupLinesByFillColor_shape range lines Hrange Hret)
    as (keys & out & Hout & Hkeys & Hlen & Hmembers & Hnone & Hsome & Hstay).
  exists keys, out. split; [done|]. split; [done|]. split; [done|].
  split; [done|].
  assert (Hfill : ∀ line key pre post,
            fill_line line key pre post → fill_of line = key ∧ key ≠ "").
  { intros line key pre post Hf. unfold fill_of.
    rewrite (fill_line_color line key pre post Hf). by destruct Hf as (_&_&_&_&?). }
  assert (Hplain : ∀ line, plain_line line → fill_of line = "").
  { intros line Hp. unfold fill_of. by rewrite (plain_line_color line Hp). }
  rewrite Forall_forall in Hemitted.
  split; [|split; [|split; [|done]]].
  - intros line Hin. unfold filled. split.
    + intros Hne Hp. by apply Hne, Hplain.
    + intros Hnp. destruct (Hemitted line Hin) as [Hp|(k & a & b & Hf)]; [done|].
      destruct (Hfill line k a b Hf) as [-> Hk]. done.
  - intros line key pre post Hin Hf. destruct (Hfill line key pre post Hf) as [Hc Hk].
    assert (line ∈ members lines key) as Hmem.
    { unfold members. by apply list_elem_of_filter. }
    split; [|split; [done|]].
    + rewrite Hkeys. apply elem_of_fill_colors. split; [done|].
      intros Hnil. rewrite Hnil in Hmem. by apply elem_of_nil in Hmem.
    + intros key' Hmem'. unfold members in Hmem'.
      apply list_elem_of_filter in Hmem' as [Hc' _]. congruence.
  - intros key line Hkey Hmem. unfold members in Hmem.
    apply list_elem_of_filter in Hmem as [Hc Hin]. split; [done|].
    rewrite Hkeys in Hkey. apply elem_of_fill_colors in Hkey as [Hk _].
    destruct (Hemitted line Hin) as [Hp|(k & a & b & Hf)].
    { rewrite (Hplain line Hp) in Hc. congruence. }
    destruct (Hfill line k a b Hf) as [Hc' _].
    assert (k = key) as -> by congruence.
    exists a, b. split; [done|]. by eapply fill_line_strip.
Qed.

Lemma sample_lines_emitted : Forall emitted sample_lines.
Proof.
  assert (∀ x fill, token fill → fill ≠ "" →
            ascii_text (rect_line x "0" fill) →
            no_fill_field
              ("  <rect x=" +:+ quote +:+ x +:+ quote +:+
               " y=" +:+ quote +:+ "0" +:+ quote +:+
               " width=" +:+ quote +:+ "1" +:+ quote +:+
               " height=" +:+ quote +:+ "1" +:+ quote) →
            emitted (rect_line x "0" fill)) as Hrect.
  { intros x fill Htoken Hne Hascii Hpre. right.
    exists fill, ("  <rect x=" +:+ quote +:+ x +:+ quote +:+
                  " y=" +:+ quote +:+ "0" +:+ quote +:+
                  " width=" +:+ quote +:+ "1" +:+ quote +:+
                  " height=" +:+ quote +:+ "1" +:+ quote), " />".
    unfold fill_line. split; [|done]. unfold rect_line, fill_attr.
    by rewrite !string_app_assoc. }
  assert (∀ pre, Forall (λ field, GoStrings.HasPrefix field "fill=" = false)
                    (GoStrings.Fields pre) → no_fill_field pre) as Hno by done.
  unfold sample_lines.
  apply Forall_cons_2; [by left|].
  apply Forall_cons_2;
    [apply Hrect; [done|done|done|]; apply Hno; vm_compute; repeat constructor|].
  apply Forall_cons_2;
    [apply Hrect; [done|done|done|]; apply Hno; vm_compute; repeat constructor|].
  apply Forall_cons_2;
    [apply Hrect; [done|done|done|]; apply Hno; vm_compute; repeat constructor|].
  apply Forall_cons_2; [by left|]. apply Forall_nil_2.
Qed.

Lemma groupLinesByFillColor_keeps_every_rectangle_witness :
  ∃ keys out,
    groupLinesByFillColor map_keys sample_lines = Ret out ∧
    keys ≡ₚ fill_colors sample_lines ∧
    length out = length sample_lines ∧
    concat (members sample_lines <$> keys) ≡ₚ filter filled sample_lines ∧
    (∀ key line, key ∈ keys → line ∈ members sample_lines key →
       line ∈ sample_lines ∧
       ∃ pre post, fill_line line key pre post ∧
                   strip_fill key line = pre +:+ post).
Proof.
  destruct (groupLinesByFillColor_keeps_every_rectangle map_keys sample_lines)
    as (keys & out & Hout & Hkeys & Hlen & Hmembers & _ & _ & Hgroups & _).
  - exact map_keys_ok.
  - exact sample_lines_emitted.
  - by exists keys, out.
Defined.
